(** * Layered DAG layout of the workflow graph

    A shallow embedding of [buildLayout] (WorkflowGraph component) and the
    properties of the layout it computes, followed by the code around it:
    the nodes and edges [WorkflowGraph] renders from the layout, the step
    card, the highlight sets of the page and the simulation form.

    JavaScript numbers are modelled as unbounded integers [Z]: step
    identifiers are database keys, levels and indices are counters, and the
    only division, [totalH / 2], is exact because [totalH] is always even
    (lemma [totalH_even]).  A JavaScript [Map] is modelled as an association
    list in insertion order, which is the order its [entries()] and [keys()]
    iterate in. *)

From Stdlib Require Import String.
From Stdlib Require Import ZArith List Lia Bool Permutation.
From Stdlib Require Ascii DecimalString DecimalPos DecimalZ QArith_base.
Import ListNotations.
Open Scope Z_scope.

(** ** JavaScript [Map] with numeric keys *)

Module JsMap.
Section Ops.
Context {V : Type}.

Definition t := list (Z * V).

Definition empty : t := [].

Fixpoint get (m : t) (k : Z) : option V :=
  match m with
  | [] => None
  | (k', v) :: m' => if k' =? k then Some v else get m' k
  end.

(* [set] on a present key keeps the key's place in the iteration order;
   a new key goes last. *)
Fixpoint set (k : Z) (v : V) (m : t) : t :=
  match m with
  | [] => [(k, v)]
  | (k', v') :: m' =>
      if k' =? k then (k', v) :: m' else (k', v') :: set k v m'
  end.

Definition has (m : t) (k : Z) : bool :=
  match get m k with Some _ => true | None => false end.

Definition keys (m : t) : list Z := map fst m.

Definition values (m : t) : list V := map snd m.
End Ops.
Arguments t : clear implicits.
End JsMap.

(** The [??] operator. *)
Definition orElse {A : Type} (o : option A) (d : A) : A :=
  match o with Some a => a | None => d end.

Infix "??" := orElse (at level 45, left associativity).

(** ** Data model (lib/api) *)

Module ProcessStep.
Record t := mk {
  id : Z;
  process_id : Z;
  name : string;
  duration_minutes : Z;
  cost_per_execution : Z;
  resource_count : Z;
  sla_limit_minutes : option Z;
  executions_per_day : Z
}.
End ProcessStep.

Module Dependency.
Record t := mk {
  id : Z;
  source_step_id : Z;
  target_step_id : Z
}.
End Dependency.

Record Position := mkPosition { x : Z; y : Z }.

Definition mem (k : Z) (l : list Z) : bool := existsb (Z.eqb k) l.

(** ** buildLayout *)

Section Build.
Import JsMap.

(* for (const s of steps) { adjOut.set(s.id, []); inDeg.set(s.id, 0); } *)
Definition initStep (acc : JsMap.t (list Z) * JsMap.t Z) (s : ProcessStep.t) :=
  (set (ProcessStep.id s) [] (fst acc), set (ProcessStep.id s) 0 (snd acc)).

(* adjOut.get(d.source_step_id)?.push(d.target_step_id);
   inDeg.set(d.target_step_id, (inDeg.get(d.target_step_id) ?? 0) + 1); *)
Definition addDep (acc : JsMap.t (list Z) * JsMap.t Z) (d : Dependency.t) :=
  let src := Dependency.source_step_id d in
  let tgt := Dependency.target_step_id d in
  (match get (fst acc) src with
   | Some outs => set src (outs ++ [tgt]) (fst acc)
   | None => fst acc
   end,
   set tgt ((get (snd acc) tgt ?? 0) + 1) (snd acc)).

Definition buildMaps (steps : list ProcessStep.t) (deps : list Dependency.t) :=
  fold_left addDep deps (fold_left initStep steps (empty, empty)).

(* for (const [id, deg] of inDeg.entries()) { if (deg === 0) queue.push(id); } *)
Definition seedQueue (inDeg : JsMap.t Z) : list Z :=
  map fst (filter (fun e => snd e =? 0) inDeg).

Record LoopState := mkLoopState {
  queue : list Z;
  head : nat;
  inDeg : JsMap.t Z;
  level : JsMap.t Z;
  levelGroups : JsMap.t (list Z)
}.

(* Body of [for (const next of (adjOut.get(id) ?? []))]. *)
Definition relax (lvl : Z) (st : LoopState) (next : Z) : LoopState :=
  let inDeg' := set next ((get (inDeg st) next ?? 1) - 1) (inDeg st) in
  let level' := set next (Z.max (get (level st) next ?? 0) (lvl + 1)) (level st) in
  let queue' :=
    match get inDeg' next with
    | Some 0 => queue st ++ [next]
    | _ => queue st
    end in
  mkLoopState queue' (head st) inDeg' level' (levelGroups st).

(* Body of [while (head < queue.length)]; under the loop guard
   [queue[head++]] is in range, so the default of [nth] is never read. *)
Definition step (adjOut : JsMap.t (list Z)) (st : LoopState) : LoopState :=
  let id := nth (head st) (queue st) 0 in
  let lvl := get (level st) id ?? 0 in
  let grp := get (levelGroups st) lvl ?? [] in
  let st1 := mkLoopState (queue st) (S (head st)) (inDeg st) (level st)
               (set lvl (grp ++ [id]) (levelGroups st)) in
  fold_left (relax lvl) (get adjOut id ?? []) st1.

Fixpoint while (fuel : nat) (adjOut : JsMap.t (list Z)) (st : LoopState)
  : option LoopState :=
  if (head st <? length (queue st))%nat then
    match fuel with
    | O => None
    | S fuel' => while fuel' adjOut (step adjOut st)
    end
  else Some st.

Definition initState (inDeg0 : JsMap.t Z) : LoopState :=
  mkLoopState (seedQueue inDeg0) 0 inDeg0 empty empty.

(* The traversal: everything up to the end of the while loop. *)
Definition traverse (fuel : nat) (steps : list ProcessStep.t)
  (deps : list Dependency.t) : option LoopState :=
  let maps := buildMaps steps deps in
  while fuel (fst maps) (initState (snd maps)).

Definition NODE_W := 200.
Definition NODE_H := 100.
Definition GAP_X := 60.
Definition GAP_Y := 60.

(* Math.max(...Array.from(levelGroups.keys()), 0) *)
Definition maxLevelOf (levelGroups : JsMap.t (list Z)) : Z :=
  fold_right Z.max 0 (keys levelGroups).

(* group.forEach((id, i) => positions.set(id, {...})), from index [i]. *)
Fixpoint forEachFrom (lvl totalH : Z) (group : list Z) (i : Z)
  (positions : JsMap.t Position) : JsMap.t Position :=
  match group with
  | [] => positions
  | id :: rest =>
      forEachFrom lvl totalH rest (i + 1)
        (set id (mkPosition (lvl * (NODE_W + GAP_X))
                            (i * (NODE_H + GAP_Y) - totalH / 2)) positions)
  end.

Definition placeLevel (levelGroups : JsMap.t (list Z))
  (positions : JsMap.t Position) (lvl : Z) : JsMap.t Position :=
  let group := get levelGroups lvl ?? [] in
  let totalH := Z.of_nat (length group) * (NODE_H + GAP_Y) - GAP_Y in
  forEachFrom lvl totalH group 0 positions.

(* the values taken by [lvl] in [for (let lvl = 0; lvl <= maxLevel; lvl++)] *)
Definition levelsUpTo (maxLevel : Z) : list Z :=
  map Z.of_nat (seq 0 (Z.to_nat (maxLevel + 1))).

Definition placeLevels (levelGroups : JsMap.t (list Z)) : JsMap.t Position :=
  fold_left (placeLevel levelGroups) (levelsUpTo (maxLevelOf levelGroups)) empty.

(* Fallback loop body; the accumulator is (positions, fallbackIdx). *)
Definition fallbackStep (maxLevel : Z) (acc : JsMap.t Position * Z)
  (s : ProcessStep.t) : JsMap.t Position * Z :=
  if has (fst acc) (ProcessStep.id s) then acc
  else (set (ProcessStep.id s)
          (mkPosition ((maxLevel + 1 + snd acc) * (NODE_W + GAP_X)) 0) (fst acc),
        snd acc + 1).

Definition place (steps : list ProcessStep.t) (st : LoopState) : JsMap.t Position :=
  let maxLevel := maxLevelOf (levelGroups st) in
  fst (fold_left (fallbackStep maxLevel) steps (placeLevels (levelGroups st), 0)).

Definition buildLayoutFuel (fuel : nat) (steps : list ProcessStep.t)
  (deps : list Dependency.t) : option (JsMap.t Position) :=
  option_map (place steps) (traverse fuel steps deps).

(* The source loop carries no bound; the model runs it on fuel.  The loop
   body runs at most once per key of [inDeg], and there are at most
   [length steps + length deps] keys, so this budget is never exhausted
   ([traverse_total]) and a larger one changes nothing ([traverse_fuel_mono]). *)
Definition buildLayout (steps : list ProcessStep.t) (deps : list Dependency.t)
  : option (JsMap.t Position) :=
  buildLayoutFuel (length steps + length deps) steps deps.
End Build.

(** ** Building inputs from identifiers *)

Definition node (i : Z) : ProcessStep.t :=
  ProcessStep.mk i 1 EmptyString 0 0 0 None 0.

Definition edge (s t : Z) : Dependency.t := Dependency.mk 0 s t.

Definition nodes (l : list Z) : list ProcessStep.t := map node l.
Definition edges (l : list (Z * Z)) : list Dependency.t :=
  map (fun p => edge (fst p) (snd p)) l.

(** * Vocabulary of the specification *)

Definition ids (steps : list ProcessStep.t) : list Z := map ProcessStep.id steps.

Abbreviation src := Dependency.source_step_id.
Abbreviation tgt := Dependency.target_step_id.

(* number of elements of [l] that satisfy [p] *)
Definition countZ {A : Type} (p : A -> bool) (l : list A) : Z :=
  Z.of_nat (length (filter p l)).

(* targets of the edges leaving [k], in edge order *)
Definition outs (deps : list Dependency.t) (k : Z) : list Z :=
  map tgt (filter (fun d => src d =? k) deps).

(* number of edges entering [t], whatever their source *)
Definition indegree (deps : list Dependency.t) (t : Z) : Z :=
  countZ (fun d => tgt d =? t) deps.

(* number of occurrences of [t] in [l] *)
Definition occ (t : Z) (l : list Z) : Z := countZ (Z.eqb t) l.

(* number of keys whose in-degree counter is still positive *)
Definition posCount (m : JsMap.t Z) : nat :=
  length (filter (fun e => 0 <? snd e) m).

(* Invariant kept by every single relaxation: the queue holds exactly the
   keys whose counter has reached zero (or gone below), each once. *)
Definition queueOK (st : LoopState) : Prop :=
  NoDup (queue st) /\
  (forall t d, JsMap.get (inDeg st) t = Some d -> (In t (queue st) <-> d <= 0)) /\
  (forall t, In t (queue st) -> JsMap.get (inDeg st) t <> None).

(* identifiers that own a counter: the nodes and every edge target *)
Definition isKey (steps : list ProcessStep.t) (deps : list Dependency.t) (t : Z) : bool :=
  mem t (ids steps) || mem t (map tgt deps).

(* edges entering [t] whose source is not an input node *)
Definition ext (steps : list ProcessStep.t) (deps : list Dependency.t) (t : Z) : Z :=
  countZ (fun d => (tgt d =? t) && negb (mem (src d) (ids steps))) deps.

(* edges entering [t] from input nodes outside [P] *)
Definition pend (steps : list ProcessStep.t) (deps : list Dependency.t)
  (P : list Z) (t : Z) : Z :=
  countZ (fun d => (tgt d =? t) && mem (src d) (ids steps) && negb (mem (src d) P)) deps.

(* the nodes dequeued so far *)
Definition proc (st : LoopState) : list Z := firstn (head st) (queue st).

(* level.get(t) ?? 0 *)
Definition lev (st : LoopState) (t : Z) : Z := JsMap.get (level st) t ?? 0.

(* What holds at every test of the loop guard: the counters count the
   edges not yet processed, processed edges climb levels, every recorded
   level is witnessed by a processed edge, and the buckets partition the
   dequeued identifiers by level. *)
Record Inv (steps : list ProcessStep.t) (deps : list Dependency.t)
  (st : LoopState) : Prop := mkInv {
  inv_head : (head st <= length (queue st))%nat;
  inv_queue : queueOK st;
  inv_deg : forall t,
    JsMap.get (inDeg st) t
      = if isKey steps deps t
        then Some (ext steps deps t + pend steps deps (proc st) t) else None;
  inv_lvl_edge : forall d,
    In d deps -> In (src d) (ids steps) -> In (src d) (proc st) ->
    lev st (src d) + 1 <= lev st (tgt d);
  inv_lvl_wit : forall t l,
    JsMap.get (level st) t = Some l ->
    1 <= l /\
    exists d, In d deps /\ tgt d = t /\ In (src d) (ids steps) /\
              In (src d) (proc st) /\ l = lev st (src d) + 1;
  inv_lvl_none : forall t,
    JsMap.get (level st) t = None ->
    forall d, In d deps -> tgt d = t -> In (src d) (ids steps) ->
    ~ In (src d) (proc st);
  inv_grp_perm : Permutation (concat (JsMap.values (levelGroups st))) (proc st);
  inv_grp_keys : NoDup (JsMap.keys (levelGroups st));
  inv_grp_lvl : forall k g i,
    JsMap.get (levelGroups st) k = Some g -> In i g -> lev st i = k
}.

(* position of the [j]-th node of a bucket of [n] nodes at level [lvl] *)
Definition bucketPos (lvl : Z) (j n : nat) : Position :=
  mkPosition (lvl * (NODE_W + GAP_X))
             (Z.of_nat j * (NODE_H + GAP_Y)
              - (Z.of_nat n * (NODE_H + GAP_Y) - GAP_Y) / 2).

(* identifiers of [l] that [pos] does not place yet, each once *)
Definition unplaced (pos : JsMap.t Position) (l : list Z) : list Z :=
  nodup Z.eq_dec (filter (fun k => negb (JsMap.has pos k)) l).

(* the diamond A -> B, A -> C, B -> D, C -> D *)
Definition diamondSteps (sA sB sC sD : ProcessStep.t) : list ProcessStep.t :=
  [sA; sB; sC; sD].

Definition diamondDeps (a b c d i1 i2 i3 i4 : Z) : list Dependency.t :=
  [Dependency.mk i1 a b; Dependency.mk i2 a c;
   Dependency.mk i3 b d; Dependency.mk i4 c d].

(* the state its traversal ends in, and the layout *)
Definition diamondFinal (a b c d : Z) : LoopState :=
  mkLoopState [a; b; c; d] 4 [(a, 0); (b, 0); (c, 0); (d, 0)]
    [(b, 1); (c, 1); (d, 2)] [(0, [a]); (1, [b; c]); (2, [d])].

Definition diamondPlaced (a b c d : Z) : JsMap.t Position :=
  [(a, mkPosition 0 (-50)); (b, mkPosition 260 (-130));
   (c, mkPosition 260 30); (d, mkPosition 520 (-50))].

(* the diamond on the identifiers 1, 2, 3, 4 *)
Definition diamondNodes : list ProcessStep.t := nodes [1; 2; 3; 4].
Definition diamondEdges : list Dependency.t :=
  edges [(1, 2); (1, 3); (2, 4); (3, 4)].

Definition diamondState : LoopState := diamondFinal 1 2 3 4.

Definition diamondPositions : JsMap.t Position := diamondPlaced 1 2 3 4.

(* two positions whose boxes cannot overlap *)
Definition separated (p q : Position) : Prop :=
  NODE_W + GAP_X <= Z.abs (x p - x q) \/ NODE_H + GAP_Y <= Z.abs (y p - y q).

(* all entries pairwise separated and no entry right of column [bound] *)
Definition Sep (pos : JsMap.t Position) (bound : Z) : Prop :=
  (forall k1 k2 p1 p2, k1 <> k2 ->
     JsMap.get pos k1 = Some p1 -> JsMap.get pos k2 = Some p2 -> separated p1 p2) /\
  (forall k p, JsMap.get pos k = Some p -> x p <= bound * (NODE_W + GAP_X)).

(* an edge both of whose endpoints are input nodes *)
Definition wellFormed (steps : list ProcessStep.t) (d : Dependency.t) : bool :=
  mem (src d) (ids steps) && mem (tgt d) (ids steps).

(* the edge list restricted to the input nodes *)
Definition restricted (steps : list ProcessStep.t) (deps : list Dependency.t)
  : list Dependency.t :=
  filter (wellFormed steps) deps.

(* [walk E a b n]: the edges of [E] lead from [a] to [b] in [n] steps *)
Inductive walk (E : list Dependency.t) (a : Z) : Z -> Z -> Prop :=
| walk_refl : walk E a a 0
| walk_step d n : walk E a (src d) n -> In d E -> walk E a (tgt d) (n + 1).

(* an input node without incoming edge in the restricted graph *)
Definition isSource (steps : list ProcessStep.t) (deps : list Dependency.t)
  (s : Z) : Prop :=
  In s (ids steps) /\ indegree (restricted steps deps) s = 0.

Definition reachableFromSource (steps : list ProcessStep.t)
  (deps : list Dependency.t) (v : Z) : Prop :=
  exists s n, isSource steps deps s /\ walk (restricted steps deps) s v n.

(** ** Further vocabulary of the traversal *)

(* the buckets list the dequeued identifiers of their level in dequeue
   order, and a bucket that exists is not empty *)
Definition bucketsOrdered (st : LoopState) : Prop :=
  (forall k, JsMap.get (levelGroups st) k ?? []
             = filter (fun i => lev st i =? k) (proc st)) /\
  (forall k g, JsMap.get (levelGroups st) k = Some g -> g <> []).

(* the identifiers without incoming edge, in input order *)
Definition roots (steps : list ProcessStep.t) (deps : list Dependency.t) : list Z :=
  filter (fun i => indegree deps i =? 0) (ids steps).

(* the queue still starts with the identifiers it was seeded with *)
Definition seeded (seed : list Z) (st : LoopState) : Prop :=
  exists rest, queue st = seed ++ rest.

(** ** The rendered graph *)

(* [String(n)] for an integer [n]: its decimal digits, with a leading minus
   sign when negative.  This is what JavaScript prints for every integer
   below 1e21, so for every database key. *)
Definition jsString (n : Z) : string :=
  DecimalString.NilEmpty.string_of_int (Z.to_int n).

(* a truthiness test on an optional boolean field *)
Definition truthy (b : option bool) : bool := b ?? false.

(* [Set<string>.has] *)
Definition hasString (set : list string) (v : string) : bool :=
  existsb (String.eqb v) set.

Module Process.
Record t := mk {
  id : Z;
  name : string;
  description : option string;
  steps : list ProcessStep.t;
  dependencies : list Dependency.t
}.
End Process.

Module StepNodeData.
Record t := mk {
  name : string;
  duration_minutes : Z;
  cost_per_execution : Z;
  executions_per_day : Z;
  resource_count : Z;
  sla_limit_minutes : option Z;
  isBottleneck : option bool;
  isCritical : option bool
}.
End StepNodeData.

Module FlowNode.
Record t := mk {
  id : string;
  type : string;
  position : Position;
  data : StepNodeData.t
}.
End FlowNode.

Inductive MarkerType := Arrow | ArrowClosed.

Module FlowEdge.
Record Marker := mkMarker { marker_type : MarkerType; color : string }.
Record Style := mkStyle { stroke : string; strokeWidth : QArith_base.Q }.
Record t := mk {
  id : string;
  source : string;
  target : string;
  type : string;
  markerEnd : Marker;
  animated : bool;
  style : Style
}.
End FlowEdge.

Module WorkflowGraphProps.
Record t := mk {
  process : Process.t;
  bottleneckStepIds : option (list Z);
  criticalPathSteps : option (list string)
}.
End WorkflowGraphProps.

Module WorkflowGraph.
Section Render.
Variable props : WorkflowGraphProps.t.

Definition process := WorkflowGraphProps.process props.
(* the two default parameters [= new Set()] *)
Definition bottleneckStepIds : list Z :=
  WorkflowGraphProps.bottleneckStepIds props ?? [].
Definition criticalPathSteps : list string :=
  WorkflowGraphProps.criticalPathSteps props ?? [].

(* the callback of [process.steps.map] *)
Definition toNode (positions : JsMap.t Position) (s : ProcessStep.t) : FlowNode.t :=
  let pos := JsMap.get positions (ProcessStep.id s) ?? mkPosition 0 0 in
  FlowNode.mk (jsString (ProcessStep.id s)) "step" pos
    (StepNodeData.mk (ProcessStep.name s)
       (ProcessStep.duration_minutes s)
       (ProcessStep.cost_per_execution s)
       (ProcessStep.executions_per_day s)
       (ProcessStep.resource_count s)
       (ProcessStep.sla_limit_minutes s)
       (Some (mem (ProcessStep.id s) bottleneckStepIds))
       (Some (hasString criticalPathSteps (ProcessStep.name s)))).

(* the callback of [process.dependencies.map]; the widths are 2.5 and 1.5 *)
Definition toEdge (d : Dependency.t) : FlowEdge.t :=
  let isBotEdge := mem (Dependency.source_step_id d) bottleneckStepIds in
  FlowEdge.mk
    ("e-" ++ jsString (Dependency.source_step_id d) ++ "-"
          ++ jsString (Dependency.target_step_id d))%string
    (jsString (Dependency.source_step_id d))
    (jsString (Dependency.target_step_id d))
    "smoothstep"
    (FlowEdge.mkMarker ArrowClosed (if isBotEdge then "#dc2626" else "#94a3b8"))
    isBotEdge
    (FlowEdge.mkStyle (if isBotEdge then "#dc2626" else "#94a3b8")
       (if isBotEdge then QArith_base.Qmake 5 2 else QArith_base.Qmake 3 2)).

Definition nodes : option (list FlowNode.t) :=
  option_map (fun positions => map (toNode positions) (Process.steps process))
    (buildLayout (Process.steps process) (Process.dependencies process)).

Definition edges : list FlowEdge.t := map toEdge (Process.dependencies process).
End Render.

(* the [nodeColor] callback of the minimap *)
Definition nodeColor (n : FlowNode.t) : string :=
  let d := FlowNode.data n in
  if truthy (StepNodeData.isBottleneck d) then "#ef4444"
  else if truthy (StepNodeData.isCritical d) then "#f59e0b"
  else "#6366f1".
End WorkflowGraph.

(** ** The step card *)

Module StepNode.
Section Card.
Variable data : StepNodeData.t.

Definition borderClass : string :=
  if truthy (StepNodeData.isBottleneck data)
  then "border-red-500 shadow-red-100 shadow-lg"
  else if truthy (StepNodeData.isCritical data)
  then "border-amber-400 shadow-amber-100 shadow-md"
  else "border-slate-200 shadow-sm".

Definition headerClass : string :=
  if truthy (StepNodeData.isBottleneck data) then "text-red-700 bg-red-50"
  else if truthy (StepNodeData.isCritical data) then "text-amber-700 bg-amber-50"
  else "text-slate-800 bg-slate-50".

(* sla_limit_minutes != null && duration_minutes > sla_limit_minutes *)
Definition slaViolation : bool :=
  match StepNodeData.sla_limit_minutes data with
  | Some limit => limit <? StepNodeData.duration_minutes data
  | None => false
  end.

(* the labels rendered under the name, in document order *)
Definition badges : list string :=
  (if truthy (StepNodeData.isBottleneck data) then ["Bottleneck"%string] else [])
  ++ (if truthy (StepNodeData.isCritical data)
         && negb (truthy (StepNodeData.isBottleneck data))
      then ["Critical Path"%string] else []).
End Card.
End StepNode.

(** ** The page's highlight sets *)

Inductive BottleneckType := bt_duration | bt_cost | bt_sla | bt_utilization.

Module BottleneckInfo.
Record t := mk {
  step_id : Z;
  step_name : string;
  type : BottleneckType;
  severity : QArith_base.Q;
  message : string;
  current_value : QArith_base.Q
}.
End BottleneckInfo.

(* the fields of an analysis result that the page hands to the graph *)
Module AnalysisResult.
Record t := mk {
  bottlenecks : list BottleneckInfo.t;
  critical_path : list string
}.
End AnalysisResult.

(* new Set(analysis?.bottlenecks.map((b) => b.step_id) ?? []) *)
Definition bottleneckIds (analysis : option AnalysisResult.t) : list Z :=
  option_map (fun a => map BottleneckInfo.step_id (AnalysisResult.bottlenecks a))
    analysis ?? [].

(* new Set(analysis?.critical_path ?? []) *)
Definition criticalPathSet (analysis : option AnalysisResult.t) : list string :=
  option_map AnalysisResult.critical_path analysis ?? [].

(* <WorkflowGraph process={selected} bottleneckStepIds={...} criticalPathSteps={...} /> *)
Definition graphProps (selected : Process.t) (analysis : option AnalysisResult.t)
  : WorkflowGraphProps.t :=
  WorkflowGraphProps.mk selected (Some (bottleneckIds analysis))
    (Some (criticalPathSet analysis)).

(* the diamond as the page hands it to the graph, with an analysis that
   reports step 2 as bottleneck, and the nodes it renders *)
Definition diamondProcess : Process.t :=
  Process.mk 1 "diamond" None diamondNodes diamondEdges.

Definition diamondAnalysis : AnalysisResult.t :=
  AnalysisResult.mk
    [BottleneckInfo.mk 2 "" bt_duration (QArith_base.Qmake 1 1) "slow"
       (QArith_base.Qmake 90 1)]
    [].

Definition diamondProps : WorkflowGraphProps.t :=
  graphProps diamondProcess (Some diamondAnalysis).

Definition diamondGraphNodes : list FlowNode.t :=
  map (WorkflowGraph.toNode diamondProps diamondPositions) diamondNodes.

(** ** The simulation form *)

Inductive SimulationType :=
  reduce_duration | add_resource | automate | remove_step | merge_steps.

Definition SIM_TYPES : list (SimulationType * string) :=
  [(reduce_duration, "Reduce Duration"%string); (add_resource, "Add Resource"%string);
   (automate, "Automate Step"%string); (remove_step, "Remove Step"%string);
   (merge_steps, "Merge Steps"%string)].

Module SimulationRequest.
Record t := mk {
  simulation_type : SimulationType;
  step_id : Z;
  duration_reduction_percent : option Z;
  resources_to_add : option Z;
  merge_target_step_id : option Z;
  new_duration_minutes : option Z;
  new_cost_per_execution : option Z;
  implementation_cost : option Z;
  revenue_per_unit : option Z
}.
End SimulationRequest.

Module SimulationForm.
(* the values held by the [useState] hooks *)
Record State := mkState {
  simType : SimulationType;
  stepId : Z;
  mergeTargetId : Z;
  reductionPercent : Z;
  resourcesToAdd : Z;
  newDuration : Z;
  newCost : Z;
  implCost : Z;
  revenuePerUnit : Z;
  loading : bool;
  error : option string
}.

Definition simType_eqb (a b : SimulationType) : bool :=
  match a, b with
  | reduce_duration, reduce_duration | add_resource, add_resource
  | automate, automate | remove_step, remove_step | merge_steps, merge_steps => true
  | _, _ => false
  end.

Section Form.
Variable process : Process.t.
Variable externalRev : option Z.

(* the initial values; [process.steps[i]?.id ?? 0] *)
Definition init : State :=
  mkState reduce_duration
    (option_map ProcessStep.id (nth_error (Process.steps process) 0) ?? 0)
    (option_map ProcessStep.id (nth_error (Process.steps process) 1) ?? 0)
    40 1 30 5 50000 (externalRev ?? 500) false None.

(* the request built by [runSimulation]: the literal, then the four
   conditional assignments in order *)
Definition request (st : State) : SimulationRequest.t :=
  let req0 :=
    SimulationRequest.mk (simType st) (stepId st) None None None None None
      (Some (implCost st)) (Some (revenuePerUnit st)) in
  let req1 :=
    if simType_eqb (simType st) reduce_duration
    then SimulationRequest.mk
           (SimulationRequest.simulation_type req0) (SimulationRequest.step_id req0)
           (Some (reductionPercent st))
           (SimulationRequest.resources_to_add req0)
           (SimulationRequest.merge_target_step_id req0)
           (SimulationRequest.new_duration_minutes req0)
           (SimulationRequest.new_cost_per_execution req0)
           (SimulationRequest.implementation_cost req0)
           (SimulationRequest.revenue_per_unit req0)
    else req0 in
  let req2 :=
    if simType_eqb (simType st) add_resource
    then SimulationRequest.mk
           (SimulationRequest.simulation_type req1) (SimulationRequest.step_id req1)
           (SimulationRequest.duration_reduction_percent req1)
           (Some (resourcesToAdd st))
           (SimulationRequest.merge_target_step_id req1)
           (SimulationRequest.new_duration_minutes req1)
           (SimulationRequest.new_cost_per_execution req1)
           (SimulationRequest.implementation_cost req1)
           (SimulationRequest.revenue_per_unit req1)
    else req1 in
  let req3 :=
    if simType_eqb (simType st) automate
    then SimulationRequest.mk
           (SimulationRequest.simulation_type req2) (SimulationRequest.step_id req2)
           (SimulationRequest.duration_reduction_percent req2)
           (SimulationRequest.resources_to_add req2)
           (SimulationRequest.merge_target_step_id req2)
           (Some (newDuration st))
           (Some (newCost st))
           (SimulationRequest.implementation_cost req2)
           (SimulationRequest.revenue_per_unit req2)
    else req2 in
  if simType_eqb (simType st) merge_steps
  then SimulationRequest.mk
         (SimulationRequest.simulation_type req3) (SimulationRequest.step_id req3)
         (SimulationRequest.duration_reduction_percent req3)
         (SimulationRequest.resources_to_add req3)
         (Some (mergeTargetId st))
         (SimulationRequest.new_duration_minutes req3)
         (SimulationRequest.new_cost_per_execution req3)
         (SimulationRequest.implementation_cost req3)
         (SimulationRequest.revenue_per_unit req3)
  else req3.

(* [runSimulation] up to its call [api.simulate(process.id, req)]: the new
   state and the two arguments of the call *)
Definition runSimulation (st : State) : State * (Z * SimulationRequest.t) :=
  (mkState (simType st) (stepId st) (mergeTargetId st) (reductionPercent st)
     (resourcesToAdd st) (newDuration st) (newCost st) (implCost st)
     (revenuePerUnit st) true None,
   (Process.id process, request st)).

Definition selectedStep (st : State) : option ProcessStep.t :=
  find (fun s => ProcessStep.id s =? stepId st) (Process.steps process).

Definition otherSteps (st : State) : list ProcessStep.t :=
  filter (fun s => negb (ProcessStep.id s =? stepId st)) (Process.steps process).

(* what the user can do to the form; a change event carries
   [Number(e.target.value)] *)
Inductive Event :=
| ClickType (t : SimulationType)
| ChangeStep (v : Z)
| ChangeReduction (v : Z)
| ChangeResources (v : Z)
| ChangeNewDuration (v : Z)
| ChangeNewCost (v : Z)
| ChangeMergeTarget (v : Z)
| ChangeImplCost (v : Z)
| ChangeRevenue (v : Z).

(* the handlers [onClick] and [onChange] *)
Definition handle (st : State) (ev : Event) : State :=
  match ev with
  | ClickType t =>
      mkState t (stepId st) (mergeTargetId st) (reductionPercent st)
        (resourcesToAdd st) (newDuration st) (newCost st) (implCost st)
        (revenuePerUnit st) (loading st) (error st)
  | ChangeStep v =>
      mkState (simType st) v (mergeTargetId st) (reductionPercent st)
        (resourcesToAdd st) (newDuration st) (newCost st) (implCost st)
        (revenuePerUnit st) (loading st) (error st)
  | ChangeReduction v =>
      mkState (simType st) (stepId st) (mergeTargetId st) v
        (resourcesToAdd st) (newDuration st) (newCost st) (implCost st)
        (revenuePerUnit st) (loading st) (error st)
  | ChangeResources v =>
      mkState (simType st) (stepId st) (mergeTargetId st) (reductionPercent st)
        v (newDuration st) (newCost st) (implCost st)
        (revenuePerUnit st) (loading st) (error st)
  | ChangeNewDuration v =>
      mkState (simType st) (stepId st) (mergeTargetId st) (reductionPercent st)
        (resourcesToAdd st) v (newCost st) (implCost st)
        (revenuePerUnit st) (loading st) (error st)
  | ChangeNewCost v =>
      mkState (simType st) (stepId st) (mergeTargetId st) (reductionPercent st)
        (resourcesToAdd st) (newDuration st) v (implCost st)
        (revenuePerUnit st) (loading st) (error st)
  | ChangeMergeTarget v =>
      mkState (simType st) (stepId st) v (reductionPercent st)
        (resourcesToAdd st) (newDuration st) (newCost st) (implCost st)
        (revenuePerUnit st) (loading st) (error st)
  | ChangeImplCost v =>
      mkState (simType st) (stepId st) (mergeTargetId st) (reductionPercent st)
        (resourcesToAdd st) (newDuration st) (newCost st) v
        (revenuePerUnit st) (loading st) (error st)
  | ChangeRevenue v =>
      mkState (simType st) (stepId st) (mergeTargetId st) (reductionPercent st)
        (resourcesToAdd st) (newDuration st) (newCost st) (implCost st)
        v (loading st) (error st)
  end.

(* the control that emits the event is rendered in state [st] and, for a
   select, the value is the value of one of its options *)
Definition rendered (st : State) (ev : Event) : Prop :=
  match ev with
  | ClickType t => In t (map fst SIM_TYPES)
  | ChangeStep v => In v (ids (Process.steps process))
  | ChangeReduction _ => simType st = reduce_duration
  | ChangeResources _ => simType st = add_resource
  | ChangeNewDuration _ | ChangeNewCost _ => simType st = automate
  | ChangeMergeTarget v =>
      simType st = merge_steps /\ In v (ids (otherSteps st))
  | ChangeImplCost _ | ChangeRevenue _ => True
  end.

(* a session: each event is emitted by the form as rendered after the
   events before it *)
Fixpoint session (st : State) (evs : list Event) : Prop :=
  match evs with
  | [] => True
  | ev :: rest => rendered st ev /\ session (handle st ev) rest
  end.

Definition run (st : State) (evs : list Event) : State := fold_left handle evs st.
End Form.
End SimulationForm.

(* the two selections name steps, or are the default 0 of a missing step *)
Definition selectionOK (process : Process.t) (st : SimulationForm.State) : Prop :=
  (In (SimulationForm.stepId st) (ids (Process.steps process)) \/
   Process.steps process = [] /\ SimulationForm.stepId st = 0) /\
  (In (SimulationForm.mergeTargetId st) (ids (Process.steps process)) \/
   (length (Process.steps process) < 2)%nat /\ SimulationForm.mergeTargetId st = 0).

(** * Facts about [JsMap] *)

Module JsMapFacts.
Import JsMap.
Section Facts.
Context {V : Type}.
Implicit Types (m : JsMap.t V) (k : Z) (v : V).

Lemma get_set m k v k' :
  get (set k v m) k' = if k =? k' then Some v else get m k'.
Proof.
  induction m as [|[k0 v0] m IH]; simpl.
  - destruct (k =? k'); reflexivity.
  - destruct (k0 =? k) eqn:E0; simpl.
    + apply Z.eqb_eq in E0; subst k0.
      destruct (k =? k'); reflexivity.
    + rewrite IH. destruct (k0 =? k') eqn:E1; [|reflexivity].
      apply Z.eqb_eq in E1; subst k0. rewrite Z.eqb_sym, E0. reflexivity.
Qed.

Lemma get_set_eq m k v : get (set k v m) k = Some v.
Proof. rewrite get_set, Z.eqb_refl. reflexivity. Qed.

Lemma get_set_neq m k v k' : k <> k' -> get (set k v m) k' = get m k'.
Proof.
  intros H. rewrite get_set. apply Z.eqb_neq in H. rewrite H. reflexivity.
Qed.

Lemma get_None_iff m k : get m k = None <-> ~ In k (keys m).
Proof.
  induction m as [|[k0 v0] m IH]; simpl.
  - tauto.
  - destruct (k0 =? k) eqn:E.
    + apply Z.eqb_eq in E. split; [discriminate | tauto].
    + apply Z.eqb_neq in E. rewrite IH. tauto.
Qed.

Lemma get_Some_key m k v : get m k = Some v -> In k (keys m).
Proof.
  intros H. destruct (in_dec Z.eq_dec k (keys m)) as [Hi|Hn]; [exact Hi|].
  apply get_None_iff in Hn. congruence.
Qed.

Lemma get_Some_In m k v : get m k = Some v -> In (k, v) m.
Proof.
  induction m as [|[k0 v0] m IH]; simpl; [discriminate|].
  destruct (k0 =? k) eqn:E.
  - apply Z.eqb_eq in E. intros [= ->]. left. congruence.
  - auto.
Qed.

Lemma In_get m k v : NoDup (keys m) -> In (k, v) m -> get m k = Some v.
Proof.
  induction m as [|[k0 v0] m IH]; simpl; [tauto|].
  intros Hnd [H|H].
  - inversion H; subst. rewrite Z.eqb_refl. reflexivity.
  - inversion Hnd as [|? ? Hn Hnd']; subst.
    destruct (k0 =? k) eqn:E.
    + apply Z.eqb_eq in E; subst k0. exfalso. apply Hn.
      change (In (fst (k, v)) (map fst m)). apply in_map. exact H.
    + auto.
Qed.

Lemma keys_set_present m k v :
  get m k <> None -> keys (set k v m) = keys m.
Proof.
  induction m as [|[k0 v0] m IH]; simpl; [congruence|].
  destruct (k0 =? k) eqn:E; simpl; [reflexivity|].
  intros H. rewrite IH by exact H. reflexivity.
Qed.

Lemma keys_set_absent m k v :
  get m k = None -> keys (set k v m) = keys m ++ [k].
Proof.
  induction m as [|[k0 v0] m IH]; simpl; [reflexivity|].
  destruct (k0 =? k) eqn:E; simpl; [discriminate|].
  intros H. rewrite IH by exact H. reflexivity.
Qed.

Lemma NoDup_keys_set m k v : NoDup (keys m) -> NoDup (keys (set k v m)).
Proof.
  intros H. destruct (get m k) eqn:E.
  - rewrite keys_set_present by congruence. exact H.
  - rewrite keys_set_absent by exact E.
    apply NoDup_app; [exact H | constructor; [tauto | constructor] |].
    intros a Ha [<-|[]]. apply get_None_iff in E. contradiction.
Qed.

Lemma has_true_iff m k : has m k = true <-> In k (keys m).
Proof.
  unfold has. destruct (get m k) eqn:E.
  - split; [intros _; eapply get_Some_key; eauto | reflexivity].
  - apply get_None_iff in E. split; [discriminate | contradiction].
Qed.
End Facts.
End JsMapFacts.

(** * The maps built from the input *)

Lemma mem_In k l : mem k l = true <-> In k l.
Proof.
  unfold mem. rewrite existsb_exists. split.
  - intros [a [Ha E]]. apply Z.eqb_eq in E. subst. exact Ha.
  - intros H. exists k. split; [exact H | apply Z.eqb_refl].
Qed.

Lemma mem_false k l : mem k l = false <-> ~ In k l.
Proof.
  rewrite <- mem_In. destruct (mem k l); split; congruence.
Qed.

Lemma countZ_nonneg {A} (p : A -> bool) l : 0 <= countZ p l.
Proof. unfold countZ. lia. Qed.

Lemma countZ_cons {A} (p : A -> bool) a l :
  countZ p (a :: l) = (if p a then 1 else 0) + countZ p l.
Proof. unfold countZ. simpl. destruct (p a); simpl length; lia. Qed.

Lemma countZ_pos_iff {A} (p : A -> bool) l :
  0 < countZ p l <-> exists a, In a l /\ p a = true.
Proof.
  induction l as [|a l IH].
  - unfold countZ; simpl. split; [lia | intros [a [[] _]]].
  - rewrite countZ_cons. destruct (p a) eqn:E.
    + split; [intros _; exists a; simpl; auto | pose proof (countZ_nonneg p l); lia].
    + rewrite Z.add_0_l, IH. split.
      * intros [b [Hb Hp]]. exists b. simpl; auto.
      * intros [b [[->|Hb] Hp]]; [congruence | eauto].
Qed.

Lemma countZ_zero_iff {A} (p : A -> bool) l :
  countZ p l = 0 <-> forall a, In a l -> p a = false.
Proof.
  split.
  - intros H a Ha. destruct (p a) eqn:E; [|reflexivity].
    assert (0 < countZ p l) by (apply countZ_pos_iff; eauto). lia.
  - intros H. pose proof (countZ_nonneg p l) as Hn.
    destruct (Z.eq_dec (countZ p l) 0) as [E|E]; [exact E|].
    assert (Hp : 0 < countZ p l) by lia.
    apply countZ_pos_iff in Hp. destruct Hp as [a [Ha Hp]].
    rewrite (H a Ha) in Hp. discriminate.
Qed.

Lemma countZ_split {A} (p q r : A -> bool) l :
  (forall a, In a l ->
     (if p a then 1 else 0) = (if q a then 1 else 0) + (if r a then 1 else 0)) ->
  countZ p l = countZ q l + countZ r l.
Proof.
  induction l as [|a l IH]; intros H; [reflexivity|].
  rewrite !countZ_cons, IH by (intros; apply H; simpl; auto).
  rewrite (H a) by (simpl; auto). lia.
Qed.

Section BuildFacts.
Import JsMap JsMapFacts.

Lemma init_get steps : forall A D k,
  get (fst (fold_left initStep steps (A, D))) k
    = (if mem k (ids steps) then Some [] else get A k) /\
  get (snd (fold_left initStep steps (A, D))) k
    = (if mem k (ids steps) then Some 0 else get D k).
Proof.
  induction steps as [|s steps IH]; intros A D k; simpl; [tauto|].
  unfold initStep at 2 4; simpl.
  destruct (IH (set (ProcessStep.id s) [] A) (set (ProcessStep.id s) 0 D) k)
    as [-> ->].
  rewrite !get_set, (Z.eqb_sym k).
  destruct (ProcessStep.id s =? k); simpl; destruct (mem k (ids steps)); tauto.
Qed.

Lemma outs_cons d deps k :
  outs (d :: deps) k = if src d =? k then tgt d :: outs deps k else outs deps k.
Proof. unfold outs. simpl. destruct (src d =? k); reflexivity. Qed.

Lemma deps_get_adj deps : forall A D k,
  get (fst (fold_left addDep deps (A, D))) k
    = option_map (fun l => l ++ outs deps k) (get A k).
Proof.
  induction deps as [|d deps IH]; intros A D k; simpl.
  - destruct (get A k); simpl; [rewrite app_nil_r|]; reflexivity.
  - unfold addDep at 2; simpl. rewrite IH, outs_cons.
    destruct (get A (src d)) as [o|] eqn:E.
    + rewrite get_set. destruct (src d =? k) eqn:Ek.
      * apply Z.eqb_eq in Ek. subst k. rewrite E. simpl.
        rewrite <- app_assoc. reflexivity.
      * reflexivity.
    + destruct (src d =? k) eqn:Ek; [|reflexivity].
      apply Z.eqb_eq in Ek. subst k. rewrite E. reflexivity.
Qed.

Lemma indegree_not_target deps t :
  mem t (map tgt deps) = false -> indegree deps t = 0.
Proof.
  intros Et. apply countZ_zero_iff. intros d Hd.
  destruct (tgt d =? t) eqn:E; [|reflexivity].
  apply Z.eqb_eq in E. apply mem_false in Et. exfalso. apply Et.
  rewrite <- E. apply in_map. exact Hd.
Qed.

Lemma deps_get_deg deps : forall A D t,
  get (snd (fold_left addDep deps (A, D))) t
    = if mem t (map tgt deps)
      then Some ((get D t ?? 0) + indegree deps t)
      else get D t.
Proof.
  induction deps as [|d deps IH]; intros A D t; [reflexivity|].
  cbn [fold_left map mem existsb]. unfold addDep at 2. cbn [fst snd].
  rewrite IH, get_set. fold (mem t (map tgt deps)).
  unfold indegree at 2. rewrite countZ_cons. fold (indegree deps t).
  rewrite (Z.eqb_sym t).
  destruct (tgt d =? t) eqn:E; cbn [orb orElse].
  - apply Z.eqb_eq in E. subst t.
    destruct (mem (tgt d) (map tgt deps)) eqn:Em; f_equal; [lia|].
    rewrite (indegree_not_target _ _ Em). lia.
  - destruct (mem t (map tgt deps)); f_equal; lia.
Qed.

Lemma adjOut_get steps deps k :
  get (fst (buildMaps steps deps)) k
    = if mem k (ids steps) then Some (outs deps k) else None.
Proof.
  unfold buildMaps.
  rewrite (surjective_pairing (fold_left initStep steps (empty, empty))).
  rewrite deps_get_adj.
  destruct (init_get steps empty empty k) as [-> _].
  destruct (mem k (ids steps)); reflexivity.
Qed.

Lemma inDeg0_get steps deps t :
  get (snd (buildMaps steps deps)) t
    = if mem t (ids steps) || mem t (map tgt deps)
      then Some (indegree deps t) else None.
Proof.
  unfold buildMaps.
  rewrite (surjective_pairing (fold_left initStep steps (empty, empty))).
  rewrite deps_get_deg.
  destruct (init_get steps empty empty t) as [_ ->].
  destruct (mem t (map tgt deps)) eqn:Et, (mem t (ids steps)); simpl;
    try reflexivity.
  f_equal. symmetry. apply indegree_not_target. exact Et.
Qed.

Lemma fold_initStep_NoDup steps : forall A D,
  NoDup (keys D) -> NoDup (keys (snd (fold_left initStep steps (A, D)))).
Proof.
  induction steps as [|s steps IH]; intros A D H; simpl; [exact H|].
  unfold initStep at 2; simpl. apply IH. apply NoDup_keys_set. exact H.
Qed.

Lemma fold_addDep_NoDup deps : forall A D,
  NoDup (keys D) -> NoDup (keys (snd (fold_left addDep deps (A, D)))).
Proof.
  induction deps as [|d deps IH]; intros A D H; simpl; [exact H|].
  unfold addDep at 2; simpl. apply IH. apply NoDup_keys_set. exact H.
Qed.

Lemma inDeg0_NoDup steps deps : NoDup (keys (snd (buildMaps steps deps))).
Proof.
  unfold buildMaps.
  rewrite (surjective_pairing (fold_left initStep steps (empty, empty))).
  apply fold_addDep_NoDup, fold_initStep_NoDup. constructor.
Qed.
End BuildFacts.

(** * The inner loop: relaxing the out-edges of one node *)

Section RelaxFacts.
Import JsMap JsMapFacts.

Lemma occ_cons t n l : occ t (n :: l) = (if t =? n then 1 else 0) + occ t l.
Proof. apply countZ_cons. Qed.

Lemma occ_not_mem t l : mem t l = false -> occ t l = 0.
Proof.
  intros H. apply countZ_zero_iff. intros a Ha.
  destruct (t =? a) eqn:E; [|reflexivity].
  apply Z.eqb_eq in E. subst a. apply mem_false in H. contradiction.
Qed.

Lemma occ_pos_iff t l : 0 < occ t l <-> In t l.
Proof.
  unfold occ. rewrite countZ_pos_iff. split.
  - intros [a [Ha E]]. apply Z.eqb_eq in E. subst. exact Ha.
  - intros H. exists t. split; [exact H | apply Z.eqb_refl].
Qed.

Lemma mem_cons t n l : mem t (n :: l) = (t =? n) || mem t l.
Proof. reflexivity. Qed.

Variable lvl : Z.

Lemma relax_inDeg st n t :
  get (inDeg (relax lvl st n)) t
    = if n =? t then Some ((get (inDeg st) n ?? 1) - 1) else get (inDeg st) t.
Proof. unfold relax; cbn [inDeg]. apply get_set. Qed.

Lemma relax_level st n t :
  get (level (relax lvl st n)) t
    = if n =? t then Some (Z.max (get (level st) n ?? 0) (lvl + 1))
      else get (level st) t.
Proof. unfold relax; cbn [level]. apply get_set. Qed.

Lemma relax_queue st n :
  queue (relax lvl st n)
    = if (get (inDeg st) n ?? 1) - 1 =? 0 then queue st ++ [n] else queue st.
Proof.
  unfold relax; cbn [queue]. rewrite get_set_eq.
  destruct ((get (inDeg st) n ?? 1) - 1) as [|p|p]; reflexivity.
Qed.

Lemma fold_relax_head l : forall st,
  head (fold_left (relax lvl) l st) = head st.
Proof. induction l as [|n l IH]; intros st; simpl; [|rewrite IH]; reflexivity. Qed.

Lemma fold_relax_levelGroups l : forall st,
  levelGroups (fold_left (relax lvl) l st) = levelGroups st.
Proof. induction l as [|n l IH]; intros st; simpl; [|rewrite IH]; reflexivity. Qed.

Lemma fold_relax_queue l : forall st,
  exists newly, queue (fold_left (relax lvl) l st) = queue st ++ newly.
Proof.
  induction l as [|n l IH]; intros st; simpl.
  - exists []. rewrite app_nil_r. reflexivity.
  - destruct (IH (relax lvl st n)) as [nw ->]. rewrite relax_queue.
    destruct (_ =? 0).
    + exists (n :: nw). rewrite <- app_assoc. reflexivity.
    + exists nw. reflexivity.
Qed.

Lemma fold_relax_inDeg l : forall st t,
  get (inDeg (fold_left (relax lvl) l st)) t
    = if mem t l then Some ((get (inDeg st) t ?? 1) - occ t l)
      else get (inDeg st) t.
Proof.
  induction l as [|n l IH]; intros st t; [reflexivity|].
  cbn [fold_left]. rewrite IH, relax_inDeg, mem_cons, occ_cons, (Z.eqb_sym t).
  destruct (n =? t) eqn:E; cbn [orb orElse].
  - apply Z.eqb_eq in E. subst n.
    destruct (mem t l) eqn:Em; f_equal; [lia|].
    rewrite (occ_not_mem _ _ Em). lia.
  - destruct (mem t l); f_equal; lia.
Qed.

Lemma fold_relax_level l : forall st t,
  get (level (fold_left (relax lvl) l st)) t
    = if mem t l then Some (Z.max (get (level st) t ?? 0) (lvl + 1))
      else get (level st) t.
Proof.
  induction l as [|n l IH]; intros st t; [reflexivity|].
  cbn [fold_left]. rewrite IH, relax_level, mem_cons, (Z.eqb_sym t).
  destruct (n =? t) eqn:E; cbn [orb orElse].
  - apply Z.eqb_eq in E. subst n.
    destruct (mem t l); f_equal; lia.
  - reflexivity.
Qed.

Lemma relax_queueOK st n :
  get (inDeg st) n <> None -> queueOK st -> queueOK (relax lvl st n).
Proof.
  intros Hk (Hnd & Hq & Hkeys).
  destruct (get (inDeg st) n) as [d|] eqn:En; [clear Hk|congruence].
  pose proof (Hq n d En) as Hn.
  unfold queueOK. rewrite relax_queue, En. cbn [orElse].
  split; [|split].
  - destruct (d - 1 =? 0) eqn:E; [|exact Hnd].
    apply Z.eqb_eq in E.
    apply NoDup_app; [exact Hnd | constructor; [tauto | constructor] |].
    intros a Ha [<-|[]]. apply Hn in Ha. lia.
  - intros t d0. rewrite relax_inDeg, En. cbn [orElse].
    destruct (n =? t) eqn:Et.
    + apply Z.eqb_eq in Et. subst t. intros [= <-].
      destruct (d - 1 =? 0) eqn:E.
      * apply Z.eqb_eq in E. split; [lia|].
        intros _. apply in_or_app. right. left. reflexivity.
      * apply Z.eqb_neq in E. rewrite Hn. lia.
    + apply Z.eqb_neq in Et. intros Ht. rewrite <- (Hq t d0 Ht).
      destruct (d - 1 =? 0); [|tauto].
      rewrite in_app_iff. simpl. intuition congruence.
  - intros t Ht. rewrite relax_inDeg.
    destruct (n =? t) eqn:Et; [discriminate|].
    apply Hkeys. destruct (d - 1 =? 0); [|exact Ht].
    apply in_app_or in Ht. destruct Ht as [Ht|[Ht|[]]]; [exact Ht|].
    apply Z.eqb_neq in Et. congruence.
Qed.

Lemma relax_keys st n t :
  get (inDeg st) t <> None -> get (inDeg (relax lvl st n)) t <> None.
Proof. rewrite relax_inDeg. destruct (n =? t); congruence. Qed.

Lemma fold_relax_queueOK l : forall st,
  (forall t, In t l -> get (inDeg st) t <> None) ->
  queueOK st -> queueOK (fold_left (relax lvl) l st).
Proof.
  induction l as [|n l IH]; intros st Hl H; [exact H|].
  cbn [fold_left]. apply IH.
  - intros t Ht. apply relax_keys, Hl. right. exact Ht.
  - apply relax_queueOK; [apply Hl; left; reflexivity | exact H].
Qed.

Lemma posCount_set m k d d' :
  get m k = Some d ->
  (posCount (set k d' m) + (if (0 <? d)%Z then 1 else 0)
   = posCount m + (if (0 <? d')%Z then 1 else 0))%nat.
Proof.
  unfold posCount.
  induction m as [|[k0 d0] m IH]; simpl; [discriminate|].
  destruct (k0 =? k) eqn:E.
  - intros [= ->]. simpl. destruct (0 <? d), (0 <? d'); simpl; lia.
  - intros H. simpl. specialize (IH H).
    destruct (0 <? d0); simpl; lia.
Qed.

(* Potential that bounds the number of iterations still to come. *)
Lemma relax_potential st n :
  get (inDeg st) n <> None ->
  (length (queue (relax lvl st n)) + posCount (inDeg (relax lvl st n))
   <= length (queue st) + posCount (inDeg st))%nat.
Proof.
  intros Hk. destruct (get (inDeg st) n) as [d|] eqn:En; [clear Hk|congruence].
  rewrite relax_queue, En. cbn [orElse].
  unfold relax; cbn [inDeg]. rewrite En. cbn [orElse].
  pose proof (posCount_set (inDeg st) n d (d - 1) En) as Hp.
  destruct (d - 1 =? 0) eqn:E.
  - apply Z.eqb_eq in E. rewrite length_app. simpl.
    replace (0 <? d) with true in Hp by (symmetry; apply Z.ltb_lt; lia).
    replace (0 <? d - 1) with false in Hp by (symmetry; apply Z.ltb_ge; lia).
    lia.
  - destruct (0 <? d) eqn:E1, (0 <? d - 1) eqn:E2; lia.
Qed.

Lemma fold_relax_potential l : forall st,
  (forall t, In t l -> get (inDeg st) t <> None) ->
  (length (queue (fold_left (relax lvl) l st))
     + posCount (inDeg (fold_left (relax lvl) l st))
   <= length (queue st) + posCount (inDeg st))%nat.
Proof.
  induction l as [|n l IH]; intros st Hl; [simpl; lia|].
  cbn [fold_left]. etransitivity.
  - apply IH. intros t Ht. apply relax_keys, Hl. right. exact Ht.
  - apply relax_potential, Hl. left. reflexivity.
Qed.
End RelaxFacts.

(** * List facts used by the traversal *)

Section ListFacts.
Context {A : Type}.

Lemma in_firstn (n : nat) (l : list A) a : In a (firstn n l) -> In a l.
Proof.
  intros H. rewrite <- (firstn_skipn n l). apply in_or_app. left. exact H.
Qed.

Lemma firstn_succ_nth (d : A) : forall (n : nat) (l : list A),
  (n < length l)%nat -> firstn (S n) l = firstn n l ++ [nth n l d].
Proof.
  induction n as [|n IH]; intros [|a l] H; simpl in *; try lia.
  - reflexivity.
  - rewrite <- IH by lia. reflexivity.
Qed.

Lemma nth_not_in_firstn (d : A) : forall (n : nat) (l : list A),
  NoDup l -> (n < length l)%nat -> ~ In (nth n l d) (firstn n l).
Proof.
  induction n as [|n IH]; intros [|a l] Hnd H; simpl in *; try lia.
  inversion Hnd as [|? ? Ha Hl]; subst. intros [E|Hin].
  - apply Ha. rewrite E. apply nth_In. lia.
  - apply (IH l Hl); [lia | exact Hin].
Qed.

Lemma firstn_app_left (n : nat) (l l' : list A) :
  (n <= length l)%nat -> firstn n (l ++ l') = firstn n l.
Proof.
  intros H. rewrite firstn_app.
  replace (n - length l)%nat with O by lia.
  rewrite firstn_0, app_nil_r. reflexivity.
Qed.

End ListFacts.

(** * The traversal invariant *)

Section InvFacts.
Import JsMap JsMapFacts.
Variable steps : list ProcessStep.t.
Variable deps : list Dependency.t.

Lemma ext_nonneg t : 0 <= ext steps deps t.
Proof. apply countZ_nonneg. Qed.

Lemma pend_nonneg P t : 0 <= pend steps deps P t.
Proof. apply countZ_nonneg. Qed.

Lemma indegree_split t :
  indegree deps t = ext steps deps t + pend steps deps [] t.
Proof.
  apply countZ_split. intros d _. simpl.
  destruct (tgt d =? t), (mem (src d) (ids steps)); reflexivity.
Qed.

Lemma mem_app k l1 l2 : mem k (l1 ++ l2) = mem k l1 || mem k l2.
Proof. unfold mem. apply existsb_app. Qed.

Lemma occ_outs t k :
  occ t (outs deps k) = countZ (fun d => (src d =? k) && (tgt d =? t)) deps.
Proof.
  unfold occ, outs. induction deps as [|d l IH]; [reflexivity|].
  rewrite countZ_cons. simpl. destruct (src d =? k); simpl.
  - rewrite countZ_cons, IH. rewrite (Z.eqb_sym t). reflexivity.
  - rewrite IH. reflexivity.
Qed.

(* Dequeuing [k] moves its out-edges from "pending" to "processed". *)
Lemma pend_snoc P k t :
  ~ In k P ->
  pend steps deps (P ++ [k]) t
    = pend steps deps P t
      - occ t (if mem k (ids steps) then outs deps k else []).
Proof.
  intros Hk. apply mem_false in Hk.
  assert (E : occ t (if mem k (ids steps) then outs deps k else [])
              = countZ (fun d => mem k (ids steps) && (src d =? k) && (tgt d =? t)) deps).
  { destruct (mem k (ids steps)).
    - rewrite occ_outs. reflexivity.
    - symmetry. apply countZ_zero_iff. reflexivity. }
  rewrite E. clear E.
  enough (pend steps deps P t
          = pend steps deps (P ++ [k]) t
            + countZ (fun d => mem k (ids steps) && (src d =? k) && (tgt d =? t)) deps)
    by lia.
  apply countZ_split. intros d _. rewrite mem_app. simpl. rewrite orb_false_r.
  destruct (src d =? k) eqn:Es.
  - apply Z.eqb_eq in Es. rewrite Es, Hk.
    destruct (tgt d =? t), (mem k (ids steps)); reflexivity.
  - destruct (tgt d =? t), (mem (src d) (ids steps)), (mem (src d) P),
      (mem k (ids steps)); reflexivity.
Qed.

Lemma in_outs t k : In t (outs deps k) <-> exists d, In d deps /\ src d = k /\ tgt d = t.
Proof.
  unfold outs. rewrite in_map_iff. split.
  - intros [d [Ht Hd]]. apply filter_In in Hd. destruct Hd as [Hd E].
    apply Z.eqb_eq in E. eauto.
  - intros [d [Hd [Hs Ht]]]. exists d. split; [exact Ht|].
    apply filter_In. split; [exact Hd | apply Z.eqb_eq; exact Hs].
Qed.

Lemma isKey_target d : In d deps -> isKey steps deps (tgt d) = true.
Proof.
  intros Hd. unfold isKey. apply orb_true_iff. right.
  apply mem_In. apply in_map. exact Hd.
Qed.

Section OneState.
Variable st : LoopState.
Hypothesis HI : Inv steps deps st.

Lemma queue_counter_zero t :
  In t (queue st) ->
  isKey steps deps t = true /\ ext steps deps t = 0 /\
  pend steps deps (proc st) t = 0.
Proof.
  intros Ht. destruct (inv_queue _ _ _ HI) as (_ & Hq & Hk).
  pose proof (Hk t Ht) as Hkey. pose proof (inv_deg _ _ _ HI t) as Hd.
  destruct (isKey steps deps t); [|congruence].
  apply (Hq _ _ Hd) in Ht.
  pose proof (ext_nonneg t). pose proof (pend_nonneg (proc st) t).
  repeat split; lia.
Qed.

Lemma proc_in_queue t : In t (proc st) -> In t (queue st).
Proof. unfold proc. apply in_firstn. Qed.

(* every edge into a queued identifier comes from a dequeued node *)
Lemma queue_preds_done d :
  In d deps -> In (tgt d) (queue st) ->
  In (src d) (ids steps) /\ In (src d) (proc st).
Proof.
  intros Hd Ht. destruct (queue_counter_zero _ Ht) as (_ & He & Hp).
  unfold ext in He. rewrite countZ_zero_iff in He. specialize (He d Hd).
  unfold pend in Hp. rewrite countZ_zero_iff in Hp. specialize (Hp d Hd).
  simpl in He, Hp. rewrite Z.eqb_refl in He, Hp. simpl in He, Hp.
  apply negb_false_iff in He. rewrite He in Hp. simpl in Hp.
  apply negb_false_iff in Hp. split; apply mem_In; assumption.
Qed.

Lemma lev_nonneg t : 0 <= lev st t.
Proof.
  unfold lev. destruct (get (level st) t) as [l|] eqn:E; simpl; [|lia].
  destruct (inv_lvl_wit _ _ _ HI t l E). lia.
Qed.

Lemma group_member_proc k g i :
  get (levelGroups st) k = Some g -> In i g -> In i (proc st).
Proof.
  intros Hg Hi. apply (Permutation_in _ (inv_grp_perm _ _ _ HI)).
  apply in_concat. exists g. split; [|exact Hi].
  apply get_Some_In in Hg. unfold values.
  change g with (snd (k, g)). apply in_map. exact Hg.
Qed.
End OneState.
End InvFacts.

Lemma concat_values_set_snoc (m : JsMap.t (list Z)) k a :
  Permutation
    (concat (JsMap.values (JsMap.set k ((JsMap.get m k ?? []) ++ [a]) m)))
    (concat (JsMap.values m) ++ [a]).
Proof.
  induction m as [|[k0 g0] m IH]; simpl.
  - apply Permutation_refl.
  - destruct (k0 =? k) eqn:E; simpl.
    + rewrite <- !app_assoc. apply Permutation_app_head, Permutation_app_comm.
    + rewrite <- app_assoc. apply Permutation_app_head. exact IH.
Qed.

(** * One iteration of the while loop keeps the invariant *)

Section StepFacts.
Import JsMap JsMapFacts.
Variable steps : list ProcessStep.t.
Variable deps : list Dependency.t.
Variable st : LoopState.
Hypothesis HI : Inv steps deps st.
Hypothesis Hlt : (head st < length (queue st))%nat.

Let adjOut := fst (buildMaps steps deps).
Let cur := nth (head st) (queue st) 0.
Let lvl := lev st cur.
Let l := if mem cur (ids steps) then outs deps cur else [].
Let st' := step adjOut st.

Lemma step_unfold :
  st' = fold_left (relax lvl) l
          (mkLoopState (queue st) (S (head st)) (inDeg st) (level st)
             (set lvl ((get (levelGroups st) lvl ?? []) ++ [cur]) (levelGroups st))).
Proof.
  unfold st', step, adjOut. rewrite adjOut_get.
  fold cur. fold (lev st cur). fold lvl. unfold l.
  destruct (mem cur (ids steps)); reflexivity.
Qed.

Lemma step_head : head st' = S (head st).
Proof. rewrite step_unfold, fold_relax_head. reflexivity. Qed.

Lemma step_queue : exists newly, queue st' = queue st ++ newly.
Proof.
  rewrite step_unfold.
  match goal with |- context [fold_left _ _ ?s] =>
    destruct (fold_relax_queue lvl l s) as [nw E] end.
  exists nw. exact E.
Qed.

Lemma step_levelGroups :
  levelGroups st'
    = set lvl ((get (levelGroups st) lvl ?? []) ++ [cur]) (levelGroups st).
Proof. rewrite step_unfold, fold_relax_levelGroups. reflexivity. Qed.

Lemma cur_in_queue : In cur (queue st).
Proof. apply nth_In. exact Hlt. Qed.

Lemma cur_not_proc : ~ In cur (proc st).
Proof.
  apply nth_not_in_firstn; [|exact Hlt].
  destruct (inv_queue _ _ _ HI) as [H _]. exact H.
Qed.

Lemma step_proc : proc st' = proc st ++ [cur].
Proof.
  unfold proc. rewrite step_head. destruct step_queue as [nw ->].
  rewrite firstn_app_left by lia.
  apply firstn_succ_nth. exact Hlt.
Qed.

Lemma in_l t :
  In t l <-> In cur (ids steps) /\ exists d, In d deps /\ src d = cur /\ tgt d = t.
Proof.
  unfold l. destruct (mem cur (ids steps)) eqn:E.
  - apply mem_In in E. rewrite in_outs. tauto.
  - apply mem_false in E. simpl. tauto.
Qed.

Lemma l_keys t : In t l -> isKey steps deps t = true.
Proof.
  intros H. apply in_l in H. destruct H as [_ [d [Hd [_ <-]]]].
  apply isKey_target. exact Hd.
Qed.

Lemma step_pend t :
  pend steps deps (proc st') t = pend steps deps (proc st) t - occ t l.
Proof. rewrite step_proc. apply pend_snoc, cur_not_proc. Qed.

(* every identifier about to be relaxed owns a counter, so the default of
   [inDeg.get(next) ?? 1] is never taken *)
Lemma relaxed_counter_defined t : In t l -> get (inDeg st) t <> None.
Proof.
  intros Ht. rewrite (inv_deg _ _ _ HI), (l_keys _ Ht). discriminate.
Qed.

(* nothing already queued is relaxed again *)
Lemma queued_not_relaxed u : In u (queue st) -> mem u l = false.
Proof.
  intros Hu. destruct (queue_counter_zero _ _ _ HI _ Hu) as (_ & _ & Hp).
  pose proof (step_pend u) as E. pose proof (pend_nonneg steps deps (proc st') u).
  destruct (mem u l) eqn:Em; [|reflexivity].
  apply mem_In, occ_pos_iff in Em. lia.
Qed.

Lemma step_level t :
  get (level st') t
    = if mem t l then Some (Z.max (lev st t) (lvl + 1)) else get (level st) t.
Proof. rewrite step_unfold, fold_relax_level. reflexivity. Qed.

Lemma step_lev t :
  lev st' t = if mem t l then Z.max (lev st t) (lvl + 1) else lev st t.
Proof.
  unfold lev at 1. rewrite step_level. destruct (mem t l); reflexivity.
Qed.

Lemma step_lev_mono t : lev st t <= lev st' t.
Proof. rewrite step_lev. destruct (mem t l); lia. Qed.

Lemma step_lev_queued u : In u (queue st) -> lev st' u = lev st u.
Proof. intros Hu. rewrite step_lev, (queued_not_relaxed _ Hu). reflexivity. Qed.

Lemma step_inDeg t :
  get (inDeg st') t
    = if isKey steps deps t
      then Some (ext steps deps t + pend steps deps (proc st') t) else None.
Proof.
  rewrite step_pend, step_unfold, fold_relax_inDeg. cbn [inDeg].
  rewrite (inv_deg _ _ _ HI).
  destruct (mem t l) eqn:Em.
  - apply mem_In, l_keys in Em. rewrite Em. cbn [orElse]. f_equal. lia.
  - rewrite (occ_not_mem _ _ Em).
    destruct (isKey steps deps t); [f_equal; lia | reflexivity].
Qed.

Lemma step_queueOK : queueOK st'.
Proof.
  rewrite step_unfold. apply fold_relax_queueOK.
  - intros t Ht. cbn [inDeg]. rewrite (inv_deg _ _ _ HI), (l_keys _ Ht).
    discriminate.
  - exact (inv_queue _ _ _ HI).
Qed.

Lemma step_potential :
  (length (queue st') + posCount (inDeg st')
   <= length (queue st) + posCount (inDeg st))%nat.
Proof.
  rewrite step_unfold.
  match goal with |- context [fold_left _ _ ?s] =>
    apply (fold_relax_potential lvl l s) end.
  intros t Ht. cbn [inDeg]. rewrite (inv_deg _ _ _ HI), (l_keys _ Ht).
  discriminate.
Qed.

Theorem step_inv : Inv steps deps st'.
Proof.
  assert (Hsub : forall u, In u (proc st) -> In u (queue st))
    by (intro u; apply proc_in_queue).
  constructor.
  - rewrite step_head. destruct step_queue as [nw ->].
    rewrite length_app. lia.
  - exact step_queueOK.
  - exact step_inDeg.
  - (* processed edges point to a strictly larger level *)
    intros d Hd Hs Hp. rewrite step_proc in Hp.
    apply in_app_or in Hp. destruct Hp as [Hp|[Hp|[]]].
    + rewrite (step_lev_queued _ (Hsub _ Hp)).
      pose proof (inv_lvl_edge _ _ _ HI d Hd Hs Hp).
      pose proof (step_lev_mono (tgt d)). lia.
    + rewrite <- Hp, (step_lev_queued _ cur_in_queue).
      assert (Ht : In (tgt d) l) by (apply in_l; rewrite Hp; eauto).
      apply mem_In in Ht. rewrite step_lev, Ht. fold lvl. lia.
  - (* every recorded level is reached through a processed edge *)
    intros t lt. rewrite step_level.
    destruct (mem t l) eqn:Em.
    + intros [= <-]. pose proof (lev_nonneg _ _ _ HI cur) as Hc. fold lvl in Hc.
      split; [lia|].
      destruct (Z.max_spec (lev st t) (lvl + 1)) as [[Hlt' ->]|[Hge ->]].
      * apply mem_In, in_l in Em. destruct Em as [Hc' [d [Hd [Hs Htd]]]].
        exists d. rewrite Hs, step_proc, (step_lev_queued _ cur_in_queue).
        repeat split; auto. apply in_or_app. right. left. reflexivity.
      * unfold lev in Hge.
        destruct (get (level st) t) as [l0|] eqn:El; cbn [orElse] in Hge; [|lia].
        destruct (inv_lvl_wit _ _ _ HI t l0 El) as (_ & d & Hd & Ht & Hs & Hp & E).
        exists d. rewrite step_proc, (step_lev_queued _ (Hsub _ Hp)).
        repeat split; auto.
        -- apply in_or_app. left. exact Hp.
        -- unfold lev at 1. rewrite El. exact E.
    + intros El.
      destruct (inv_lvl_wit _ _ _ HI t lt El) as (H1 & d & Hd & Ht & Hs & Hp & E).
      split; [exact H1|].
      exists d. rewrite step_proc, (step_lev_queued _ (Hsub _ Hp)).
      repeat split; auto. apply in_or_app. left. exact Hp.
  - (* no recorded level: no processed edge comes in *)
    intros t. rewrite step_level.
    destruct (mem t l) eqn:Em; [discriminate|].
    intros El d Hd Ht Hs Hp. rewrite step_proc in Hp.
    apply in_app_or in Hp. destruct Hp as [Hp|[Hp|[]]].
    + exact (inv_lvl_none _ _ _ HI t El d Hd Ht Hs Hp).
    + apply mem_false in Em. apply Em. apply in_l.
      split; [rewrite Hp; exact Hs | eauto].
  - rewrite step_levelGroups, step_proc.
    eapply Permutation_trans; [apply concat_values_set_snoc|].
    apply Permutation_app_tail. exact (inv_grp_perm _ _ _ HI).
  - rewrite step_levelGroups. apply NoDup_keys_set.
    exact (inv_grp_keys _ _ _ HI).
  - intros k g i. rewrite step_levelGroups, get_set.
    destruct (lvl =? k) eqn:Ek.
    + apply Z.eqb_eq in Ek. subst k. intros [= <-] Hi.
      apply in_app_or in Hi. destruct Hi as [Hi|[Hi|[]]].
      * destruct (get (levelGroups st) lvl) as [g0|] eqn:Eg; [|destruct Hi].
        cbn [orElse] in Hi.
        rewrite (step_lev_queued i).
        -- exact (inv_grp_lvl _ _ _ HI lvl g0 i Eg Hi).
        -- apply Hsub. exact (group_member_proc _ _ _ HI _ _ _ Eg Hi).
      * subst i. apply (step_lev_queued _ cur_in_queue).
    + intros Eg Hi. rewrite (step_lev_queued i).
      * exact (inv_grp_lvl _ _ _ HI k g i Eg Hi).
      * apply Hsub. exact (group_member_proc _ _ _ HI _ _ _ Eg Hi).
Qed.
End StepFacts.

(** * The while loop: initial state, totality, final state *)

Section LoopFacts.
Import JsMap JsMapFacts.
Variable steps : list ProcessStep.t.
Variable deps : list Dependency.t.

Lemma in_seedQueue (m : JsMap.t Z) t :
  In t (seedQueue m) <-> In (t, 0) m.
Proof.
  unfold seedQueue. rewrite in_map_iff. split.
  - intros [[k d] [E H]]. apply filter_In in H. destruct H as [H Hd].
    simpl in *. apply Z.eqb_eq in Hd. subst. exact H.
  - intros H. exists (t, 0). split; [reflexivity|].
    apply filter_In. split; [exact H | reflexivity].
Qed.

Lemma seedQueue_NoDup (m : JsMap.t Z) : NoDup (keys m) -> NoDup (seedQueue m).
Proof.
  unfold seedQueue, keys. induction m as [|[k d] m IH]; simpl; intros H.
  - constructor.
  - inversion H as [|? ? Hk Hm]; subst.
    destruct (d =? 0); simpl; [|auto].
    constructor; [|auto].
    intros Hin. apply Hk. apply in_map_iff in Hin.
    destruct Hin as [e [E He]]. apply filter_In in He.
    rewrite <- E. apply in_map. tauto.
Qed.

Lemma seed_potential (m : JsMap.t Z) :
  (length (seedQueue m) + posCount m <= length m)%nat.
Proof.
  unfold seedQueue, posCount. rewrite length_map.
  induction m as [|[k d] m IH]; simpl; [lia|].
  destruct (d =? 0) eqn:E0, (0 <? d) eqn:E1; simpl; lia.
Qed.

Lemma length_set {V} (m : JsMap.t V) k v :
  (length (set k v m) <= S (length m))%nat.
Proof.
  induction m as [|[k0 v0] m IH]; simpl; [lia|].
  destruct (k0 =? k); simpl; lia.
Qed.

Lemma length_fold_initStep l : forall A D,
  (length (snd (fold_left initStep l (A, D))) <= length l + length D)%nat.
Proof.
  induction l as [|s l IH]; intros A D; simpl; [lia|].
  unfold initStep at 2; simpl. etransitivity; [apply IH|].
  pose proof (length_set D (ProcessStep.id s) 0). lia.
Qed.

Lemma length_fold_addDep l : forall A D,
  (length (snd (fold_left addDep l (A, D))) <= length l + length D)%nat.
Proof.
  induction l as [|d l IH]; intros A D; simpl; [lia|].
  unfold addDep at 2; simpl. etransitivity; [apply IH|].
  pose proof (length_set D (tgt d) ((get D (tgt d) ?? 0) + 1)). lia.
Qed.

Lemma length_inDeg0 :
  (length (snd (buildMaps steps deps)) <= length steps + length deps)%nat.
Proof.
  unfold buildMaps.
  rewrite (surjective_pairing (fold_left initStep steps (empty, empty))).
  etransitivity; [apply length_fold_addDep|].
  pose proof (length_fold_initStep steps (@empty (list Z)) (@empty Z)).
  simpl in *. lia.
Qed.

Lemma indegree_nonneg t : 0 <= indegree deps t.
Proof. apply countZ_nonneg. Qed.

Theorem init_inv : Inv steps deps (initState (snd (buildMaps steps deps))).
Proof.
  pose proof (inDeg0_NoDup steps deps) as Hnd.
  constructor; unfold initState, proc, lev; cbn [head queue inDeg level levelGroups firstn].
  - lia.
  - split; [|split]; cbn [queue inDeg].
    + apply seedQueue_NoDup. exact Hnd.
    + intros t d Hd. rewrite in_seedQueue. split.
      * intros H. apply (In_get _ _ _ Hnd) in H. assert (d = 0) by congruence. lia.
      * intros Hle. apply get_Some_In. rewrite Hd. f_equal.
        rewrite inDeg0_get in Hd.
        destruct (_ || _); [|discriminate].
        injection Hd as Hd. pose proof (indegree_nonneg t). lia.
    + intros t Ht. apply in_seedQueue in Ht.
      apply (In_get _ _ _ Hnd) in Ht. congruence.
  - intros t. rewrite inDeg0_get. unfold isKey.
    rewrite <- indegree_split. reflexivity.
  - intros d _ _ [].
  - discriminate.
  - intros t _ d _ _ _ [].
  - apply Permutation_refl.
  - constructor.
  - discriminate.
Qed.

Lemma while_total : forall fuel st,
  Inv steps deps st ->
  (length (queue st) + posCount (inDeg st) - head st <= fuel)%nat ->
  exists st', while fuel (fst (buildMaps steps deps)) st = Some st' /\
              Inv steps deps st' /\ head st' = length (queue st').
Proof.
  induction fuel as [|fuel IH]; intros st HI Hm; simpl;
    destruct (head st <? length (queue st))%nat eqn:E.
  - apply Nat.ltb_lt in E. lia.
  - apply Nat.ltb_ge in E. pose proof (inv_head _ _ _ HI).
    exists st. split; [reflexivity | split; [exact HI | lia]].
  - apply Nat.ltb_lt in E. apply IH.
    + apply step_inv; assumption.
    + pose proof (step_potential _ _ _ HI).
      pose proof (step_head steps deps st).
      set (st' := step (fst (buildMaps steps deps)) st) in *. lia.
  - apply Nat.ltb_ge in E. pose proof (inv_head _ _ _ HI).
    exists st. split; [reflexivity | split; [exact HI | lia]].
Qed.

Lemma while_fuel_mono adjOut : forall fuel fuel' st r,
  while fuel adjOut st = Some r -> (fuel <= fuel')%nat ->
  while fuel' adjOut st = Some r.
Proof.
  induction fuel as [|fuel IH]; intros [|fuel'] st r; simpl;
    destruct (head st <? length (queue st))%nat; try discriminate; try lia; auto.
  intros H Hle. apply (IH fuel'); [exact H | lia].
Qed.

(* The traversal always finishes within the budget [buildLayout] gives it. *)
Theorem traverse_total :
  exists st, traverse (length steps + length deps) steps deps = Some st /\
             Inv steps deps st /\ head st = length (queue st).
Proof.
  unfold traverse. apply while_total; [apply init_inv|].
  unfold initState; cbn [queue inDeg head].
  pose proof (seed_potential (snd (buildMaps steps deps))).
  pose proof length_inDeg0. lia.
Qed.

Lemma traverse_fuel_mono fuel fuel' r :
  traverse fuel steps deps = Some r -> (fuel <= fuel')%nat ->
  traverse fuel' steps deps = Some r.
Proof. unfold traverse. apply while_fuel_mono. Qed.
End LoopFacts.

(** * Placement of the level buckets *)

Section PlaceFacts.
Import JsMap JsMapFacts.

Lemma totalH_even (n : Z) : (n * (NODE_H + GAP_Y) - GAP_Y) mod 2 = 0.
Proof.
  unfold NODE_H, GAP_Y.
  replace (n * (100 + 60) - 60) with ((n * 80 - 30) * 2) by lia.
  apply Z_mod_mult.
Qed.

Lemma totalH_half (n : Z) : (n * (NODE_H + GAP_Y) - GAP_Y) / 2 = n * 80 - 30.
Proof.
  unfold NODE_H, GAP_Y.
  replace (n * (100 + 60) - 60) with ((n * 80 - 30) * 2) by lia.
  apply Z_div_mult. lia.
Qed.

Lemma forEachFrom_other lvl totalH group : forall i pos k,
  ~ In k group -> get (forEachFrom lvl totalH group i pos) k = get pos k.
Proof.
  induction group as [|a g IH]; intros i pos k Hk; simpl; [reflexivity|].
  rewrite IH by (simpl in Hk; tauto).
  apply get_set_neq. simpl in Hk. tauto.
Qed.

Lemma forEachFrom_nth lvl totalH group : forall i pos j k,
  NoDup group -> nth_error group j = Some k ->
  get (forEachFrom lvl totalH group i pos) k
    = Some (mkPosition (lvl * (NODE_W + GAP_X))
              ((i + Z.of_nat j) * (NODE_H + GAP_Y) - totalH / 2)).
Proof.
  induction group as [|a g IH]; intros i pos j k Hnd Hj.
  - destruct j; discriminate.
  - inversion Hnd as [|? ? Ha Hg]; subst. destruct j as [|j]; simpl in *.
    + injection Hj as ->. rewrite forEachFrom_other by exact Ha.
      rewrite get_set_eq. do 3 f_equal. lia.
    + rewrite (IH _ _ j k Hg Hj). do 3 f_equal. lia.
Qed.

Lemma forEachFrom_keys lvl totalH group : forall i pos k,
  In k (keys (forEachFrom lvl totalH group i pos)) <->
  In k group \/ In k (keys pos).
Proof.
  induction group as [|a g IH]; intros i pos k; simpl; [tauto|].
  rewrite IH. rewrite <- !has_true_iff. unfold has. rewrite get_set.
  destruct (a =? k) eqn:E.
  - apply Z.eqb_eq in E. intuition.
  - apply Z.eqb_neq in E. intuition congruence.
Qed.

Variable lg : JsMap.t (list Z).

Lemma placeLevel_other pos lvl k :
  ~ In k (get lg lvl ?? []) -> get (placeLevel lg pos lvl) k = get pos k.
Proof. intros H. unfold placeLevel. apply forEachFrom_other. exact H. Qed.

Lemma placeLevel_nth pos lvl g j k :
  get lg lvl = Some g -> NoDup g -> nth_error g j = Some k ->
  get (placeLevel lg pos lvl) k = Some (bucketPos lvl j (length g)).
Proof.
  intros Hg Hnd Hj. unfold placeLevel. rewrite Hg. cbn [orElse].
  rewrite (forEachFrom_nth _ _ _ _ _ j k Hnd Hj). reflexivity.
Qed.

Lemma fold_placeLevel_other L : forall pos k,
  (forall lvl, In lvl L -> ~ In k (get lg lvl ?? [])) ->
  get (fold_left (placeLevel lg) L pos) k = get pos k.
Proof.
  induction L as [|a L IH]; intros pos k H; simpl; [reflexivity|].
  rewrite IH by (intros; apply H; simpl; auto).
  apply placeLevel_other. apply H. simpl. auto.
Qed.

Lemma fold_placeLevel_keys L : forall pos k,
  In k (keys (fold_left (placeLevel lg) L pos)) <->
  (exists lvl, In lvl L /\ In k (get lg lvl ?? [])) \/ In k (keys pos).
Proof.
  induction L as [|a L IH]; intros pos k; simpl.
  - split; [auto | intros [[lvl [[] _]]|H]; exact H].
  - rewrite IH.
    assert (E : In k (keys (placeLevel lg pos a)) <->
                In k (get lg a ?? []) \/ In k (keys pos))
      by apply forEachFrom_keys.
    rewrite E. split.
    + intros [[lvl [Hl Hk]]|[Hk|Hk]]; eauto 6.
    + intros [[lvl [[->|Hl] Hk]]|Hk]; eauto 6.
Qed.

Lemma in_levelsUpTo m lvl : In lvl (levelsUpTo m) <-> 0 <= lvl <= m.
Proof.
  unfold levelsUpTo. rewrite in_map_iff. split.
  - intros [n [<- Hn]]. apply in_seq in Hn. lia.
  - intros H. exists (Z.to_nat lvl). split; [lia|]. apply in_seq. lia.
Qed.

Lemma levelsUpTo_NoDup m : NoDup (levelsUpTo m).
Proof.
  unfold levelsUpTo. apply Finite.Injective_map_NoDup.
  - intros a b H. lia.
  - apply seq_NoDup.
Qed.

Lemma maxLevelOf_ge k : In k (keys lg) -> k <= maxLevelOf lg.
Proof.
  unfold maxLevelOf. induction (keys lg) as [|a l IH]; simpl; [tauto|].
  intros [->|H]; [lia|]. specialize (IH H). lia.
Qed.

(* Buckets are pairwise disjoint and duplicate-free, keys are levels >= 0. *)
Hypothesis Hdisj : forall k1 k2 g1 g2 i,
  get lg k1 = Some g1 -> get lg k2 = Some g2 -> In i g1 -> In i g2 -> k1 = k2.
Hypothesis Hnodup : forall k g, get lg k = Some g -> NoDup g.
Hypothesis Hnonneg : forall k g i, get lg k = Some g -> In i g -> 0 <= k.

Theorem placeLevels_nth lvl g j k :
  get lg lvl = Some g -> nth_error g j = Some k ->
  get (placeLevels lg) k = Some (bucketPos lvl j (length g)).
Proof.
  intros Hg Hj. pose proof (nth_error_In _ _ Hj) as Hin.
  assert (Hl : In lvl (levelsUpTo (maxLevelOf lg))).
  { apply in_levelsUpTo. split; [eapply Hnonneg; eauto|].
    apply maxLevelOf_ge. eapply get_Some_key; eauto. }
  pose proof (levelsUpTo_NoDup (maxLevelOf lg)) as HL.
  unfold placeLevels. apply in_split in Hl. destruct Hl as (L1 & L2 & E).
  rewrite E in *. rewrite fold_left_app. cbn [fold_left].
  rewrite fold_placeLevel_other.
  - apply placeLevel_nth; [exact Hg | eapply Hnodup; eauto | exact Hj].
  - intros l' Hl' Hk. apply NoDup_remove_2 in HL.
    destruct (get lg l') as [g'|] eqn:Eg; [|exact Hk].
    cbn [orElse] in Hk. assert (l' = lvl) by (eapply Hdisj; eauto). subst l'.
    apply HL. apply in_or_app. right. exact Hl'.
Qed.

Theorem placeLevels_keys k :
  In k (keys (placeLevels lg)) <-> exists lvl g, get lg lvl = Some g /\ In k g.
Proof.
  unfold placeLevels. rewrite fold_placeLevel_keys. split.
  - intros [[lvl [_ Hk]]|[]].
    destruct (get lg lvl) as [g|] eqn:Eg; [eauto | destruct Hk].
  - intros [lvl [g [Hg Hk]]]. left. exists lvl. split.
    + apply in_levelsUpTo. split; [eapply Hnonneg; eauto|].
      apply maxLevelOf_ge. eapply get_Some_key; eauto.
    + rewrite Hg. exact Hk.
Qed.
End PlaceFacts.

(** * The fallback loop *)

Section FallbackFacts.
Import JsMap JsMapFacts.
Variable maxLevel : Z.

Local Abbreviation fb := (fallbackStep maxLevel).

Lemma fallbackStep_preserve pos i s k p :
  get pos k = Some p -> get (fst (fb (pos, i) s)) k = Some p.
Proof.
  intros H. unfold fallbackStep, has. cbn [fst snd].
  destruct (get pos (ProcessStep.id s)) eqn:E; cbn [fst]; [exact H|].
  rewrite get_set_neq; [exact H | congruence].
Qed.

Lemma fallback_preserve l : forall pos i k p,
  get pos k = Some p -> get (fst (fold_left fb l (pos, i))) k = Some p.
Proof.
  induction l as [|s l IH]; intros pos i k p H; simpl; [exact H|].
  rewrite (surjective_pairing (fb (pos, i) s)).
  apply IH. apply fallbackStep_preserve. exact H.
Qed.

Lemma fallback_covers l : forall pos i s,
  In s l -> get (fst (fold_left fb l (pos, i))) (ProcessStep.id s) <> None.
Proof.
  induction l as [|a l IH]; intros pos i s H; [destruct H|].
  destruct H as [->|H]; simpl.
  - destruct (get (fst (fb (pos, i) s)) (ProcessStep.id s)) as [p|] eqn:E.
    + rewrite (surjective_pairing (fb (pos, i) s)).
      rewrite (fallback_preserve _ _ _ _ _ E). discriminate.
    + exfalso. revert E. unfold fallbackStep, has. cbn [fst snd].
      destruct (get pos (ProcessStep.id s)) eqn:E'; cbn [fst];
        [congruence | rewrite get_set_eq; discriminate].
  - rewrite (surjective_pairing (fb (pos, i) a)). apply IH. exact H.
Qed.

Lemma fallback_other l : forall pos i k,
  ~ In k (ids l) -> get (fst (fold_left fb l (pos, i))) k = get pos k.
Proof.
  induction l as [|s l IH]; intros pos i k H; simpl; [reflexivity|].
  simpl in H. rewrite (surjective_pairing (fb (pos, i) s)).
  rewrite IH by tauto.
  unfold fallbackStep. cbn [fst snd].
  destruct (has pos (ProcessStep.id s)); cbn [fst]; [reflexivity|].
  apply get_set_neq. tauto.
Qed.

Lemma fallback_idx l : forall pos i,
  snd (fold_left fb l (pos, i)) = i + Z.of_nat (length (unplaced pos (ids l))).
Proof.
  induction l as [|s l IH]; intros pos i; [simpl; lia|].
  cbn [fold_left]. rewrite (surjective_pairing (fb (pos, i) s)), IH.
  unfold fallbackStep, unplaced. cbn [fst snd ids map filter].
  fold (ids l). set (a := ProcessStep.id s).
  destruct (has pos a) eqn:Ha; cbn [fst snd negb]; [reflexivity|].
  set (F := filter (fun k => negb (has pos k)) (ids l)).
  set (F' := filter _ (ids l)).
  assert (HF' : forall k, In k F' <-> In k F /\ k <> a).
  { intros k. unfold F', F. rewrite !filter_In. unfold has.
    rewrite get_set. destruct (a =? k) eqn:E.
    - apply Z.eqb_eq in E. simpl.
      split; [intros [_ H]; discriminate | intros [_ H]; congruence].
    - apply Z.eqb_neq in E. intuition congruence. }
  assert (P : Permutation (nodup Z.eq_dec (a :: F)) (a :: nodup Z.eq_dec F')).
  { apply NoDup_Permutation.
    - apply NoDup_nodup.
    - constructor; [|apply NoDup_nodup].
      rewrite nodup_In, HF'. tauto.
    - intros k. rewrite nodup_In. simpl. rewrite nodup_In, HF'.
      destruct (Z.eq_dec a k); intuition. }
  rewrite (Permutation_length P). simpl length. lia.
Qed.

(* what the loop does at the first occurrence of an unplaced identifier *)
Theorem fallback_first pre s post pos :
  ~ In (ProcessStep.id s) (ids pre) ->
  get pos (ProcessStep.id s) = None ->
  get (fst (fold_left fb (pre ++ s :: post) (pos, 0))) (ProcessStep.id s)
    = Some (mkPosition
              ((maxLevel + 1 + Z.of_nat (length (unplaced pos (ids pre))))
               * (NODE_W + GAP_X)) 0).
Proof.
  intros Hpre Hpos. rewrite fold_left_app. cbn [fold_left].
  pose proof (fallback_other pre pos 0 _ Hpre) as E1.
  pose proof (fallback_idx pre pos 0) as E2.
  destruct (fold_left fb pre (pos, 0)) as [pos1 i1]. cbn [fst snd] in *.
  rewrite (surjective_pairing (fb (pos1, i1) s)).
  apply fallback_preserve.
  unfold fallbackStep, has. cbn [fst snd]. rewrite E1, Hpos. cbn [fst].
  rewrite get_set_eq, E2. reflexivity.
Qed.
End FallbackFacts.

(** * The state the traversal ends in *)

Section FinalFacts.
Import JsMap JsMapFacts.
Variable steps : list ProcessStep.t.
Variable deps : list Dependency.t.

Lemma traverse_inv fuel st :
  traverse fuel steps deps = Some st ->
  Inv steps deps st /\ head st = length (queue st).
Proof.
  intros H. destruct (traverse_total steps deps) as (st0 & H0 & HI & Hh).
  set (n := (length steps + length deps)%nat) in *.
  pose proof (traverse_fuel_mono _ _ fuel (Nat.max fuel n) st H ltac:(lia)) as E.
  pose proof (traverse_fuel_mono _ _ n (Nat.max fuel n) st0 H0 ltac:(lia)) as E0.
  assert (st = st0) by congruence. subst st0. tauto.
Qed.

Variable st : LoopState.
Hypothesis HI : Inv steps deps st.
Hypothesis Hend : head st = length (queue st).

Lemma proc_final : proc st = queue st.
Proof. unfold proc. rewrite Hend. apply firstn_all. Qed.

Lemma queue_NoDup : NoDup (queue st).
Proof. destruct (inv_queue _ _ _ HI) as [H _]. exact H. Qed.

(* the buckets partition the queue *)
Lemma group_member_queue k g i :
  get (levelGroups st) k = Some g -> In i g -> In i (queue st).
Proof.
  intros Hg Hi. rewrite <- proc_final.
  exact (group_member_proc _ _ _ HI _ _ _ Hg Hi).
Qed.

Lemma queue_member_group i :
  In i (queue st) ->
  exists g, get (levelGroups st) (lev st i) = Some g /\ In i g.
Proof.
  intros Hi. rewrite <- proc_final in Hi.
  apply (Permutation_in _ (Permutation_sym (inv_grp_perm _ _ _ HI))) in Hi.
  apply in_concat in Hi. destruct Hi as [g [Hg Hi]].
  unfold values in Hg. apply in_map_iff in Hg. destruct Hg as [[k g'] [E Hg]].
  simpl in E. subst g'.
  apply (In_get _ _ _ (inv_grp_keys _ _ _ HI)) in Hg.
  rewrite (inv_grp_lvl _ _ _ HI k g i Hg Hi). eauto.
Qed.

Lemma groups_disjoint k1 k2 g1 g2 i :
  get (levelGroups st) k1 = Some g1 -> get (levelGroups st) k2 = Some g2 ->
  In i g1 -> In i g2 -> k1 = k2.
Proof.
  intros H1 H2 I1 I2.
  rewrite <- (inv_grp_lvl _ _ _ HI k1 g1 i H1 I1).
  exact (inv_grp_lvl _ _ _ HI k2 g2 i H2 I2).
Qed.

Lemma NoDup_concat_elem (ll : list (list Z)) g :
  NoDup (concat ll) -> In g ll -> NoDup g.
Proof.
  induction ll as [|a ll IH]; simpl; [tauto|].
  intros Hnd [->|Hg].
  - apply NoDup_app_remove_r in Hnd. exact Hnd.
  - apply IH; [|exact Hg]. apply NoDup_app_remove_l in Hnd. exact Hnd.
Qed.

Lemma groups_NoDup k g : get (levelGroups st) k = Some g -> NoDup g.
Proof.
  intros Hg. apply (NoDup_concat_elem (values (levelGroups st))).
  - apply (Permutation_NoDup (Permutation_sym (inv_grp_perm _ _ _ HI))).
    rewrite proc_final. exact queue_NoDup.
  - apply get_Some_In in Hg. unfold values.
    change g with (snd (k, g)). apply in_map. exact Hg.
Qed.

Lemma groups_nonneg k g i :
  get (levelGroups st) k = Some g -> In i g -> 0 <= k.
Proof.
  intros Hg Hi. rewrite <- (inv_grp_lvl _ _ _ HI k g i Hg Hi).
  apply (lev_nonneg _ _ _ HI).
Qed.

(* the bucket loop places exactly the dequeued identifiers *)
Lemma placeLevels_has k :
  has (placeLevels (levelGroups st)) k = mem k (queue st).
Proof.
  apply eq_true_iff_eq. rewrite has_true_iff, mem_In.
  rewrite (placeLevels_keys _ groups_nonneg). split.
  - intros (lvl & g & Hg & Hk). eapply group_member_queue; eauto.
  - intros Hk. destruct (queue_member_group _ Hk) as [g [Hg Hi]]. eauto.
Qed.

Lemma place_bucket lvl g j k :
  get (levelGroups st) lvl = Some g -> nth_error g j = Some k ->
  get (place steps st) k = Some (bucketPos lvl j (length g)).
Proof.
  intros Hg Hj. unfold place. apply fallback_preserve.
  exact (placeLevels_nth _ groups_disjoint groups_NoDup groups_nonneg _ _ _ _ Hg Hj).
Qed.

(* every dequeued identifier sits in the bucket of its level *)
Lemma place_dequeued k :
  In k (queue st) ->
  exists g j, get (levelGroups st) (lev st k) = Some g /\
              nth_error g j = Some k /\
              get (place steps st) k = Some (bucketPos (lev st k) j (length g)).
Proof.
  intros Hk. destruct (queue_member_group _ Hk) as [g [Hg Hi]].
  apply In_nth_error in Hi. destruct Hi as [j Hj].
  exists g, j. repeat split; try assumption.
  eapply place_bucket; eauto.
Qed.

Lemma lev_le_maxLevel k :
  In k (queue st) -> lev st k <= maxLevelOf (levelGroups st).
Proof.
  intros Hk. destruct (queue_member_group _ Hk) as [g [Hg _]].
  apply maxLevelOf_ge. eapply get_Some_key; eauto.
Qed.
(* when an identifier that is no input node gets dequeued *)
Lemma stranger_queued_iff k :
  ~ In k (ids steps) ->
  In k (queue st) <->
  In k (map tgt deps) /\
  forall d, In d deps -> tgt d = k ->
            In (src d) (ids steps) /\ In (src d) (queue st).
Proof.
  intros Hk. split.
  - intros Hq. split.
    + destruct (queue_counter_zero _ _ _ HI _ Hq) as (Hkey & _).
      unfold isKey in Hkey. apply orb_true_iff in Hkey.
      destruct Hkey as [H|H]; apply mem_In in H; [contradiction | exact H].
    + intros d Hd <-.
      destruct (queue_preds_done _ _ _ HI d Hd Hq) as [Hs Hp].
      rewrite proc_final in Hp. tauto.
  - intros [Ht Hall].
    destruct (inv_queue _ _ _ HI) as (_ & Hq & _).
    pose proof (inv_deg _ _ _ HI k) as Hd.
    assert (Hkey : isKey steps deps k = true)
      by (unfold isKey; apply orb_true_iff; right; apply mem_In; exact Ht).
    rewrite Hkey in Hd. apply (Hq _ _ Hd).
    assert (E1 : ext steps deps k = 0).
    { apply countZ_zero_iff. intros d Hd'.
      destruct (tgt d =? k) eqn:Et; [|reflexivity]. apply Z.eqb_eq in Et.
      destruct (Hall d Hd' Et) as [Hs _]. apply mem_In in Hs. rewrite Hs.
      reflexivity. }
    assert (E2 : pend steps deps (proc st) k = 0).
    { apply countZ_zero_iff. intros d Hd'.
      destruct (tgt d =? k) eqn:Et; [|reflexivity]. apply Z.eqb_eq in Et.
      destruct (Hall d Hd' Et) as [_ Hs]. rewrite proc_final.
      apply mem_In in Hs. rewrite Hs. apply andb_false_r. }
    lia.
Qed.

(* neither dequeued nor an input node: no position *)
Lemma place_absent k :
  ~ In k (ids steps) -> ~ In k (queue st) -> get (place steps st) k = None.
Proof.
  intros Hk Hq. unfold place. rewrite fallback_other by exact Hk.
  pose proof (placeLevels_has k) as E. apply mem_false in Hq.
  rewrite Hq in E. unfold has in E.
  destruct (get (placeLevels (levelGroups st)) k); [discriminate | reflexivity].
Qed.
End FinalFacts.

(** * Properties of the layout *)

Section LayoutFacts.
Import JsMap JsMapFacts.

Lemma buildLayout_traverse steps deps fuel st :
  traverse fuel steps deps = Some st ->
  buildLayout steps deps = Some (place steps st).
Proof.
  intros H. destruct (traverse_total steps deps) as (st0 & H0 & _).
  set (n := (length steps + length deps)%nat) in *.
  pose proof (traverse_fuel_mono _ _ fuel (Nat.max fuel n) st H ltac:(lia)) as E.
  pose proof (traverse_fuel_mono _ _ n (Nat.max fuel n) st0 H0 ltac:(lia)) as E0.
  assert (st = st0) by congruence. subst st0.
  unfold buildLayout, buildLayoutFuel. fold n. rewrite H0. reflexivity.
Qed.

Lemma forEachFrom_NoDup lvl totalH group : forall i pos,
  NoDup (keys pos) -> NoDup (keys (forEachFrom lvl totalH group i pos)).
Proof.
  induction group as [|a g IH]; intros i pos H; simpl; [exact H|].
  apply IH, NoDup_keys_set, H.
Qed.

Lemma placeLevels_NoDup lg : NoDup (keys (placeLevels lg)).
Proof.
  unfold placeLevels.
  assert (G : forall L pos, NoDup (keys pos) ->
              NoDup (keys (fold_left (placeLevel lg) L pos))).
  { induction L as [|a L IH]; intros pos H; simpl; [exact H|].
    apply IH. unfold placeLevel. apply forEachFrom_NoDup, H. }
  apply G. constructor.
Qed.

Lemma fallback_NoDup maxLevel l : forall pos i,
  NoDup (keys pos) ->
  NoDup (keys (fst (fold_left (fallbackStep maxLevel) l (pos, i)))).
Proof.
  induction l as [|s l IH]; intros pos i H; simpl; [exact H|].
  rewrite (surjective_pairing (fallbackStep maxLevel (pos, i) s)).
  apply IH. unfold fallbackStep. cbn [fst snd].
  destruct (has pos (ProcessStep.id s)); cbn [fst]; [exact H|].
  apply NoDup_keys_set, H.
Qed.

Lemma place_NoDup steps st : NoDup (keys (place steps st)).
Proof. unfold place. apply fallback_NoDup, placeLevels_NoDup. Qed.

Lemma count_key_one {V} (m : JsMap.t V) k :
  NoDup (keys m) -> In k (keys m) ->
  length (filter (fun e => fst e =? k) m) = 1%nat.
Proof.
  induction m as [|[k0 v0] m IH]; simpl; [tauto|].
  intros Hnd Hk. inversion Hnd as [|? ? Hn Hm]; subst.
  destruct (k0 =? k) eqn:E.
  - apply Z.eqb_eq in E. subst k0. simpl. f_equal.
    apply length_zero_iff_nil.
    destruct (filter _ m) as [|e r] eqn:Ef; [reflexivity|].
    assert (He : In e (filter (fun e => fst e =? k) m)) by (rewrite Ef; left; reflexivity).
    apply filter_In in He. destruct He as [He Hf]. apply Z.eqb_eq in Hf.
    exfalso. apply Hn. rewrite <- Hf. apply in_map. exact He.
  - apply Z.eqb_neq in E. apply IH; [exact Hm | tauto].
Qed.

(* only input nodes seed the queue: an edge target starts above zero *)
Lemma seedQueue_ids steps deps t :
  In t (seedQueue (snd (buildMaps steps deps))) -> In t (ids steps).
Proof.
  intros H. apply in_seedQueue in H.
  apply (In_get _ _ _ (inDeg0_NoDup steps deps)) in H.
  rewrite inDeg0_get in H.
  destruct (mem t (ids steps)) eqn:E; [apply mem_In; exact E|].
  destruct (mem t (map tgt deps)) eqn:E'; [|discriminate].
  simpl in H. injection H as H. exfalso.
  apply mem_In, in_map_iff in E'. destruct E' as [d [Ed Hd]].
  assert (0 < indegree deps t); [|lia].
  apply countZ_pos_iff. exists d. split; [exact Hd | apply Z.eqb_eq; exact Ed].
Qed.

Lemma buildLayout_nil deps : buildLayout [] deps = Some empty.
Proof.
  assert (Hq : seedQueue (snd (buildMaps [] deps)) = []).
  { destruct (seedQueue _) as [|t q] eqn:E; [reflexivity|].
    exfalso. apply (seedQueue_ids [] deps t). rewrite E. left. reflexivity. }
  unfold buildLayout, buildLayoutFuel, traverse.
  destruct (length [] + length deps)%nat; simpl; rewrite Hq; reflexivity.
Qed.
End LayoutFacts.

(** * The diamond scenario, for any four distinct identifiers *)

Lemma while_succ fuel adjOut st :
  while (S fuel) adjOut st
  = if (head st <? length (queue st))%nat
    then while fuel adjOut (step adjOut st) else Some st.
Proof. reflexivity. Qed.

Section SymbolicMaps.
Context {V : Type}.
Implicit Types (m : JsMap.t V) (k : Z) (v : V).

Lemma get_nil k : JsMap.get (@nil (Z * V)) k = None.
Proof. reflexivity. Qed.

Lemma get_cons_eq m k v : JsMap.get ((k, v) :: m) k = Some v.
Proof. simpl. rewrite Z.eqb_refl. reflexivity. Qed.

Lemma get_cons_neq m k k' v :
  (k' =? k) = false -> JsMap.get ((k', v) :: m) k = JsMap.get m k.
Proof. intros E. simpl. rewrite E. reflexivity. Qed.

Lemma set_nil k v : JsMap.set k v (@nil (Z * V)) = [(k, v)].
Proof. reflexivity. Qed.

Lemma set_cons_eq m k v v' : JsMap.set k v ((k, v') :: m) = (k, v) :: m.
Proof. simpl. rewrite Z.eqb_refl. reflexivity. Qed.

Lemma set_cons_neq m k k' v v' :
  (k' =? k) = false ->
  JsMap.set k v ((k', v') :: m) = (k', v') :: JsMap.set k v m.
Proof. intros E. simpl. rewrite E. reflexivity. Qed.
End SymbolicMaps.

Lemma NoDup_four (a b c d : Z) :
  NoDup [a; b; c; d] ->
  (a =? b) = false /\ (a =? c) = false /\ (a =? d) = false /\
  (b =? c) = false /\ (b =? d) = false /\ (c =? d) = false.
Proof.
  intros H.
  inversion H as [|? ? Na H1]; subst. inversion H1 as [|? ? Nb H2]; subst.
  inversion H2 as [|? ? Nc H3]; subst. simpl in Na, Nb, Nc.
  repeat split; apply Z.eqb_neq; intros ->; tauto.
Qed.

(* turn a [NoDup [a; b; c; d]] of the context into the boolean facts *)
Ltac neq_facts :=
  match goal with
  | H : NoDup [?a; ?b; ?c; ?d] |- _ =>
      let E := fresh "E" in
      pose proof (NoDup_four a b c d H) as E;
      destruct E as (? & ? & ? & ? & ? & ?)
  end;
  repeat match goal with
  | H : (?u =? ?v) = false |- _ =>
      lazymatch goal with
      | _ : (v =? u) = false |- _ => fail
      | _ => let E := fresh "E" in
             assert (E : (v =? u) = false) by (rewrite Z.eqb_sym; exact H)
      end
  end.

(* evaluate map reads and writes whose keys are variables *)
Ltac eval_maps :=
  repeat first
    [ rewrite get_nil | rewrite get_cons_eq | rewrite get_cons_neq by assumption
    | rewrite set_nil | rewrite set_cons_eq | rewrite set_cons_neq by assumption
    | progress cbn [orElse fst snd app Dependency.source_step_id
                    Dependency.target_step_id queue head inDeg level levelGroups
                    nth length fold_left map] ].

(* evaluate arithmetic on numerals *)
Ltac eval_arith :=
  cbn [Z.add Z.sub Z.mul Z.max Z.opp Z.pos_sub Z.compare Pos.compare
       Pos.compare_cont Pos.add Pos.mul Pos.succ Pos.pred_double Z.succ_double
       Z.pred_double Z.double Z.leb Z.eqb Pos.eqb Z.of_nat Pos.of_succ_nat].

Section DiamondFacts.
Variables sA sB sC sD : ProcessStep.t.
Variables i1 i2 i3 i4 : Z.

Let a := ProcessStep.id sA.
Let b := ProcessStep.id sB.
Let c := ProcessStep.id sC.
Let d := ProcessStep.id sD.

Hypothesis Hdistinct : NoDup [a; b; c; d].

Let steps := diamondSteps sA sB sC sD.
Let deps := diamondDeps a b c d i1 i2 i3 i4.

Lemma diamond_maps :
  buildMaps steps deps
  = ([(a, [b; c]); (b, [d]); (c, [d]); (d, [])],
     [(a, 0); (b, 1); (c, 1); (d, 2)]).
Proof.
  neq_facts. unfold buildMaps, steps, deps, diamondSteps, diamondDeps, JsMap.empty.
  cbn [map fold_left fst snd]. unfold initStep, addDep.
  fold a b c d. eval_maps. reflexivity.
Qed.

Lemma diamond_traverse :
  traverse 8 steps deps = Some (diamondFinal a b c d).
Proof.
  unfold traverse. rewrite diamond_maps. neq_facts.
  cbn [fst snd]. unfold initState, seedQueue, JsMap.empty.
  cbn [filter snd Z.eqb map fst].
  do 4 (rewrite while_succ; cbn [head queue length Nat.ltb Nat.leb];
        unfold step; eval_maps; unfold relax; eval_maps; eval_arith; eval_maps).
  reflexivity.
Qed.

Lemma diamond_place :
  place steps (diamondFinal a b c d) = diamondPlaced a b c d.
Proof.
  neq_facts. unfold place, diamondFinal, steps, diamondSteps.
  cbn [levelGroups]. unfold placeLevels.
  change (maxLevelOf [(0, [a]); (1, [b; c]); (2, [d])]) with 2.
  change (levelsUpTo 2) with [0; 1; 2].
  cbn [fold_left]. unfold placeLevel.
  change (JsMap.get [(0, [a]); (1, [b; c]); (2, [d])] 0 ?? []) with [a].
  change (JsMap.get [(0, [a]); (1, [b; c]); (2, [d])] 1 ?? []) with [b; c].
  change (JsMap.get [(0, [a]); (1, [b; c]); (2, [d])] 2 ?? []) with [d].
  cbn [forEachFrom]. unfold JsMap.empty. eval_maps.
  unfold fallbackStep, JsMap.has. fold a b c d.
  repeat (cbn [fst snd]; eval_maps).
  reflexivity.
Qed.

Lemma diamond_buildLayout :
  buildLayout steps deps = Some (diamondPlaced a b c d).
Proof.
  rewrite (buildLayout_traverse _ _ _ _ diamond_traverse), diamond_place.
  reflexivity.
Qed.

Lemma diamond_lev :
  lev (diamondFinal a b c d) a = 0 /\ lev (diamondFinal a b c d) b = 1 /\
  lev (diamondFinal a b c d) c = 1 /\ lev (diamondFinal a b c d) d = 2.
Proof.
  neq_facts. unfold lev, diamondFinal. cbn [level]. eval_maps. tauto.
Qed.

Lemma diamond_positions :
  JsMap.get (diamondPlaced a b c d) a = Some (mkPosition 0 (-50)) /\
  JsMap.get (diamondPlaced a b c d) b = Some (mkPosition 260 (-130)) /\
  JsMap.get (diamondPlaced a b c d) c = Some (mkPosition 260 30) /\
  JsMap.get (diamondPlaced a b c d) d = Some (mkPosition 520 (-50)).
Proof.
  neq_facts. unfold diamondPlaced. eval_maps. tauto.
Qed.
End DiamondFacts.

(** * Fallback placement and global separation *)

Section SeparationFacts.
Import JsMap JsMapFacts.

Lemma fallback_Sep maxLevel l : forall pos i,
  Sep pos (maxLevel + i) ->
  Sep (fst (fold_left (fallbackStep maxLevel) l (pos, i)))
      (maxLevel + snd (fold_left (fallbackStep maxLevel) l (pos, i))).
Proof.
  induction l as [|s l IH]; intros pos i H; [exact H|].
  cbn [fold_left]. rewrite (surjective_pairing (fallbackStep maxLevel (pos, i) s)).
  apply IH. unfold fallbackStep. cbn [fst snd].
  destruct (has pos (ProcessStep.id s)) eqn:Eh; cbn [fst snd]; [exact H|].
  destruct H as [Hs Hb]. unfold has in Eh.
  set (a := ProcessStep.id s) in *.
  set (np := mkPosition ((maxLevel + 1 + i) * (NODE_W + GAP_X)) 0).
  assert (Hnew : forall k p, get pos k = Some p -> separated np p /\ separated p np).
  { intros k p Hk. specialize (Hb k p Hk). unfold separated, np; cbn [x y].
    unfold NODE_W, GAP_X in *. split; left; lia. }
  split.
  - intros k1 k2 p1 p2 Hne. rewrite !get_set.
    destruct (a =? k1) eqn:E1, (a =? k2) eqn:E2.
    + apply Z.eqb_eq in E1, E2. congruence.
    + intros [= <-] H2. apply (Hnew k2 p2 H2).
    + intros H1 [= <-]. apply (Hnew k1 p1 H1).
    + apply Hs. exact Hne.
  - intros k p. rewrite get_set. destruct (a =? k).
    + intros [= <-]. unfold np; cbn [x]. unfold NODE_W, GAP_X. lia.
    + intros Hk. specialize (Hb k p Hk). unfold NODE_W, GAP_X in *. lia.
Qed.

(* every column is a multiple of the column width *)
Lemma fallback_grid maxLevel l : forall pos i,
  (forall k p, get pos k = Some p -> exists c, x p = c * (NODE_W + GAP_X)) ->
  forall k p,
    get (fst (fold_left (fallbackStep maxLevel) l (pos, i))) k = Some p ->
    exists c, x p = c * (NODE_W + GAP_X).
Proof.
  induction l as [|s l IH]; intros pos i H; [exact H|].
  cbn [fold_left]. rewrite (surjective_pairing (fallbackStep maxLevel (pos, i) s)).
  apply IH. unfold fallbackStep. cbn [fst snd].
  destruct (has pos (ProcessStep.id s)); cbn [fst snd]; [exact H|].
  intros k p. rewrite get_set. destruct (_ =? k).
  - intros [= <-]. eexists. reflexivity.
  - apply H.
Qed.

Variable steps : list ProcessStep.t.
Variable deps : list Dependency.t.
Variable st : LoopState.
Hypothesis HI : Inv steps deps st.
Hypothesis Hend : head st = length (queue st).

Lemma placeLevels_entry k p :
  get (placeLevels (levelGroups st)) k = Some p ->
  exists lvl g j, get (levelGroups st) lvl = Some g /\
                  nth_error g j = Some k /\ p = bucketPos lvl j (length g).
Proof.
  intros Hk. pose proof (get_Some_key _ _ _ Hk) as Hin.
  apply (placeLevels_keys _ (groups_nonneg _ _ _ HI)) in Hin.
  destruct Hin as (lvl & g & Hg & Hi).
  apply In_nth_error in Hi. destruct Hi as [j Hj].
  exists lvl, g, j. repeat split; try assumption.
  pose proof (placeLevels_nth _ (groups_disjoint _ _ _ HI)
                (groups_NoDup _ _ _ HI Hend) (groups_nonneg _ _ _ HI)
                _ _ _ _ Hg Hj) as E.
  congruence.
Qed.

Lemma placeLevels_Sep :
  Sep (placeLevels (levelGroups st)) (maxLevelOf (levelGroups st)).
Proof.
  split.
  - intros k1 k2 p1 p2 Hne H1 H2.
    apply placeLevels_entry in H1, H2.
    destruct H1 as (l1 & g1 & j1 & Hg1 & Hj1 & ->).
    destruct H2 as (l2 & g2 & j2 & Hg2 & Hj2 & ->).
    unfold separated, bucketPos; cbn [x y].
    destruct (Z.eq_dec l1 l2) as [->|Hl].
    + right. assert (g2 = g1) by congruence. subst g2.
      assert (j1 <> j2) by (intros ->; congruence).
      unfold NODE_H, GAP_Y. lia.
    + left. unfold NODE_W, GAP_X. lia.
  - intros k p Hk. apply placeLevels_entry in Hk.
    destruct Hk as (l1 & g1 & j1 & Hg1 & Hj1 & ->).
    unfold bucketPos; cbn [x].
    pose proof (maxLevelOf_ge _ _ (get_Some_key _ _ _ Hg1)).
    unfold NODE_W, GAP_X. lia.
Qed.

Lemma place_separated k1 k2 p1 p2 :
  k1 <> k2 ->
  get (place steps st) k1 = Some p1 -> get (place steps st) k2 = Some p2 ->
  separated p1 p2.
Proof.
  pose proof (fallback_Sep (maxLevelOf (levelGroups st)) steps
                (placeLevels (levelGroups st)) 0) as H.
  rewrite Z.add_0_r in H. destruct (H placeLevels_Sep) as [Hs _].
  exact (Hs k1 k2 p1 p2).
Qed.

Lemma place_grid k p :
  get (place steps st) k = Some p -> exists c, x p = c * (NODE_W + GAP_X).
Proof.
  unfold place. apply fallback_grid. intros k0 p0 H0.
  apply placeLevels_entry in H0. destruct H0 as (lvl & g & j & _ & _ & ->).
  exists lvl. reflexivity.
Qed.

Lemma not_queued_counter k :
  isKey steps deps k = true -> ~ In k (queue st) ->
  exists d, get (inDeg st) k = Some d /\ 0 < d.
Proof.
  intros Hk Hn. pose proof (inv_deg _ _ _ HI k) as Hd. rewrite Hk in Hd.
  destruct (inv_queue _ _ _ HI) as (_ & Hq & _).
  eexists. split; [exact Hd|].
  specialize (Hq _ _ Hd).
  destruct (Z_lt_le_dec 0 (ext steps deps k + pend steps deps (proc st) k));
    tauto.
Qed.
End SeparationFacts.

(** * Levels and longest paths *)

Section LongestPath.
Import JsMap JsMapFacts.
Variable steps : list ProcessStep.t.
Variable deps : list Dependency.t.
Variable st : LoopState.
Hypothesis HI : Inv steps deps st.
Hypothesis Hend : head st = length (queue st).

Lemma in_restricted d :
  In d (restricted steps deps) <->
  In d deps /\ In (src d) (ids steps) /\ In (tgt d) (ids steps).
Proof.
  unfold restricted, wellFormed. rewrite filter_In, andb_true_iff, !mem_In.
  tauto.
Qed.

(* along an edge between dequeued identifiers the level grows *)
Lemma dequeued_edge d :
  In d deps -> In (tgt d) (queue st) ->
  In (src d) (ids steps) /\ In (src d) (queue st) /\
  lev st (src d) + 1 <= lev st (tgt d).
Proof.
  intros Hd Ht. destruct (queue_preds_done _ _ _ HI d Hd Ht) as [Hs Hp].
  split; [exact Hs|]. split; [apply (proc_in_queue st); exact Hp|].
  exact (inv_lvl_edge _ _ _ HI d Hd Hs Hp).
Qed.

(* every walk of the input graph into a dequeued identifier climbs levels *)
Lemma walk_climbs E a b n :
  incl E deps -> walk E a b n -> In b (queue st) ->
  In a (queue st) /\ 0 <= n /\ lev st a + n <= lev st b.
Proof.
  intros HE Hw. induction Hw as [|d n Hw IH Hd]; intros Hb.
  - split; [exact Hb|]. lia.
  - destruct (dequeued_edge d (HE _ Hd) Hb) as (_ & Hs & Hl).
    destruct (IH Hs) as (Ha & Hn & Hle). split; [exact Ha|]. lia.
Qed.

Lemma restricted_incl : incl (restricted steps deps) deps.
Proof. intros d Hd. apply in_restricted in Hd. tauto. Qed.

(* a dequeued input node is reached from a source by a walk as long as its level *)
Lemma level_walk_exists : forall (n : nat) v,
  (Z.to_nat (lev st v) < n)%nat -> In v (ids steps) -> In v (queue st) ->
  exists s, isSource steps deps s /\ walk (restricted steps deps) s v (lev st v).
Proof.
  induction n as [|n IH]; intros v Hn Hv Hq; [lia|].
  unfold lev in *. destruct (get (level st) v) as [l|] eqn:El; cbn [orElse] in *.
  - destruct (inv_lvl_wit _ _ _ HI v l El) as (Hl & d & Hd & Ht & Hs & Hp & E).
    fold (lev st (src d)) in E.
    pose proof (lev_nonneg _ _ _ HI (src d)) as H0.
    destruct (IH (src d)) as (s & Hsrc & Hw).
    + fold (lev st (src d)). lia.
    + exact Hs.
    + apply (proc_in_queue st). exact Hp.
    + exists s. split; [exact Hsrc|]. fold (lev st (src d)) in Hw.
      subst v l. apply walk_step; [exact Hw|].
      apply in_restricted. tauto.
  - exists v. split; [|apply walk_refl].
    split; [exact Hv|]. apply countZ_zero_iff. intros d Hd.
    destruct (tgt d =? v) eqn:E; [|reflexivity]. apply Z.eqb_eq in E.
    apply in_restricted in Hd. destruct Hd as (Hd & Hs & _). exfalso.
    apply (inv_lvl_none _ _ _ HI v El d Hd E Hs).
    rewrite <- E in Hq. apply (queue_preds_done _ _ _ HI d Hd Hq).
Qed.

(* the level of a dequeued input node is the length of the longest walk
   from a source, in the graph restricted to the input nodes *)
Lemma level_longest v :
  In v (ids steps) -> In v (queue st) ->
  (exists s, isSource steps deps s /\
             walk (restricted steps deps) s v (lev st v)) /\
  (forall a n, walk (restricted steps deps) a v n ->
               0 <= n /\ lev st a + n <= lev st v /\ n <= lev st v).
Proof.
  intros Hv Hq. split.
  - apply (level_walk_exists (S (Z.to_nat (lev st v)))); [lia | exact Hv | exact Hq].
  - intros a n Hw.
    destruct (walk_climbs _ _ _ _ restricted_incl Hw Hq) as (Ha & Hn & Hle).
    pose proof (lev_nonneg _ _ _ HI a). lia.
Qed.
End LongestPath.

(** * Edges that name a missing node *)

Section MalformedEdges.
Import JsMap JsMapFacts.
Variable steps : list ProcessStep.t.
Variable deps : list Dependency.t.

Lemma restricted_idem :
  restricted steps (restricted steps deps) = restricted steps deps.
Proof.
  unfold restricted. induction deps as [|d l IH]; simpl; [reflexivity|].
  destruct (wellFormed steps d) eqn:E; simpl; [rewrite E, IH|]; auto.
Qed.

(* an edge with a missing source never enters the adjacency lists *)
Lemma outs_known_source k :
  outs (filter (fun d => mem (src d) (ids steps)) deps) k
    = if mem k (ids steps) then outs deps k else [].
Proof.
  unfold outs. induction deps as [|d l IH]; simpl.
  - destruct (mem k (ids steps)); reflexivity.
  - destruct (mem (src d) (ids steps)) eqn:Es; simpl;
      destruct (src d =? k) eqn:Ek; simpl; rewrite IH; try reflexivity.
    + apply Z.eqb_eq in Ek. rewrite <- Ek, Es. reflexivity.
    + apply Z.eqb_eq in Ek. rewrite <- Ek, Es. reflexivity.
Qed.

Lemma adjOut_known_source k :
  get (fst (buildMaps steps deps)) k
    = get (fst (buildMaps steps (filter (fun d => mem (src d) (ids steps)) deps))) k.
Proof.
  rewrite !adjOut_get, outs_known_source.
  destruct (mem k (ids steps)); reflexivity.
Qed.

Variables st st' : LoopState.
Hypothesis HI : Inv steps deps st.
Hypothesis Hend : head st = length (queue st).
Hypothesis HI' : Inv steps (restricted steps deps) st'.
Hypothesis Hend' : head st' = length (queue st').

(* what the traversal dequeues, it also dequeues without the malformed edges *)
Lemma dequeued_without_malformed : forall (n : nat) v,
  (Z.to_nat (lev st v) < n)%nat -> In v (ids steps) -> In v (queue st) ->
  In v (queue st').
Proof.
  induction n as [|n IH]; intros v Hn Hv Hq; [lia|].
  destruct (inv_queue _ _ _ HI') as (_ & Hq' & _).
  pose proof (inv_deg _ _ _ HI' v) as Hd.
  assert (Hk : isKey steps (restricted steps deps) v = true)
    by (unfold isKey; apply orb_true_iff; left; apply mem_In; exact Hv).
  rewrite Hk in Hd. apply (Hq' _ _ Hd).
  assert (E1 : ext steps (restricted steps deps) v = 0).
  { apply countZ_zero_iff. intros d Hd'. apply in_restricted in Hd'.
    destruct Hd' as (_ & Hs & _). apply mem_In in Hs. rewrite Hs.
    apply andb_false_r. }
  assert (E2 : pend steps (restricted steps deps) (proc st') v = 0).
  { apply countZ_zero_iff. intros d Hd'. apply in_restricted in Hd'.
    destruct Hd' as (Hd' & Hs & _).
    destruct (tgt d =? v) eqn:Et; [|reflexivity]. apply Z.eqb_eq in Et.
    rewrite <- Et in Hq.
    destruct (dequeued_edge _ _ _ HI d Hd' Hq) as (_ & Hsq & Hl).
    pose proof (lev_nonneg _ _ _ HI (src d)).
    assert (Hin : In (src d) (queue st')).
    { apply IH; [rewrite Et in Hl; lia | exact Hs | exact Hsq]. }
    rewrite (proc_final st' Hend'). apply mem_In in Hin. rewrite Hin.
    apply andb_false_r. }
  lia.
Qed.

Lemma level_without_malformed v :
  In v (ids steps) -> In v (queue st) ->
  In v (queue st') /\ lev st' v = lev st v.
Proof.
  intros Hv Hq.
  assert (Hq' : In v (queue st'))
    by (apply (dequeued_without_malformed (S (Z.to_nat (lev st v)))); auto).
  split; [exact Hq'|].
  destruct (level_longest _ _ _ HI Hend v Hv Hq) as [(s & Hs & Hw) Hub].
  destruct (level_longest _ _ _ HI' Hend' v Hv Hq') as [(s' & Hs' & Hw') Hub'].
  rewrite restricted_idem in Hw', Hub'.
  destruct (Hub _ _ Hw') as (_ & _ & H1).
  destruct (Hub' _ _ Hw) as (_ & _ & H2). lia.
Qed.
End MalformedEdges.

(** * The order inside a column *)

Section OrderFacts.
Import JsMap JsMapFacts.
Variable steps : list ProcessStep.t.
Variable deps : list Dependency.t.

(* a property kept by the loop body holds when the loop ends *)
Lemma while_keeps (P : LoopState -> Prop) :
  (forall st, Inv steps deps st -> (head st < length (queue st))%nat ->
              P st -> P (step (fst (buildMaps steps deps)) st)) ->
  forall fuel st r,
    Inv steps deps st -> P st ->
    while fuel (fst (buildMaps steps deps)) st = Some r -> P r.
Proof.
  intros Hstep. induction fuel as [|fuel IH]; intros st r HI HP; simpl;
    destruct (head st <? length (queue st))%nat eqn:E; try discriminate.
  - intros [= <-]. exact HP.
  - apply Nat.ltb_lt in E. apply IH; [apply step_inv | apply Hstep]; assumption.
  - intros [= <-]. exact HP.
Qed.

Lemma traverse_keeps (P : LoopState -> Prop) fuel st :
  P (initState (snd (buildMaps steps deps))) ->
  (forall st, Inv steps deps st -> (head st < length (queue st))%nat ->
              P st -> P (step (fst (buildMaps steps deps)) st)) ->
  traverse fuel steps deps = Some st -> P st.
Proof.
  intros H0 Hstep Ht. unfold traverse in Ht.
  exact (while_keeps P Hstep _ _ _ (init_inv steps deps) H0 Ht).
Qed.

Lemma bucketsOrdered_init m : bucketsOrdered (initState m).
Proof. split; [reflexivity | discriminate]. Qed.

Lemma bucketsOrdered_step st :
  Inv steps deps st -> (head st < length (queue st))%nat ->
  bucketsOrdered st -> bucketsOrdered (step (fst (buildMaps steps deps)) st).
Proof.
  intros HI Hlt [Hb Hne]. split.
  - intros k. rewrite step_levelGroups, (step_proc _ _ _ Hlt), get_set, filter_app.
    assert (E : filter (fun i => lev (step (fst (buildMaps steps deps)) st) i =? k) (proc st)
                = filter (fun i => lev st i =? k) (proc st)).
    { apply filter_ext_in. intros u Hu.
      rewrite (step_lev_queued _ _ _ HI Hlt u (proc_in_queue _ _ Hu)). reflexivity. }
    rewrite E. cbn [filter].
    rewrite (step_lev_queued _ _ _ HI Hlt _ (cur_in_queue _ Hlt)).
    destruct (lev st (nth (head st) (queue st) 0) =? k) eqn:Ek.
    + apply Z.eqb_eq in Ek. subst k. cbn [orElse]. rewrite Hb. reflexivity.
    + rewrite app_nil_r. apply Hb.
  - intros k g. rewrite step_levelGroups, get_set.
    destruct (_ =? k); [|apply Hne].
    intros [= <-]. destruct (get _ _ ?? []); discriminate.
Qed.

Lemma traverse_bucketsOrdered fuel st :
  traverse fuel steps deps = Some st -> bucketsOrdered st.
Proof.
  apply (traverse_keeps bucketsOrdered).
  - apply bucketsOrdered_init.
  - apply bucketsOrdered_step.
Qed.

Lemma seeded_step seed st :
  seeded seed st -> seeded seed (step (fst (buildMaps steps deps)) st).
Proof.
  intros [rest E]. destruct (step_queue steps deps st) as [newly En].
  exists (rest ++ newly). rewrite En, E, app_assoc. reflexivity.
Qed.

Lemma traverse_seeded fuel st :
  traverse fuel steps deps = Some st ->
  seeded (seedQueue (snd (buildMaps steps deps))) st.
Proof.
  apply (traverse_keeps (seeded (seedQueue (snd (buildMaps steps deps))))).
  - exists []. unfold initState; cbn [queue]. rewrite app_nil_r. reflexivity.
  - intros s _ _. apply seeded_step.
Qed.

(* position of an element in a filtered list *)
Lemma nth_error_filter_mid {A} (p : A -> bool) l1 a l2 :
  p a = true ->
  nth_error (filter p (l1 ++ a :: l2)) (length (filter p l1)) = Some a.
Proof.
  intros Ha. rewrite filter_app. cbn [filter]. rewrite Ha.
  rewrite nth_error_app2, Nat.sub_diag by lia. reflexivity.
Qed.
End OrderFacts.

(** * The first column *)

Section SeedFacts.
Import JsMap JsMapFacts.

Lemma filter_all {A} (p : A -> bool) l :
  (forall a, In a l -> p a = true) -> filter p l = l.
Proof.
  induction l as [|a l IH]; intros H; simpl; [reflexivity|].
  rewrite (H a (or_introl eq_refl)), IH; [reflexivity|].
  intros b Hb. apply H. right. exact Hb.
Qed.

Lemma filter_none {A} (p : A -> bool) l :
  (forall a, In a l -> p a = false) -> filter p l = [].
Proof.
  induction l as [|a l IH]; intros H; simpl; [reflexivity|].
  rewrite (H a (or_introl eq_refl)). apply IH.
  intros b Hb. apply H. right. exact Hb.
Qed.

Lemma NoDup_app_disjoint {A} (a b : list A) x :
  NoDup (a ++ b) -> In x a -> In x b -> False.
Proof.
  induction a as [|y a IH]; simpl; intros H Ha Hb; [contradiction|].
  inversion H as [|? ? Hy Hab]; subst. destruct Ha as [->|Ha].
  - apply Hy, in_or_app. right. exact Hb.
  - exact (IH Hab Ha Hb).
Qed.

Lemma filter_mem_prefix (a b : list Z) :
  NoDup (a ++ b) -> filter (fun i => mem i a) (a ++ b) = a.
Proof.
  intros H. rewrite filter_app, filter_all, filter_none.
  - apply app_nil_r.
  - intros x Hx. apply mem_false. intros Ha. exact (NoDup_app_disjoint _ _ _ H Ha Hx).
  - intros x Hx. apply mem_In. exact Hx.
Qed.

(* the seed read off the keys *)
Lemma seedQueue_keys (m : JsMap.t Z) :
  NoDup (keys m) ->
  seedQueue m
  = filter (fun k => match get m k with Some d => d =? 0 | None => false end) (keys m).
Proof.
  unfold seedQueue, keys. induction m as [|[k d] m IH]; intros H; [reflexivity|].
  inversion H as [|? ? Hk Hm]; subst. cbn [map filter fst snd get].
  rewrite Z.eqb_refl.
  assert (E : filter (fun k0 => match (if k =? k0 then Some d else get m k0) with
                                | Some d0 => d0 =? 0 | None => false end) (map fst m)
              = filter (fun k0 => match get m k0 with
                                  | Some d0 => d0 =? 0 | None => false end) (map fst m)).
  { apply filter_ext_in. intros u Hu.
    destruct (k =? u) eqn:Eu; [|reflexivity].
    apply Z.eqb_eq in Eu. subst u. contradiction. }
  cbn [get] in E |- *.
  destruct (d =? 0); cbn [map fst]; rewrite IH by exact Hm; rewrite <- E; reflexivity.
Qed.

Lemma keys_fold_initStep l : forall A D,
  NoDup (keys D ++ ids l) ->
  keys (snd (fold_left initStep l (A, D))) = keys D ++ ids l.
Proof.
  induction l as [|s l IH]; intros A D H; simpl.
  - rewrite app_nil_r. reflexivity.
  - unfold initStep at 2; cbn [fst snd].
    assert (Hs : get D (ProcessStep.id s) = None).
    { apply get_None_iff. intros Hin.
      apply (NoDup_app_disjoint _ _ (ProcessStep.id s) H Hin). left. reflexivity. }
    rewrite IH; rewrite (keys_set_absent _ _ _ Hs), <- app_assoc; [reflexivity | exact H].
Qed.

Lemma keys_fold_addDep l : forall A D,
  exists extras,
    keys (snd (fold_left addDep l (A, D))) = keys D ++ extras /\
    forall e, In e extras -> In e (map tgt l) /\ ~ In e (keys D).
Proof.
  induction l as [|d l IH]; intros A D; simpl.
  - exists []. rewrite app_nil_r. split; [reflexivity | intros e []].
  - unfold addDep at 2; cbn [fst snd].
    match goal with |- context [fold_left addDep l (?a, ?b)] =>
      destruct (IH a b) as (ex & E & Hex) end.
    rewrite E. destruct (get D (tgt d)) eqn:Eg.
    + rewrite keys_set_present by congruence.
      exists ex. split; [reflexivity|]. intros e He.
      destruct (Hex e He) as [H1 H2].
      rewrite keys_set_present in H2 by congruence. tauto.
    + rewrite (keys_set_absent _ _ _ Eg) in *.
      exists (tgt d :: ex). rewrite <- app_assoc. split; [reflexivity|].
      intros e [<-|He].
      * split; [left; reflexivity | apply get_None_iff; exact Eg].
      * destruct (Hex e He) as [H1 H2]. split; [right; exact H1|].
        intros Hin. apply H2, in_or_app. left. exact Hin.
Qed.

Variable steps : list ProcessStep.t.
Variable deps : list Dependency.t.

Lemma indegree_target t : In t (map tgt deps) -> 0 < indegree deps t.
Proof.
  intros H. apply in_map_iff in H. destruct H as (d & E & Hd).
  apply countZ_pos_iff. exists d. split; [exact Hd|]. apply Z.eqb_eq. exact E.
Qed.

Lemma indegree_zero_iff t :
  indegree deps t = 0 <-> forall d, In d deps -> tgt d <> t.
Proof.
  unfold indegree. rewrite countZ_zero_iff. split; intros H d Hd.
  - apply Z.eqb_neq. exact (H d Hd).
  - apply Z.eqb_neq. exact (H d Hd).
Qed.

(* with distinct node identifiers the seed is the list of roots *)
Lemma seedQueue_roots :
  NoDup (ids steps) -> seedQueue (snd (buildMaps steps deps)) = roots steps deps.
Proof.
  intros Hnd. rewrite seedQueue_keys by apply inDeg0_NoDup.
  assert (Ef : forall k,
             match get (snd (buildMaps steps deps)) k with
             | Some d => d =? 0 | None => false end
             = isKey steps deps k && (indegree deps k =? 0)).
  { intros k. rewrite inDeg0_get. unfold isKey. destruct (_ || _); reflexivity. }
  rewrite (filter_ext _ _ Ef).
  unfold buildMaps.
  rewrite (surjective_pairing (fold_left initStep steps (empty, empty))).
  destruct (keys_fold_addDep deps (fst (fold_left initStep steps (empty, empty)))
              (snd (fold_left initStep steps (empty, empty)))) as (ex & E & Hex).
  rewrite E. rewrite (keys_fold_initStep steps empty empty) in * by exact Hnd.
  cbn [keys empty map app] in *. rewrite filter_app.
  rewrite (filter_none _ ex).
  - rewrite app_nil_r. apply filter_ext_in. intros k Hk.
    unfold isKey. apply mem_In in Hk. rewrite Hk. reflexivity.
  - intros e He. destruct (Hex e He) as [Ht _].
    apply indegree_target in Ht.
    destruct (indegree deps e =? 0) eqn:E0; [|apply andb_false_r].
    apply Z.eqb_eq in E0. lia.
Qed.

Variable st : LoopState.
Hypothesis HI : Inv steps deps st.

Lemma level_unset_no_edge t :
  In t (queue st) -> get (level st) t = None -> indegree deps t = 0.
Proof.
  intros Ht Hl. apply indegree_zero_iff. intros d Hd E. subst t.
  destruct (queue_preds_done _ _ _ HI d Hd Ht) as [Hs Hp].
  exact (inv_lvl_none _ _ _ HI _ Hl d Hd eq_refl Hs Hp).
Qed.

Lemma no_edge_level_unset t : indegree deps t = 0 -> get (level st) t = None.
Proof.
  intros H0. destruct (get (level st) t) as [l|] eqn:El; [|reflexivity].
  destruct (inv_lvl_wit _ _ _ HI _ _ El) as (_ & d & Hd & E & _).
  exfalso. exact (proj1 (indegree_zero_iff t) H0 d Hd E).
Qed.

(* a dequeued identifier is at level 0 exactly when it was seeded *)
Lemma level_zero_iff_seed t :
  In t (queue st) ->
  (lev st t = 0 <-> In t (seedQueue (snd (buildMaps steps deps)))).
Proof.
  intros Ht. rewrite in_seedQueue. split.
  - intros H0. apply get_Some_In. rewrite inDeg0_get.
    destruct (queue_counter_zero _ _ _ HI t Ht) as (Hk & _). unfold isKey in Hk.
    rewrite Hk. f_equal. apply (level_unset_no_edge t Ht).
    unfold lev in H0. destruct (get (level st) t) as [l|] eqn:El; [|reflexivity].
    destruct (inv_lvl_wit _ _ _ HI _ _ El) as (Hl & _). cbn [orElse] in H0. lia.
  - intros Hin. apply (In_get _ _ _ (inDeg0_NoDup steps deps)) in Hin.
    rewrite inDeg0_get in Hin. destruct (_ || _); [|discriminate].
    injection Hin as Hin. unfold lev. rewrite (no_edge_level_unset t Hin). reflexivity.
Qed.

(* an identifier with a counter and no incoming edge is always queued *)
Lemma root_queued t :
  isKey steps deps t = true -> indegree deps t = 0 -> In t (queue st).
Proof.
  intros Hk H0. destruct (inv_queue _ _ _ HI) as (_ & Hq & _).
  pose proof (inv_deg _ _ _ HI t) as Hd. rewrite Hk in Hd.
  apply (Hq _ _ Hd).
  assert (E1 : ext steps deps t = 0).
  { apply countZ_zero_iff. intros d Hd'.
    destruct (tgt d =? t) eqn:E; [|reflexivity].
    apply Z.eqb_eq in E. exfalso. exact (proj1 (indegree_zero_iff t) H0 d Hd' E). }
  assert (E2 : pend steps deps (proc st) t = 0).
  { apply countZ_zero_iff. intros d Hd'.
    destruct (tgt d =? t) eqn:E; [|reflexivity].
    apply Z.eqb_eq in E. exfalso. exact (proj1 (indegree_zero_iff t) H0 d Hd' E). }
  lia.
Qed.

Hypothesis Hend : head st = length (queue st).
Hypothesis Hord : bucketsOrdered st.
Hypothesis Hseed : seeded (seedQueue (snd (buildMaps steps deps))) st.

Lemma bucket_zero :
  get (levelGroups st) 0 ?? [] = seedQueue (snd (buildMaps steps deps)).
Proof.
  destruct Hord as [Hb _]. rewrite Hb, (proc_final st Hend).
  rewrite (filter_ext_in _ (fun i => mem i (seedQueue (snd (buildMaps steps deps))))).
  - destruct Hseed as [rest E]. rewrite E. apply filter_mem_prefix.
    rewrite <- E. exact (queue_NoDup _ _ _ HI).
  - intros t Ht. pose proof (level_zero_iff_seed t Ht) as Hz.
    destruct (mem t _) eqn:Em.
    + apply mem_In in Em. apply Z.eqb_eq. tauto.
    + apply mem_false in Em. apply Z.eqb_neq. tauto.
Qed.
End SeedFacts.

(** * Levels without gaps *)

Section ColumnFacts.
Import JsMap JsMapFacts.
Variable steps : list ProcessStep.t.
Variable deps : list Dependency.t.
Variable st : LoopState.
Hypothesis HI : Inv steps deps st.

Lemma maxLevelOf_cases (lg : JsMap.t (list Z)) :
  maxLevelOf lg = 0 \/ In (maxLevelOf lg) (keys lg).
Proof.
  unfold maxLevelOf, keys. induction lg as [|[k g] lg IH]; simpl; [left; reflexivity|].
  destruct (Z.max_spec k (fold_right Z.max 0 (map fst lg))) as [[_ E]|[_ E]];
    rewrite E; tauto.
Qed.

(* below a dequeued identifier every level is populated *)
Lemma level_populated : forall n v,
  In v (queue st) -> lev st v = Z.of_nat n ->
  forall k, 0 <= k <= Z.of_nat n -> exists u, In u (queue st) /\ lev st u = k.
Proof.
  induction n as [|n IH]; intros v Hv El k Hk.
  - exists v. split; [exact Hv | lia].
  - destruct (Z.eq_dec k (Z.of_nat (S n))) as [->|Hne]; [exists v; tauto|].
    unfold lev in El. destruct (get (level st) v) as [l|] eqn:Eg; cbn [orElse] in El; [|lia].
    destruct (inv_lvl_wit _ _ _ HI _ _ Eg) as (_ & d & _ & _ & _ & Hp & E).
    apply (IH (src d)); [apply proc_in_queue; exact Hp | lia | lia].
Qed.

Lemma queued_is_node u :
  (forall d, In d deps -> In (tgt d) (ids steps)) ->
  In u (queue st) -> exists s, In s steps /\ ProcessStep.id s = u.
Proof.
  intros Ht Hu. destruct (queue_counter_zero _ _ _ HI u Hu) as (Hk & _).
  unfold isKey in Hk. apply orb_true_iff in Hk.
  assert (Hin : In u (ids steps)).
  { destruct Hk as [Hk|Hk]; apply mem_In in Hk; [exact Hk|].
    apply in_map_iff in Hk. destruct Hk as (d & <- & Hd). exact (Ht d Hd). }
  apply in_map_iff in Hin. destruct Hin as (s & E & Hs). eauto.
Qed.
End ColumnFacts.

(** * What the layout reads *)

Section ReadFacts.
Import JsMap.

Lemma fold_left_same {A B C} (f : A -> B -> A) (g : A -> C -> A)
  (p : B -> C) (l : list B) :
  (forall a b, f a b = g a (p b)) ->
  forall a, fold_left f l a = fold_left g (map p l) a.
Proof.
  intros H. induction l as [|b l IH]; intros a; simpl; [reflexivity|].
  rewrite H. apply IH.
Qed.

(* the loops of [buildLayout] written on what they read *)
Lemma buildMaps_reads steps deps :
  buildMaps steps deps
  = fold_left (fun acc e => addDep acc (edge (fst e) (snd e)))
      (map (fun d => (src d, tgt d)) deps)
      (fold_left (fun acc i => initStep acc (node i)) (ids steps) (empty, empty)).
Proof.
  unfold buildMaps, ids.
  rewrite (fold_left_same initStep (fun acc i => initStep acc (node i))
             ProcessStep.id steps) by reflexivity.
  apply (fold_left_same addDep (fun acc e => addDep acc (edge (fst e) (snd e)))
           (fun d => (src d, tgt d)) deps).
  reflexivity.
Qed.

Lemma place_reads steps st :
  place steps st
  = fst (fold_left (fun acc i => fallbackStep (maxLevelOf (levelGroups st)) acc (node i))
           (ids steps) (placeLevels (levelGroups st), 0)).
Proof.
  unfold place, ids. f_equal.
  apply (fold_left_same (fallbackStep (maxLevelOf (levelGroups st)))
           (fun acc i => fallbackStep (maxLevelOf (levelGroups st)) acc (node i))
           ProcessStep.id steps).
  reflexivity.
Qed.

End ReadFacts.

(** * Printed identifiers *)

Section StringFacts.
Import Ascii DecimalString.

(* distinct integers print differently *)
Lemma jsString_inj a b : jsString a = jsString b -> a = b.
Proof.
  unfold jsString. intros H.
  apply (f_equal NilEmpty.int_of_string) in H. rewrite !NilEmpty.isi in H.
  injection H as H.
  rewrite <- (DecimalZ.of_to a), <- (DecimalZ.of_to b), H. reflexivity.
Qed.

(* a run of digits ends at the first dash *)
Lemma uint_dash_split d : forall d' r r',
  (NilEmpty.string_of_uint d ++ String "-"%char r
   = NilEmpty.string_of_uint d' ++ String "-"%char r')%string ->
  d = d' /\ r = r'.
Proof.
  induction d; destruct d'; simpl; intros r r' H; try discriminate;
    try (injection H as H; destruct (IHd _ _ _ H) as [-> ->]; split; reflexivity).
  injection H as H. split; [reflexivity | exact H].
Qed.

Lemma to_int_nonnil z u : Z.to_int z = Decimal.Pos u -> u <> Decimal.Nil.
Proof.
  destruct z; simpl; intros [= <-]; [discriminate|].
  apply DecimalPos.Unsigned.to_uint_nonnil.
Qed.

(* a printed integer followed by a dash can be read back in one way only *)
Lemma jsString_dash_split a b r r' :
  (jsString a ++ String "-"%char r = jsString b ++ String "-"%char r')%string ->
  a = b /\ r = r'.
Proof.
  unfold jsString. intros H.
  assert (E : Z.to_int a = Z.to_int b /\ r = r').
  { destruct (Z.to_int a) as [u|u] eqn:Ea, (Z.to_int b) as [v|v] eqn:Eb;
      cbn [NilEmpty.string_of_int] in H.
    - destruct (uint_dash_split _ _ _ _ H) as [-> ->]. split; reflexivity.
    - exfalso. pose proof (to_int_nonnil _ _ Ea). destruct u; simpl in H;
        try discriminate; congruence.
    - exfalso. pose proof (to_int_nonnil _ _ Eb). destruct v; simpl in H;
        try discriminate; congruence.
    - simpl in H. injection H as H.
      destruct (uint_dash_split _ _ _ _ H) as [-> ->]. split; reflexivity. }
  destruct E as [E ->]. split; [|reflexivity].
  rewrite <- (DecimalZ.of_to a), <- (DecimalZ.of_to b), E. reflexivity.
Qed.

Lemma hasString_In set v : hasString set v = true <-> In v set.
Proof.
  unfold hasString. rewrite existsb_exists. split.
  - intros (w & Hw & E). apply String.eqb_eq in E. subst. exact Hw.
  - intros H. exists v. split; [exact H | apply String.eqb_refl].
Qed.
End StringFacts.

(** * The nodes and edges handed to React Flow *)

Section GraphFacts.
Variable props : WorkflowGraphProps.t.

Lemma nodes_unfold st fuel :
  traverse fuel (Process.steps (WorkflowGraph.process props))
    (Process.dependencies (WorkflowGraph.process props)) = Some st ->
  WorkflowGraph.nodes props
  = Some (map (WorkflowGraph.toNode props
                 (place (Process.steps (WorkflowGraph.process props)) st))
            (Process.steps (WorkflowGraph.process props))).
Proof.
  intros Ht. unfold WorkflowGraph.nodes.
  rewrite (buildLayout_traverse _ _ _ _ Ht). reflexivity.
Qed.

(* the layout has an entry for every step, so the origin default of
   [positions.get(s.id) ?? { x: 0, y: 0 }] is never taken *)
Lemma place_covers steps st s :
  In s steps -> exists p, JsMap.get (place steps st) (ProcessStep.id s) = Some p.
Proof.
  intros Hs.
  pose proof (fallback_covers (maxLevelOf (levelGroups st)) steps
                (placeLevels (levelGroups st)) 0 s Hs) as Hc.
  fold (place steps st) in Hc.
  destruct (JsMap.get (place steps st) (ProcessStep.id s)); [eauto | congruence].
Qed.

Lemma nodes_nth ns i n :
  WorkflowGraph.nodes props = Some ns -> nth_error ns i = Some n ->
  exists positions s p,
    buildLayout (Process.steps (WorkflowGraph.process props))
      (Process.dependencies (WorkflowGraph.process props)) = Some positions /\
    nth_error (Process.steps (WorkflowGraph.process props)) i = Some s /\
    n = WorkflowGraph.toNode props positions s /\
    JsMap.get positions (ProcessStep.id s) = Some p /\
    FlowNode.position n = p.
Proof.
  intros Hns Hn.
  destruct (traverse_total (Process.steps (WorkflowGraph.process props))
              (Process.dependencies (WorkflowGraph.process props)))
    as (st & Ht & _).
  rewrite (nodes_unfold _ _ Ht) in Hns. injection Hns as <-.
  rewrite nth_error_map in Hn.
  destruct (nth_error (Process.steps (WorkflowGraph.process props)) i)
    as [s|] eqn:Es; [|discriminate].
  injection Hn as <-.
  destruct (place_covers _ st s (nth_error_In _ _ Es)) as [p Hp].
  exists (place (Process.steps (WorkflowGraph.process props)) st), s, p.
  split; [eapply buildLayout_traverse; eauto|].
  split; [reflexivity|]. split; [reflexivity|]. split; [exact Hp|].
  unfold WorkflowGraph.toNode; cbn [FlowNode.position]. rewrite Hp. reflexivity.
Qed.

Lemma nodes_In ns n :
  WorkflowGraph.nodes props = Some ns -> In n ns ->
  exists positions s,
    In s (Process.steps (WorkflowGraph.process props)) /\
    n = WorkflowGraph.toNode props positions s.
Proof.
  intros Hns Hn. apply In_nth_error in Hn. destruct Hn as [i Hi].
  destruct (nodes_nth _ _ _ Hns Hi) as (pos & s & p & _ & Es & E & _).
  exists pos, s. split; [exact (nth_error_In _ _ Es) | exact E].
Qed.

Lemma nodes_cover ns s :
  WorkflowGraph.nodes props = Some ns ->
  In s (Process.steps (WorkflowGraph.process props)) ->
  exists positions, In (WorkflowGraph.toNode props positions s) ns.
Proof.
  intros Hns Hs.
  destruct (traverse_total (Process.steps (WorkflowGraph.process props))
              (Process.dependencies (WorkflowGraph.process props)))
    as (st & Ht & _).
  rewrite (nodes_unfold _ _ Ht) in Hns. injection Hns as <-.
  eexists. apply in_map. exact Hs.
Qed.
End GraphFacts.

(** * The simulation form *)

Section FormFacts.
Import SimulationForm.
Variable process : Process.t.
Variable externalRev : option Z.

Lemma selectionOK_init : selectionOK process (init process externalRev).
Proof.
  unfold selectionOK, init; cbn [stepId mergeTargetId].
  destruct (Process.steps process) as [|s0 [|s1 l]]; cbn.
  - split; right; split; (reflexivity || lia).
  - split; [left; left; reflexivity | right; split; (reflexivity || lia)].
  - split; left; auto.
Qed.

Lemma selectionOK_handle st ev :
  selectionOK process st -> rendered process st ev -> selectionOK process (handle st ev).
Proof.
  intros [H1 H2] Hr. destruct ev; cbn in *; unfold selectionOK; cbn; try tauto.
  destruct Hr as [_ Hv]. split; [exact H1|]. left.
  unfold otherSteps, ids in Hv. apply in_map_iff in Hv.
  destruct Hv as (s & <- & Hs). apply filter_In in Hs. apply in_map. tauto.
Qed.

Lemma selectionOK_run evs : forall st,
  selectionOK process st -> session process st evs -> selectionOK process (run st evs).
Proof.
  induction evs as [|ev evs IH]; intros st Hst Hs; [exact Hst|].
  destruct Hs as [Hr Hs]. apply IH; [apply selectionOK_handle; assumption | exact Hs].
Qed.

(* the optional fields of a request, read off the state *)
Lemma request_fields st :
  SimulationRequest.simulation_type (request st) = simType st /\
  SimulationRequest.step_id (request st) = stepId st /\
  SimulationRequest.duration_reduction_percent (request st)
    = (if simType_eqb (simType st) reduce_duration
       then Some (reductionPercent st) else None) /\
  SimulationRequest.resources_to_add (request st)
    = (if simType_eqb (simType st) add_resource
       then Some (resourcesToAdd st) else None) /\
  SimulationRequest.new_duration_minutes (request st)
    = (if simType_eqb (simType st) automate then Some (newDuration st) else None) /\
  SimulationRequest.new_cost_per_execution (request st)
    = (if simType_eqb (simType st) automate then Some (newCost st) else None) /\
  SimulationRequest.merge_target_step_id (request st)
    = (if simType_eqb (simType st) merge_steps
       then Some (mergeTargetId st) else None) /\
  SimulationRequest.implementation_cost (request st) = Some (implCost st) /\
  SimulationRequest.revenue_per_unit (request st) = Some (revenuePerUnit st).
Proof. unfold request. destruct (simType st); cbn; repeat split. Qed.

Lemma find_filter_split (k : Z) (l : list ProcessStep.t) :
  NoDup (ids l) -> In k (ids l) ->
  exists s,
    find (fun s => ProcessStep.id s =? k) l = Some s /\
    ProcessStep.id s = k /\
    Permutation (s :: filter (fun s => negb (ProcessStep.id s =? k)) l) l.
Proof.
  induction l as [|a l IH]; intros Hnd Hk; [contradiction|].
  cbn [ids map] in Hnd. inversion Hnd as [|? ? Ha Hl]; subst.
  cbn [find filter]. destruct (ProcessStep.id a =? k) eqn:E.
  - apply Z.eqb_eq in E. exists a. split; [reflexivity|]. split; [exact E|].
    cbn [negb]. rewrite filter_all; [apply Permutation_refl|].
    intros b Hb. apply negb_true_iff, Z.eqb_neq. intros Eb. apply Ha.
    rewrite E, <- Eb. apply in_map. exact Hb.
  - apply Z.eqb_neq in E. destruct Hk as [Hk|Hk]; [contradiction|].
    destruct (IH Hl Hk) as (s & Hf & Hs & Hp).
    exists s. split; [exact Hf|]. split; [exact Hs|]. cbn [negb].
    eapply perm_trans; [apply perm_swap|]. apply perm_skip. exact Hp.
Qed.
End FormFacts.

(** * The claims *)

(** C1 - Completeness: for every node list and edge list the layout exists
    and holds exactly one position entry for the identifier of each input
    node, whatever the cycles or dangling edges; an empty node list gives
    the empty map. *)
Theorem buildLayout_complete (steps : list ProcessStep.t) (deps : list Dependency.t) :
  exists pos,
    buildLayout steps deps = Some pos /\
    (forall s, In s steps ->
       (exists p, JsMap.get pos (ProcessStep.id s) = Some p) /\
       length (filter (fun e => fst e =? ProcessStep.id s) pos) = 1%nat) /\
    (steps = [] -> pos = JsMap.empty).
Proof.
  destruct (traverse_total steps deps) as (st & Ht & _).
  exists (place steps st). split; [|split].
  - eapply buildLayout_traverse; eauto.
  - intros s Hs.
    pose proof (fallback_covers (maxLevelOf (levelGroups st)) steps
                  (placeLevels (levelGroups st)) 0 s Hs) as Hc.
    fold (place steps st) in Hc. split.
    + destruct (JsMap.get (place steps st) (ProcessStep.id s)); [eauto|congruence].
    + apply count_key_one; [apply place_NoDup|].
      apply JsMapFacts.has_true_iff. unfold JsMap.has.
      destruct (JsMap.get (place steps st) (ProcessStep.id s)); congruence.
  - intros ->. pose proof (buildLayout_nil deps) as E.
    rewrite (buildLayout_traverse _ _ _ _ Ht) in E. congruence.
Qed.

Lemma buildLayout_complete_witness :
  exists pos,
    buildLayout (nodes [1; 2; 3]) (edges [(1, 2); (2, 3); (3, 2); (7, 1); (3, 9)])
      = Some pos /\
    (forall s, In s (nodes [1; 2; 3]) ->
       (exists p, JsMap.get pos (ProcessStep.id s) = Some p) /\
       length (filter (fun e => fst e =? ProcessStep.id s) pos) = 1%nat) /\
    (nodes [1; 2; 3] = [] -> pos = JsMap.empty).
Proof.
  exact (buildLayout_complete (nodes [1; 2; 3])
           (edges [(1, 2); (2, 3); (3, 2); (7, 1); (3, 9)])).
Defined.

(** C2 as stated fails: with nodes 1, 2, 3 and edges 1 -> 2, 2 -> 3, 3 -> 2
    the nodes 2 and 3 are input nodes reachable from the source 1, yet the
    edge 3 -> 2 goes from x = 520 to x = 260. *)
Lemma reachable_edge_points_left :
  exists steps deps d pos pu pv,
    In d deps /\ In (src d) (ids steps) /\ In (tgt d) (ids steps) /\
    reachableFromSource steps deps (src d) /\
    reachableFromSource steps deps (tgt d) /\
    buildLayout steps deps = Some pos /\
    JsMap.get pos (src d) = Some pu /\ JsMap.get pos (tgt d) = Some pv /\
    x pu = 520 /\ x pv = 260 /\ ~ x pu < x pv.
Proof.
  exists (nodes [1; 2; 3]), (edges [(1, 2); (2, 3); (3, 2)]), (edge 3 2).
  exists [(1, mkPosition 0 (-50)); (2, mkPosition 260 0); (3, mkPosition 520 0)].
  exists (mkPosition 520 0), (mkPosition 260 0).
  assert (Hsrc : isSource (nodes [1; 2; 3]) (edges [(1, 2); (2, 3); (3, 2)]) 1).
  { split; [simpl; auto | reflexivity]. }
  assert (W2 : walk (restricted (nodes [1; 2; 3]) (edges [(1, 2); (2, 3); (3, 2)]))
                 1 2 (0 + 1)).
  { apply (walk_step _ _ (edge 1 2)); [apply walk_refl | simpl; auto]. }
  split; [simpl; auto|]. split; [simpl; auto|]. split; [simpl; auto|].
  split.
  { exists 1, (0 + 1 + 1). split; [exact Hsrc|].
    apply (walk_step _ _ (edge 2 3)); [exact W2 | simpl; auto]. }
  split; [exists 1, (0 + 1); split; [exact Hsrc | exact W2]|].
  split; [vm_compute; reflexivity|].
  do 4 (split; [reflexivity|]). simpl. lia.
Qed.

(** C2 (amended) - Left-to-right causality: for every edge (u, v) whose two
    endpoints are dequeued by the traversal, level(v) > level(u), both are
    placed in the column of their level, and x(u) < x(v). *)
Theorem dequeued_edges_point_right (steps : list ProcessStep.t)
  (deps : list Dependency.t) (fuel : nat) (st : LoopState) (d : Dependency.t) :
  traverse fuel steps deps = Some st ->
  In d deps -> In (src d) (queue st) -> In (tgt d) (queue st) ->
  lev st (src d) < lev st (tgt d) /\
  exists pu pv,
    buildLayout steps deps = Some (place steps st) /\
    JsMap.get (place steps st) (src d) = Some pu /\
    JsMap.get (place steps st) (tgt d) = Some pv /\
    x pu = lev st (src d) * (NODE_W + GAP_X) /\
    x pv = lev st (tgt d) * (NODE_W + GAP_X) /\
    x pu < x pv.
Proof.
  intros Ht Hd Hu Hv. destruct (traverse_inv _ _ _ _ Ht) as [HI Hend].
  destruct (dequeued_edge _ _ _ HI d Hd Hv) as (_ & _ & Hl).
  split; [lia|].
  destruct (place_dequeued steps _ _ HI Hend _ Hu) as (gu & ju & _ & _ & Eu).
  destruct (place_dequeued steps _ _ HI Hend _ Hv) as (gv & jv & _ & _ & Ev).
  eexists _, _. split; [eapply buildLayout_traverse; eauto|].
  split; [exact Eu|]. split; [exact Ev|].
  unfold bucketPos; cbn [x]. unfold NODE_W, GAP_X.
  split; [reflexivity|]. split; [reflexivity|]. lia.
Qed.

Lemma dequeued_edges_point_right_witness :
  lev diamondState (src (edge 2 4)) < lev diamondState (tgt (edge 2 4)) /\
  exists pu pv,
    buildLayout diamondNodes diamondEdges = Some (place diamondNodes diamondState) /\
    JsMap.get (place diamondNodes diamondState) (src (edge 2 4)) = Some pu /\
    JsMap.get (place diamondNodes diamondState) (tgt (edge 2 4)) = Some pv /\
    x pu = lev diamondState (src (edge 2 4)) * (NODE_W + GAP_X) /\
    x pv = lev diamondState (tgt (edge 2 4)) * (NODE_W + GAP_X) /\
    x pu < x pv.
Proof.
  apply (dequeued_edges_point_right diamondNodes diamondEdges 8 diamondState
           (edge 2 4)).
  - vm_compute. reflexivity.
  - simpl. auto.
  - simpl. auto.
  - simpl. auto.
Defined.

(** C3 - Malformed-edge tolerance does not hold of the code.  Take the
    single node 1 with the edges 99 -> 1 and 1 -> 98, both malformed.  For
    the edge 99 -> 1 the adjacency push is skipped, 99 having no adjacency
    list, yet the very next statement counts the edge in the in-degree of
    node 1; the edge 1 -> 98 enters the adjacency list of node 1 and gives
    98 a counter.  Node 1 starts with counter 1, nothing is ever dequeued,
    and the fallback puts node 1 at (260, 0); with the malformed edges
    removed it is dequeued at level 0 and placed at (0, -50). *)
Theorem dangling_source_changes_level :
  restricted (nodes [1]) (edges [(99, 1); (1, 98)]) = [] /\
  JsMap.get (fst (buildMaps (nodes [1]) (edges [(99, 1); (1, 98)]))) 99 = None /\
  JsMap.get (fst (buildMaps (nodes [1]) (edges [(99, 1); (1, 98)]))) 1 = Some [98] /\
  JsMap.get (snd (buildMaps (nodes [1]) (edges [(99, 1); (1, 98)]))) 1 = Some 1 /\
  JsMap.get (snd (buildMaps (nodes [1]) (edges [(99, 1); (1, 98)]))) 98 = Some 1 /\
  JsMap.get (fst (buildMaps (nodes [1]) [])) 1 = Some [] /\
  JsMap.get (snd (buildMaps (nodes [1]) [])) 1 = Some 0 /\
  traverse 3 (nodes [1]) (edges [(99, 1); (1, 98)])
    = Some (mkLoopState [] 0 [(1, 1); (98, 1)] [] []) /\
  traverse 3 (nodes [1]) [] = Some (mkLoopState [1] 1 [(1, 0)] [] [(0, [1])]) /\
  lev (mkLoopState [1] 1 [(1, 0)] [] [(0, [1])]) 1 = 0 /\
  buildLayout (nodes [1]) (edges [(99, 1); (1, 98)])
    = Some [(1, mkPosition 260 0)] /\
  buildLayout (nodes [1]) (restricted (nodes [1]) (edges [(99, 1); (1, 98)]))
    = Some [(1, mkPosition 0 (-50))] /\
  x (mkPosition 260 0) = 1 * (NODE_W + GAP_X) /\
  x (mkPosition 0 (-50)) = 0 * (NODE_W + GAP_X).
Proof. repeat split; vm_compute; reflexivity. Qed.

(** C4 - Termination and totality: for every input the while loop stops
    within the budget (and any larger one gives the same state), every
    identifier is enqueued at most once and every queued identifier is
    dequeued, and the layout holds a position for every input node.  This
    covers the two-node cycle A -> B, B -> A. *)
Theorem buildLayout_terminates (steps : list ProcessStep.t) (deps : list Dependency.t) :
  exists st pos,
    traverse (length steps + length deps) steps deps = Some st /\
    (forall fuel, (length steps + length deps <= fuel)%nat ->
       traverse fuel steps deps = Some st) /\
    NoDup (queue st) /\ head st = length (queue st) /\
    buildLayout steps deps = Some pos /\
    (forall s, In s steps -> JsMap.get pos (ProcessStep.id s) <> None).
Proof.
  destruct (traverse_total steps deps) as (st & Ht & HI & Hh).
  exists st, (place steps st). repeat split.
  - exact Ht.
  - intros fuel Hf. eapply traverse_fuel_mono; eauto.
  - destruct (inv_queue _ _ _ HI) as [H _]. exact H.
  - exact Hh.
  - eapply buildLayout_traverse; eauto.
  - intros s Hs. apply (fallback_covers _ steps _ 0 s Hs).
Qed.

Lemma buildLayout_terminates_witness :
  exists st pos,
    traverse 4 (nodes [1; 2]) (edges [(1, 2); (2, 1)]) = Some st /\
    (forall fuel, (4 <= fuel)%nat ->
       traverse fuel (nodes [1; 2]) (edges [(1, 2); (2, 1)]) = Some st) /\
    NoDup (queue st) /\ head st = length (queue st) /\
    buildLayout (nodes [1; 2]) (edges [(1, 2); (2, 1)]) = Some pos /\
    (forall s, In s (nodes [1; 2]) -> JsMap.get pos (ProcessStep.id s) <> None).
Proof.
  exact (buildLayout_terminates (nodes [1; 2]) (edges [(1, 2); (2, 1)])).
Defined.

(** C5 - Longest-path levels: an input node that the traversal dequeues
    sits in the bucket of its level, and that level is the number of edges of
    the longest path from an in-degree-0 source to it in the graph restricted
    to the input nodes: such a path of that length exists, no path from a
    source (or from anywhere) into the node is longer, and levels strictly
    grow along every path into it, so these paths never repeat a node. *)
Theorem level_is_longest_path (steps : list ProcessStep.t)
  (deps : list Dependency.t) (fuel : nat) (st : LoopState) (v : Z) :
  traverse fuel steps deps = Some st ->
  In v (ids steps) -> In v (queue st) ->
  (exists g, JsMap.get (levelGroups st) (lev st v) = Some g /\ In v g) /\
  (exists s, isSource steps deps s /\
             walk (restricted steps deps) s v (lev st v)) /\
  (forall s n, isSource steps deps s ->
               walk (restricted steps deps) s v n -> n <= lev st v) /\
  (forall a n, walk (restricted steps deps) a v n ->
               0 <= n /\ lev st a + n <= lev st v).
Proof.
  intros Ht Hv Hq. destruct (traverse_inv _ _ _ _ Ht) as [HI Hend].
  destruct (level_longest _ _ _ HI Hend v Hv Hq) as [Hex Hub].
  split; [apply (queue_member_group _ _ _ HI Hend); exact Hq|].
  split; [exact Hex|]. split.
  - intros s n _ Hw. apply (Hub s n Hw).
  - intros a n Hw. destruct (Hub a n Hw) as (H0 & H1 & _). tauto.
Qed.

Lemma level_is_longest_path_witness :
  (exists g, JsMap.get (levelGroups diamondState) (lev diamondState 4) = Some g /\
             In 4 g) /\
  (exists s, isSource diamondNodes diamondEdges s /\
             walk (restricted diamondNodes diamondEdges) s 4 (lev diamondState 4)) /\
  (forall s n, isSource diamondNodes diamondEdges s ->
               walk (restricted diamondNodes diamondEdges) s 4 n ->
               n <= lev diamondState 4) /\
  (forall a n, walk (restricted diamondNodes diamondEdges) a 4 n ->
               0 <= n /\ lev diamondState a + n <= lev diamondState 4).
Proof.
  apply (level_is_longest_path diamondNodes diamondEdges 8 diamondState 4).
  - vm_compute. reflexivity.
  - simpl. auto.
  - simpl. auto.
Defined.

(** C6 - Same-level non-overlap: the [i]-th node of a level bucket of [n]
    nodes sits at x = lvl * (W + Gx), y = i * (H + Gy) - T / 2 with
    T = n * (H + Gy) - Gy; two distinct nodes of one bucket are at least
    H + Gy apart in y; nodes of different buckets, and more generally any two
    placed nodes in different columns, are at least W + Gx apart in x; and
    the stack of a bucket spans from -T/2 to T/2, centered on y = 0
    (H = 100, W = 200, Gx = Gy = 60). *)
Theorem same_level_spacing (steps : list ProcessStep.t) (deps : list Dependency.t)
  (fuel : nat) (st : LoopState) (lvl : Z) (g : list Z) :
  traverse fuel steps deps = Some st ->
  JsMap.get (levelGroups st) lvl = Some g ->
  let pos := place steps st in
  let T := Z.of_nat (length g) * (NODE_H + GAP_Y) - GAP_Y in
  buildLayout steps deps = Some pos /\
  (forall i k, nth_error g i = Some k ->
     JsMap.get pos k
       = Some (mkPosition (lvl * (NODE_W + GAP_X))
                          (Z.of_nat i * (NODE_H + GAP_Y) - T / 2))) /\
  (forall a b pa pb, In a g -> In b g -> a <> b ->
     JsMap.get pos a = Some pa -> JsMap.get pos b = Some pb ->
     NODE_H + GAP_Y <= Z.abs (y pa - y pb)) /\
  (forall lvl' g' a b pa pb,
     JsMap.get (levelGroups st) lvl' = Some g' -> lvl <> lvl' ->
     In a g -> In b g' ->
     JsMap.get pos a = Some pa -> JsMap.get pos b = Some pb ->
     NODE_W + GAP_X <= Z.abs (x pa - x pb)) /\
  (forall k1 k2 p1 p2,
     JsMap.get pos k1 = Some p1 -> JsMap.get pos k2 = Some p2 ->
     x p1 <> x p2 -> NODE_W + GAP_X <= Z.abs (x p1 - x p2)) /\
  (forall k0 kl p0 pl,
     nth_error g 0 = Some k0 -> nth_error g (length g - 1) = Some kl ->
     JsMap.get pos k0 = Some p0 -> JsMap.get pos kl = Some pl ->
     y p0 = - (T / 2) /\ y pl + NODE_H = T / 2 /\ 2 * (T / 2) = T) /\
  NODE_H = 100 /\ NODE_W = 200 /\ GAP_X = 60 /\ GAP_Y = 60.
Proof.
  intros Ht Hg pos T. destruct (traverse_inv _ _ _ _ Ht) as [HI Hend].
  assert (Hpos : forall lv gr i k, JsMap.get (levelGroups st) lv = Some gr ->
            nth_error gr i = Some k ->
            JsMap.get pos k = Some (bucketPos lv i (length gr)))
    by (intros; eapply place_bucket; eauto).
  split; [eapply buildLayout_traverse; eauto|].
  split; [intros i k Hi; exact (Hpos _ _ _ _ Hg Hi)|].
  split; [|split; [|split; [|split]]].
  - intros a b pa pb Ha Hb Hab Ea Eb.
    apply In_nth_error in Ha, Hb. destruct Ha as [i Hi], Hb as [j Hj].
    rewrite (Hpos _ _ _ _ Hg Hi) in Ea. rewrite (Hpos _ _ _ _ Hg Hj) in Eb.
    injection Ea as <-. injection Eb as <-. unfold bucketPos; cbn [y].
    assert (i <> j) by (intros ->; congruence).
    unfold NODE_H, GAP_Y. lia.
  - intros lvl' g' a b pa pb Hg' Hne Ha Hb Ea Eb.
    apply In_nth_error in Ha, Hb. destruct Ha as [i Hi], Hb as [j Hj].
    rewrite (Hpos _ _ _ _ Hg Hi) in Ea. rewrite (Hpos _ _ _ _ Hg' Hj) in Eb.
    injection Ea as <-. injection Eb as <-. unfold bucketPos; cbn [x].
    unfold NODE_W, GAP_X. lia.
  - intros k1 k2 p1 p2 E1 E2 Hne.
    destruct (place_grid _ _ _ HI Hend _ _ E1) as [c1 H1].
    destruct (place_grid _ _ _ HI Hend _ _ E2) as [c2 H2].
    unfold NODE_W, GAP_X in *. lia.
  - intros k0 kl p0 pl H0 Hl E0 El.
    rewrite (Hpos _ _ _ _ Hg H0) in E0. rewrite (Hpos _ _ _ _ Hg Hl) in El.
    injection E0 as <-. injection El as <-. unfold bucketPos; cbn [y].
    fold T. unfold T. rewrite totalH_half.
    assert (length g <> 0)%nat by (destruct g; [discriminate | simpl; lia]).
    unfold NODE_H, GAP_Y. lia.
  - repeat split.
Qed.

Lemma same_level_spacing_witness :
  let steps := nodes [1; 2; 3; 4] in
  let deps := edges [(1, 2); (1, 3); (2, 4); (3, 4)] in
  let st := mkLoopState [1; 2; 3; 4] 4 [(1, 0); (2, 0); (3, 0); (4, 0)]
              [(2, 1); (3, 1); (4, 2)] [(0, [1]); (1, [2; 3]); (2, [4])] in
  let g := [2; 3] in
  let pos := place steps st in
  let T := Z.of_nat (length g) * (NODE_H + GAP_Y) - GAP_Y in
  buildLayout steps deps = Some pos /\
  (forall i k, nth_error g i = Some k ->
     JsMap.get pos k
       = Some (mkPosition (1 * (NODE_W + GAP_X))
                          (Z.of_nat i * (NODE_H + GAP_Y) - T / 2))) /\
  (forall a b pa pb, In a g -> In b g -> a <> b ->
     JsMap.get pos a = Some pa -> JsMap.get pos b = Some pb ->
     NODE_H + GAP_Y <= Z.abs (y pa - y pb)) /\
  (forall lvl' g' a b pa pb,
     JsMap.get (levelGroups st) lvl' = Some g' -> 1 <> lvl' ->
     In a g -> In b g' ->
     JsMap.get pos a = Some pa -> JsMap.get pos b = Some pb ->
     NODE_W + GAP_X <= Z.abs (x pa - x pb)) /\
  (forall k1 k2 p1 p2,
     JsMap.get pos k1 = Some p1 -> JsMap.get pos k2 = Some p2 ->
     x p1 <> x p2 -> NODE_W + GAP_X <= Z.abs (x p1 - x p2)) /\
  (forall k0 kl p0 pl,
     nth_error g 0 = Some k0 -> nth_error g (length g - 1) = Some kl ->
     JsMap.get pos k0 = Some p0 -> JsMap.get pos kl = Some pl ->
     y p0 = - (T / 2) /\ y pl + NODE_H = T / 2 /\ 2 * (T / 2) = T) /\
  NODE_H = 100 /\ NODE_W = 200 /\ GAP_X = 60 /\ GAP_Y = 60.
Proof.
  apply (same_level_spacing (nodes [1; 2; 3; 4])
           (edges [(1, 2); (1, 3); (2, 4); (3, 4)]) 8 _ 1 [2; 3]);
    reflexivity.
Defined.

(** C7 as stated fails in its last part: on the identifiers 1, 2, 3, 4 the
    y-coordinates of B and C are -130 and 30, which are not opposite
    numbers. *)
Lemma diamond_y_not_opposite :
  exists pos pB pC,
    buildLayout diamondNodes diamondEdges = Some pos /\
    JsMap.get pos 2 = Some pB /\ JsMap.get pos 3 = Some pC /\
    y pB = -130 /\ y pC = 30 /\ y pB <> - y pC.
Proof.
  exists diamondPositions, (mkPosition 260 (-130)), (mkPosition 260 30).
  split; [vm_compute; reflexivity|].
  repeat (split; [reflexivity|]). discriminate.
Qed.

(** C7 (amended) - Diamond scenario: for any four nodes A, B, C, D with
    distinct identifiers and the edges A -> B, A -> C, B -> D, C -> D the
    levels are A=0, B=1, C=1, D=2; x(A) = 0, x(B) = x(C) = W + Gx,
    x(D) = 2 (W + Gx); B and C are H + Gy apart and their vertical extents
    [y, y + H] mirror each other about y = 0. *)
Theorem diamond_layout (sA sB sC sD : ProcessStep.t) (i1 i2 i3 i4 : Z) :
  let a := ProcessStep.id sA in
  let b := ProcessStep.id sB in
  let c := ProcessStep.id sC in
  let d := ProcessStep.id sD in
  let steps := diamondSteps sA sB sC sD in
  let deps := diamondDeps a b c d i1 i2 i3 i4 in
  NoDup [a; b; c; d] ->
  exists st pos pA pB pC pD,
    traverse 8 steps deps = Some st /\
    levelGroups st = [(0, [a]); (1, [b; c]); (2, [d])] /\
    lev st a = 0 /\ lev st b = 1 /\ lev st c = 1 /\ lev st d = 2 /\
    buildLayout steps deps = Some pos /\
    JsMap.get pos a = Some pA /\ JsMap.get pos b = Some pB /\
    JsMap.get pos c = Some pC /\ JsMap.get pos d = Some pD /\
    x pA = 0 /\ x pB = NODE_W + GAP_X /\ x pC = NODE_W + GAP_X /\
    x pD = 2 * (NODE_W + GAP_X) /\
    NODE_H + GAP_Y <= Z.abs (y pB - y pC) /\
    y pB = - (y pC + NODE_H).
Proof.
  intros a b c d steps deps Hnd.
  destruct (diamond_lev sA sB sC sD Hnd) as (La & Lb & Lc & Ld).
  destruct (diamond_positions sA sB sC sD Hnd) as (Pa & Pb & Pc & Pd).
  exists (diamondFinal a b c d), (diamondPlaced a b c d), (mkPosition 0 (-50)),
    (mkPosition 260 (-130)), (mkPosition 260 30), (mkPosition 520 (-50)).
  split; [exact (diamond_traverse sA sB sC sD i1 i2 i3 i4 Hnd)|].
  split; [reflexivity|].
  split; [exact La|]. split; [exact Lb|]. split; [exact Lc|]. split; [exact Ld|].
  split; [exact (diamond_buildLayout sA sB sC sD i1 i2 i3 i4 Hnd)|].
  split; [exact Pa|]. split; [exact Pb|]. split; [exact Pc|]. split; [exact Pd|].
  do 4 (split; [reflexivity|]).
  split; [vm_compute; discriminate | reflexivity].
Qed.

Lemma diamond_layout_witness :
  exists st pos pA pB pC pD,
    traverse 8 (diamondSteps (node 1) (node 2) (node 3) (node 4))
      (diamondDeps 1 2 3 4 0 0 0 0) = Some st /\
    levelGroups st = [(0, [1]); (1, [2; 3]); (2, [4])] /\
    lev st 1 = 0 /\ lev st 2 = 1 /\ lev st 3 = 1 /\ lev st 4 = 2 /\
    buildLayout (diamondSteps (node 1) (node 2) (node 3) (node 4))
      (diamondDeps 1 2 3 4 0 0 0 0) = Some pos /\
    JsMap.get pos 1 = Some pA /\ JsMap.get pos 2 = Some pB /\
    JsMap.get pos 3 = Some pC /\ JsMap.get pos 4 = Some pD /\
    x pA = 0 /\ x pB = NODE_W + GAP_X /\ x pC = NODE_W + GAP_X /\
    x pD = 2 * (NODE_W + GAP_X) /\
    NODE_H + GAP_Y <= Z.abs (y pB - y pC) /\
    y pB = - (y pC + NODE_H).
Proof.
  apply (diamond_layout (node 1) (node 2) (node 3) (node 4) 0 0 0 0).
  repeat constructor; simpl; intuition discriminate.
Defined.

(** C8 - Fallback placement: an input node the main loop never dequeues
    (its counter stays positive) is placed, at its first occurrence in the
    input order, on y = 0 in column maxLevel + 1 + r, where r counts the
    distinct undequeued identifiers met before it: one more than the largest
    column used so far, hence strictly right of every column of the main
    traversal. *)
Theorem fallback_placement (steps : list ProcessStep.t) (deps : list Dependency.t)
  (fuel : nat) (st : LoopState) (pre post : list ProcessStep.t) (s : ProcessStep.t) :
  traverse fuel steps deps = Some st ->
  steps = pre ++ s :: post ->
  ~ In (ProcessStep.id s) (ids pre) ->
  ~ In (ProcessStep.id s) (queue st) ->
  let maxLevel := maxLevelOf (levelGroups st) in
  let r := Z.of_nat (length (nodup Z.eq_dec
             (filter (fun k => negb (mem k (queue st))) (ids pre)))) in
  let pos := place steps st in
  buildLayout steps deps = Some pos /\
  (exists d, JsMap.get (inDeg st) (ProcessStep.id s) = Some d /\ 0 < d) /\
  JsMap.get pos (ProcessStep.id s)
    = Some (mkPosition ((maxLevel + 1 + r) * (NODE_W + GAP_X)) 0) /\
  (forall k p, In k (queue st) -> JsMap.get pos k = Some p ->
     x p <= maxLevel * (NODE_W + GAP_X) /\
     x p < (maxLevel + 1 + r) * (NODE_W + GAP_X)).
Proof.
  intros Ht Hsteps Hpre Hq maxLevel r pos.
  destruct (traverse_inv _ _ _ _ Ht) as [HI Hend].
  split; [eapply buildLayout_traverse; eauto|].
  split.
  { apply (not_queued_counter _ _ _ HI); [|exact Hq].
    unfold isKey. apply orb_true_iff. left. apply mem_In.
    rewrite Hsteps. unfold ids. rewrite map_app. apply in_or_app.
    right. left. reflexivity. }
  split.
  - unfold pos, place. rewrite Hsteps. fold maxLevel.
    rewrite fallback_first.
    + unfold unplaced, r.
      rewrite (filter_ext _ (fun k => negb (mem k (queue st)))); [reflexivity|].
      intros k. rewrite (placeLevels_has _ _ _ HI Hend). reflexivity.
    + exact Hpre.
    + pose proof (placeLevels_has _ _ _ HI Hend (ProcessStep.id s)) as E.
      apply mem_false in Hq. rewrite Hq in E. unfold JsMap.has in E.
      destruct (JsMap.get _ _); [discriminate | reflexivity].
  - intros k p Hk Hp.
    destruct (place_dequeued steps _ _ HI Hend k Hk) as (g & j & _ & _ & E).
    fold pos in E. rewrite Hp in E. injection E as ->.
    unfold bucketPos; cbn [x].
    pose proof (lev_le_maxLevel _ _ _ HI Hend k Hk). fold maxLevel in H.
    unfold NODE_W, GAP_X, r. lia.
Qed.

Lemma fallback_placement_witness :
  let steps := nodes [1; 2; 3] in
  let deps := edges [(1, 2); (2, 3); (3, 2)] in
  let st := mkLoopState [1] 1 [(1, 0); (2, 1); (3, 1)] [(2, 1)] [(0, [1])] in
  let maxLevel := maxLevelOf (levelGroups st) in
  let r := Z.of_nat (length (nodup Z.eq_dec
             (filter (fun k => negb (mem k (queue st))) (ids [node 1; node 2])))) in
  let pos := place steps st in
  buildLayout steps deps = Some pos /\
  (exists d, JsMap.get (inDeg st) (ProcessStep.id (node 3)) = Some d /\ 0 < d) /\
  JsMap.get pos (ProcessStep.id (node 3))
    = Some (mkPosition ((maxLevel + 1 + r) * (NODE_W + GAP_X)) 0) /\
  (forall k p, In k (queue st) -> JsMap.get pos k = Some p ->
     x p <= maxLevel * (NODE_W + GAP_X) /\
     x p < (maxLevel + 1 + r) * (NODE_W + GAP_X)).
Proof.
  apply (fallback_placement (nodes [1; 2; 3]) (edges [(1, 2); (2, 3); (3, 2)]) 6
           (mkLoopState [1] 1 [(1, 0); (2, 1); (3, 1)] [(2, 1)] [(0, [1])])
           [node 1; node 2] [] (node 3)).
  - reflexivity.
  - reflexivity.
  - simpl. intuition discriminate.
  - simpl. intuition discriminate.
Defined.

(** C9 - Global non-overlap: when the node identifiers are pairwise
    distinct, any two distinct entries of the returned map (bucket or
    fallback) are at least W + Gx apart in x or at least H + Gy apart in y;
    so they have different keys and different positions. *)
Theorem positions_do_not_overlap (steps : list ProcessStep.t)
  (deps : list Dependency.t) (pos : JsMap.t Position) (e1 e2 : Z * Position) :
  NoDup (ids steps) ->
  buildLayout steps deps = Some pos ->
  In e1 pos -> In e2 pos -> e1 <> e2 ->
  (NODE_W + GAP_X <= Z.abs (x (snd e1) - x (snd e2)) \/
   NODE_H + GAP_Y <= Z.abs (y (snd e1) - y (snd e2))) /\
  fst e1 <> fst e2 /\ snd e1 <> snd e2.
Proof.
  intros _ Hb H1 H2 Hne.
  destruct (traverse_total steps deps) as (st & Ht & HI & Hend).
  rewrite (buildLayout_traverse _ _ _ _ Ht) in Hb. injection Hb as <-.
  destruct e1 as [k1 p1], e2 as [k2 p2]. cbn [fst snd].
  pose proof (place_NoDup steps st) as Hnd.
  apply (JsMapFacts.In_get _ _ _ Hnd) in H1, H2.
  assert (Hk : k1 <> k2) by (intros ->; apply Hne; congruence).
  pose proof (place_separated _ _ _ HI Hend _ _ _ _ Hk H1 H2) as Hs.
  split; [exact Hs|]. split; [exact Hk|].
  intros ->. unfold separated, NODE_W, GAP_X, NODE_H, GAP_Y in Hs. lia.
Qed.

Lemma positions_do_not_overlap_witness :
  (NODE_W + GAP_X <= Z.abs (260 - 520) \/ NODE_H + GAP_Y <= Z.abs (0 - 0)) /\
  2 <> 3 /\ mkPosition 260 0 <> mkPosition 520 0.
Proof.
  apply (positions_do_not_overlap (nodes [1; 2; 3])
           (edges [(1, 2); (2, 3); (3, 2)])
           [(1, mkPosition 0 (-50)); (2, mkPosition 260 0); (3, mkPosition 520 0)]
           (2, mkPosition 260 0) (3, mkPosition 520 0)).
  - repeat constructor; simpl; intuition discriminate.
  - reflexivity.
  - simpl; auto.
  - simpl; auto.
  - discriminate.
Defined.

(** C10 as stated fails: take the single node 1 with the edges 1 -> 99 and
    7 -> 99.  The source 1 of the first edge is an input node and is
    dequeued, and 99 is no input node; but the edge loop gave 99 the counter
    2, the relaxation from node 1 leaves it at 1, and 99 is never enqueued:
    the layout has no entry for it. *)
Lemma dangling_target_not_positioned :
  In (edge 1 99) (edges [(1, 99); (7, 99)]) /\
  In (src (edge 1 99)) (ids (nodes [1])) /\
  ~ In (tgt (edge 1 99)) (ids (nodes [1])) /\
  JsMap.get (snd (buildMaps (nodes [1]) (edges [(1, 99); (7, 99)]))) 99 = Some 2 /\
  traverse 3 (nodes [1]) (edges [(1, 99); (7, 99)])
    = Some (mkLoopState [1] 1 [(1, 0); (99, 1)] [(99, 1)] [(0, [1])]) /\
  In (src (edge 1 99)) (queue (mkLoopState [1] 1 [(1, 0); (99, 1)] [(99, 1)] [(0, [1])])) /\
  ~ In (tgt (edge 1 99))
       (queue (mkLoopState [1] 1 [(1, 0); (99, 1)] [(99, 1)] [(0, [1])])) /\
  buildLayout (nodes [1]) (edges [(1, 99); (7, 99)])
    = Some [(1, mkPosition 0 (-50))] /\
  JsMap.get [(1, mkPosition 0 (-50))] (tgt (edge 1 99)) = None.
Proof.
  split; [left; reflexivity|].
  split; [left; reflexivity|].
  split; [vm_compute; intuition discriminate|].
  split; [vm_compute; reflexivity|].
  split; [vm_compute; reflexivity|].
  split; [left; reflexivity|].
  split; [vm_compute; intuition discriminate|].
  split; vm_compute; reflexivity.
Qed.

(** C10 (amended) - Dangling target: the returned map can hold an entry for
    an identifier that is no input node.  Such an identifier is enqueued,
    leveled and positioned exactly when it is an edge target all of whose
    incoming edges come from dequeued input nodes, and has no entry
    otherwise; its counter is the one the edge loop created, holding the
    number of its incoming edges.  It happens: with nodes 1, 2 and edges
    1 -> 2, 1 -> 99 the identifier 99 is enqueued once its source 1 is
    dequeued, gets level 1 and a position; sharing the bucket of node 2 it
    moves node 2 from y = -50 (layout without the edge) to y = -130. *)
Theorem dangling_target_is_positioned :
  (forall steps deps fuel st k,
     traverse fuel steps deps = Some st -> ~ In k (ids steps) ->
     (In k (queue st) <->
      In k (map tgt deps) /\
      forall d, In d deps -> tgt d = k ->
                In (src d) (ids steps) /\ In (src d) (queue st)) /\
     (In k (queue st) ->
      exists g j, JsMap.get (levelGroups st) (lev st k) = Some g /\
                  nth_error g j = Some k /\
                  JsMap.get (place steps st) k
                    = Some (bucketPos (lev st k) j (length g))) /\
     (~ In k (queue st) -> JsMap.get (place steps st) k = None) /\
     (In k (map tgt deps) ->
      JsMap.get (snd (buildMaps steps deps)) k = Some (indegree deps k) /\
      0 < indegree deps k)) /\
  exists steps deps deps' d st pos pos' p,
    ~ In 99 (ids steps) /\
    In d deps /\ tgt d = 99 /\ In (src d) (ids steps) /\
    traverse 4 steps deps = Some st /\
    In (src d) (queue st) /\ In 99 (queue st) /\
    JsMap.get (level st) 99 = Some 1 /\
    JsMap.get (levelGroups st) 1 = Some [2; 99] /\
    buildLayout steps deps = Some pos /\
    JsMap.get pos 99 = Some p /\ p = mkPosition 260 30 /\
    JsMap.get pos 2 = Some (mkPosition 260 (-130)) /\
    deps' = filter (fun e => mem (tgt e) (ids steps)) deps /\
    buildLayout steps deps' = Some pos' /\
    JsMap.get pos' 2 = Some (mkPosition 260 (-50)) /\
    JsMap.get pos' 99 = None.
Proof.
  split.
  { intros steps deps fuel st k Ht Hk.
    destruct (traverse_inv _ _ _ _ Ht) as [HI Hend].
    split; [exact (stranger_queued_iff _ _ _ HI Hend k Hk)|].
    split; [apply (place_dequeued steps _ _ HI Hend)|].
    split; [exact (place_absent _ _ _ HI Hend k Hk)|].
    intros Hin. split; [|exact (indegree_target deps k Hin)].
    rewrite inDeg0_get. rewrite (proj2 (mem_In k (map tgt deps)) Hin).
    rewrite orb_true_r. reflexivity. }
  exists (nodes [1; 2]), (edges [(1, 2); (1, 99)]), (edges [(1, 2)]), (edge 1 99).
  exists (mkLoopState [1; 2; 99] 3 [(1, 0); (2, 0); (99, 0)]
            [(2, 1); (99, 1)] [(0, [1]); (1, [2; 99])]).
  exists [(1, mkPosition 0 (-50)); (2, mkPosition 260 (-130));
          (99, mkPosition 260 30)].
  exists [(1, mkPosition 0 (-50)); (2, mkPosition 260 (-50))].
  exists (mkPosition 260 30).
  split; [vm_compute; intuition discriminate|].
  split; [right; left; reflexivity|].
  split; [reflexivity|].
  split; [vm_compute; auto|].
  split; [vm_compute; reflexivity|].
  split; [vm_compute; auto|]. split; [vm_compute; auto|].
  do 2 (split; [reflexivity|]).
  split; [vm_compute; reflexivity|].
  do 3 (split; [reflexivity|]).
  split; [vm_compute; reflexivity|].
  split; [vm_compute; reflexivity|].
  split; reflexivity.
Qed.

(** * Further properties of [buildLayout] *)

(** X1 - Acyclic graphs are fully layered: when every edge leaves an input
    node and the identifiers admit a numbering that increases along every
    edge, every input node is placed in the column of its level, never by
    the fallback, and every edge points strictly to the right. *)
Theorem acyclic_layout_is_layered (steps : list ProcessStep.t)
  (deps : list Dependency.t) (rank : Z -> nat) (fuel : nat) (st : LoopState) :
  traverse fuel steps deps = Some st ->
  (forall d, In d deps -> In (src d) (ids steps)) ->
  (forall d, In d deps -> (rank (src d) < rank (tgt d))%nat) ->
  buildLayout steps deps = Some (place steps st) /\
  (forall s, In s steps ->
     exists g j,
       JsMap.get (levelGroups st) (lev st (ProcessStep.id s)) = Some g /\
       nth_error g j = Some (ProcessStep.id s) /\
       JsMap.get (place steps st) (ProcessStep.id s)
         = Some (bucketPos (lev st (ProcessStep.id s)) j (length g))) /\
  (forall d, In d deps ->
     lev st (src d) < lev st (tgt d) /\
     exists pu pv,
       JsMap.get (place steps st) (src d) = Some pu /\
       JsMap.get (place steps st) (tgt d) = Some pv /\
       x pu < x pv).
Proof.
  intros Ht Hsrc Hrank. destruct (traverse_inv _ _ _ _ Ht) as [HI Hend].
  assert (Hall : forall n v, (rank v < n)%nat -> isKey steps deps v = true ->
                             In v (queue st)).
  { induction n as [|n IH]; intros v Hn Hk; [lia|].
    destruct (inv_queue _ _ _ HI) as (_ & Hq & _).
    pose proof (inv_deg _ _ _ HI v) as Hd. rewrite Hk in Hd.
    apply (Hq _ _ Hd).
    assert (E1 : ext steps deps v = 0).
    { apply countZ_zero_iff. intros d Hd'.
      rewrite (proj2 (mem_In _ _) (Hsrc d Hd')). apply andb_false_r. }
    assert (E2 : pend steps deps (proc st) v = 0).
    { apply countZ_zero_iff. intros d Hd'.
      destruct (tgt d =? v) eqn:E; [|reflexivity].
      apply Z.eqb_eq in E. subst v.
      assert (Hp : In (src d) (queue st)).
      { apply IH; [pose proof (Hrank d Hd'); lia|].
        unfold isKey. rewrite (proj2 (mem_In _ _) (Hsrc d Hd')). reflexivity. }
      rewrite <- (proc_final st Hend) in Hp.
      rewrite (proj2 (mem_In _ _) Hp). apply andb_false_r. }
    lia. }
  assert (Hkey : forall v, isKey steps deps v = true -> In v (queue st)).
  { intros v. apply (Hall (S (rank v))). lia. }
  split; [eapply buildLayout_traverse; eauto|]. split.
  - intros s Hs. apply (place_dequeued steps _ _ HI Hend). apply Hkey.
    unfold isKey, ids. rewrite (proj2 (mem_In _ _) (in_map ProcessStep.id _ _ Hs)).
    reflexivity.
  - intros d Hd.
    assert (Hv : In (tgt d) (queue st)).
    { apply Hkey. unfold isKey.
      rewrite (proj2 (mem_In (tgt d) (map tgt deps)) (in_map tgt _ _ Hd)).
      apply orb_true_r. }
    destruct (dequeued_edge _ _ _ HI d Hd Hv) as (_ & Hu & Hl).
    split; [lia|].
    destruct (place_dequeued steps _ _ HI Hend _ Hu) as (gu & ju & _ & _ & Eu).
    destruct (place_dequeued steps _ _ HI Hend _ Hv) as (gv & jv & _ & _ & Ev).
    eexists _, _. split; [exact Eu|]. split; [exact Ev|].
    unfold bucketPos; cbn [x]. unfold NODE_W, GAP_X. lia.
Qed.

Lemma acyclic_layout_is_layered_witness :
  buildLayout diamondNodes diamondEdges = Some (place diamondNodes diamondState) /\
  (forall s, In s diamondNodes ->
     exists g j,
       JsMap.get (levelGroups diamondState) (lev diamondState (ProcessStep.id s)) = Some g /\
       nth_error g j = Some (ProcessStep.id s) /\
       JsMap.get (place diamondNodes diamondState) (ProcessStep.id s)
         = Some (bucketPos (lev diamondState (ProcessStep.id s)) j (length g))) /\
  (forall d, In d diamondEdges ->
     lev diamondState (src d) < lev diamondState (tgt d) /\
     exists pu pv,
       JsMap.get (place diamondNodes diamondState) (src d) = Some pu /\
       JsMap.get (place diamondNodes diamondState) (tgt d) = Some pv /\
       x pu < x pv).
Proof.
  apply (acyclic_layout_is_layered diamondNodes diamondEdges Z.to_nat 8 diamondState).
  - vm_compute. reflexivity.
  - intros d Hd. vm_compute in Hd. vm_compute. intuition (subst; auto).
  - intros d Hd. vm_compute in Hd. intuition (subst; vm_compute; lia).
Defined.

(** X2 - Order inside a column: each level bucket lists the dequeued
    identifiers of its level in dequeue order, so of two identifiers of the
    same level the one dequeued first is placed above the other, one row
    further down for each identifier of that level dequeued in between. *)
Theorem column_follows_dequeue_order (steps : list ProcessStep.t)
  (deps : list Dependency.t) (fuel : nat) (st : LoopState)
  (l1 l2 l3 : list Z) (a b : Z) :
  traverse fuel steps deps = Some st ->
  queue st = l1 ++ a :: l2 ++ b :: l3 ->
  lev st a = lev st b ->
  (forall k, JsMap.get (levelGroups st) k ?? []
             = filter (fun i => lev st i =? k) (queue st)) /\
  exists pa pb,
    JsMap.get (place steps st) a = Some pa /\
    JsMap.get (place steps st) b = Some pb /\
    x pa = x pb /\
    y pb = y pa + (1 + Z.of_nat (length (filter (fun i => lev st i =? lev st a) l2)))
                  * (NODE_H + GAP_Y).
Proof.
  intros Ht Hq Hab. destruct (traverse_inv _ _ _ _ Ht) as [HI Hend].
  destruct (traverse_bucketsOrdered _ _ _ _ Ht) as [Hb Hne].
  rewrite (proc_final st Hend) in Hb. split; [exact Hb|].
  pose proof (Hb (lev st a)) as Hg. rewrite Hq in Hg.
  set (p := fun i => lev st i =? lev st a) in *.
  assert (Ha : p a = true) by (apply Z.eqb_refl).
  assert (Hpb : p b = true) by (unfold p; rewrite Hab; apply Z.eqb_refl).
  pose proof (nth_error_filter_mid p l1 a (l2 ++ b :: l3) Ha) as Na.
  pose proof (nth_error_filter_mid p (l1 ++ a :: l2) b l3 Hpb) as Nb.
  rewrite <- app_assoc in Nb. cbn [app] in Nb. rewrite <- Hg in Na, Nb.
  destruct (JsMap.get (levelGroups st) (lev st a)) as [g|] eqn:Eg; cbn [orElse] in *;
    [|destruct (length (filter p l1)); discriminate].
  exists (bucketPos (lev st a) (length (filter p l1)) (length g)).
  exists (bucketPos (lev st a) (length (filter p (l1 ++ a :: l2))) (length g)).
  split; [exact (place_bucket steps _ _ HI Hend _ _ _ _ Eg Na)|].
  split; [exact (place_bucket steps _ _ HI Hend _ _ _ _ Eg Nb)|].
  split; [reflexivity|].
  unfold bucketPos; cbn [y]. rewrite filter_app. cbn [filter]. rewrite Ha.
  rewrite length_app. cbn [length]. unfold NODE_H, GAP_Y. lia.
Qed.

Lemma column_follows_dequeue_order_witness :
  (forall k, JsMap.get (levelGroups diamondState) k ?? []
             = filter (fun i => lev diamondState i =? k) (queue diamondState)) /\
  exists pa pb,
    JsMap.get (place diamondNodes diamondState) 2 = Some pa /\
    JsMap.get (place diamondNodes diamondState) 3 = Some pb /\
    x pa = x pb /\
    y pb = y pa + (1 + Z.of_nat (length (filter (fun i => lev diamondState i =? lev diamondState 2) [])))
                  * (NODE_H + GAP_Y).
Proof.
  apply (column_follows_dequeue_order diamondNodes diamondEdges 8 diamondState
           [1] [] [4] 2 3); vm_compute; reflexivity.
Defined.

(* the seeded identifiers are the roots and fill the first column *)
Lemma roots_placed (steps : list ProcessStep.t)
  (deps : list Dependency.t) (fuel : nat) (st : LoopState) :
  traverse fuel steps deps = Some st ->
  NoDup (ids steps) ->
  buildLayout steps deps = Some (place steps st) /\
  JsMap.get (levelGroups st) 0 ?? [] = roots steps deps /\
  (forall j k, nth_error (roots steps deps) j = Some k ->
     JsMap.get (place steps st) k
       = Some (bucketPos 0 j (length (roots steps deps)))).
Proof.
  intros Ht Hnd. destruct (traverse_inv _ _ _ _ Ht) as [HI Hend].
  pose proof (bucket_zero _ _ _ HI Hend (traverse_bucketsOrdered _ _ _ _ Ht)
                (traverse_seeded _ _ _ _ Ht)) as E.
  rewrite (seedQueue_roots _ _ Hnd) in E.
  split; [eapply buildLayout_traverse; eauto|]. split; [exact E|].
  intros j k Hj.
  destruct (JsMap.get (levelGroups st) 0) as [g|] eqn:Eg; cbn [orElse] in E.
  - subst g. exact (place_bucket steps _ _ HI Hend _ _ _ _ Eg Hj).
  - rewrite <- E in Hj. destruct j; discriminate.
Qed.

(** X3 - First column: with distinct node identifiers, the level-0 bucket
    is the list of the input nodes without incoming edge, in input order,
    and the j-th of them is placed at x = 0 in row j of that column. *)
Theorem roots_fill_first_column (steps : list ProcessStep.t)
  (deps : list Dependency.t) (fuel : nat) (st : LoopState) :
  traverse fuel steps deps = Some st ->
  NoDup (ids steps) ->
  buildLayout steps deps = Some (place steps st) /\
  JsMap.get (levelGroups st) 0 ?? [] = roots steps deps /\
  (forall j k, nth_error (roots steps deps) j = Some k ->
     JsMap.get (place steps st) k
       = Some (bucketPos 0 j (length (roots steps deps)))).
Proof. apply roots_placed. Qed.

Lemma roots_fill_first_column_witness :
  buildLayout (nodes [1; 2; 3]) (edges [(1, 3); (9, 3)])
    = Some (place (nodes [1; 2; 3])
              (mkLoopState [1; 2] 2 [(1, 0); (2, 0); (3, 1)] [(3, 1)] [(0, [1; 2])])) /\
  JsMap.get [(0, [1; 2])] 0 ?? [] = roots (nodes [1; 2; 3]) (edges [(1, 3); (9, 3)]) /\
  (forall j k, nth_error (roots (nodes [1; 2; 3]) (edges [(1, 3); (9, 3)])) j = Some k ->
     JsMap.get (place (nodes [1; 2; 3])
                  (mkLoopState [1; 2] 2 [(1, 0); (2, 0); (3, 1)] [(3, 1)] [(0, [1; 2])])) k
       = Some (bucketPos 0 j (length (roots (nodes [1; 2; 3]) (edges [(1, 3); (9, 3)]))))).
Proof.
  apply (roots_fill_first_column (nodes [1; 2; 3]) (edges [(1, 3); (9, 3)]) 5
           (mkLoopState [1; 2] 2 [(1, 0); (2, 0); (3, 1)] [(3, 1)] [(0, [1; 2])])).
  - vm_compute. reflexivity.
  - vm_compute. repeat constructor; simpl; intuition discriminate.
Defined.

(** X4 - No edges: with distinct node identifiers and an empty edge list
    all nodes are stacked in the single column x = 0, in input order. *)
Theorem no_edges_single_column (steps : list ProcessStep.t) :
  NoDup (ids steps) ->
  exists pos,
    buildLayout steps [] = Some pos /\
    forall j s, nth_error steps j = Some s ->
      JsMap.get pos (ProcessStep.id s) = Some (bucketPos 0 j (length steps)).
Proof.
  intros Hnd. destruct (traverse_total steps []) as (st & Ht & _).
  destruct (roots_placed steps [] _ st Ht Hnd) as (E & _ & Hpos).
  exists (place steps st). split; [exact E|].
  assert (Er : roots steps [] = ids steps).
  { unfold roots. apply filter_all. intros a _. reflexivity. }
  rewrite Er in Hpos. unfold ids in Hpos. rewrite length_map in Hpos.
  intros j s Hj. apply Hpos. apply map_nth_error. exact Hj.
Qed.

Lemma no_edges_single_column_witness :
  exists pos,
    buildLayout (nodes [5; 3; 8]) [] = Some pos /\
    forall j s, nth_error (nodes [5; 3; 8]) j = Some s ->
      JsMap.get pos (ProcessStep.id s) = Some (bucketPos 0 j (length (nodes [5; 3; 8]))).
Proof.
  apply (no_edges_single_column (nodes [5; 3; 8])).
  vm_compute. repeat constructor; simpl; intuition discriminate.
Defined.

(** X5 - No empty column: when every edge target is an input node and
    some input node has no incoming edge, every column from 0 to the
    highest level holds an input node. *)
Theorem level_columns_contiguous (steps : list ProcessStep.t)
  (deps : list Dependency.t) (fuel : nat) (st : LoopState)
  (r : ProcessStep.t) (k : Z) :
  traverse fuel steps deps = Some st ->
  (forall d, In d deps -> In (tgt d) (ids steps)) ->
  In r steps -> indegree deps (ProcessStep.id r) = 0 ->
  0 <= k <= maxLevelOf (levelGroups st) ->
  exists s p,
    In s steps /\ lev st (ProcessStep.id s) = k /\
    buildLayout steps deps = Some (place steps st) /\
    JsMap.get (place steps st) (ProcessStep.id s) = Some p /\
    x p = k * (NODE_W + GAP_X).
Proof.
  intros Ht Htgt Hr H0 Hk. destruct (traverse_inv _ _ _ _ Ht) as [HI Hend].
  destruct (traverse_bucketsOrdered _ _ _ _ Ht) as [_ Hne].
  assert (Hrq : In (ProcessStep.id r) (queue st)).
  { apply (root_queued _ _ _ HI); [|exact H0]. unfold isKey, ids.
    rewrite (proj2 (mem_In _ _) (in_map ProcessStep.id _ _ Hr)). reflexivity. }
  assert (Htop : exists v, In v (queue st) /\ lev st v = maxLevelOf (levelGroups st)).
  { destruct (maxLevelOf_cases (levelGroups st)) as [E|Hin].
    - exists (ProcessStep.id r). split; [exact Hrq|]. rewrite E. unfold lev.
      rewrite (no_edge_level_unset _ _ _ HI _ H0). reflexivity.
    - destruct (JsMap.get (levelGroups st) (maxLevelOf (levelGroups st)))
        as [g|] eqn:Eg; [|apply JsMapFacts.get_None_iff in Eg; contradiction].
      destruct g as [|v g]; [exfalso; exact (Hne _ _ Eg eq_refl)|].
      exists v. split.
      + exact (group_member_queue _ _ _ HI Hend _ _ _ Eg (or_introl eq_refl)).
      + exact (inv_grp_lvl _ _ _ HI _ _ _ Eg (or_introl eq_refl)). }
  destruct Htop as (v & Hv & Ev).
  destruct (level_populated _ _ _ HI (Z.to_nat (maxLevelOf (levelGroups st))) v Hv
              ltac:(lia) k ltac:(lia)) as (u & Hu & Eu).
  destruct (queued_is_node _ _ _ HI u Htgt Hu) as (s & Hs & <-).
  destruct (place_dequeued steps _ _ HI Hend _ Hu) as (g & j & _ & _ & Ep).
  eexists s, _. split; [exact Hs|]. split; [exact Eu|].
  split; [eapply buildLayout_traverse; eauto|]. split; [exact Ep|].
  rewrite Eu. reflexivity.
Qed.

Lemma level_columns_contiguous_witness :
  exists s p,
    In s diamondNodes /\ lev diamondState (ProcessStep.id s) = 1 /\
    buildLayout diamondNodes diamondEdges = Some (place diamondNodes diamondState) /\
    JsMap.get (place diamondNodes diamondState) (ProcessStep.id s) = Some p /\
    x p = 1 * (NODE_W + GAP_X).
Proof.
  apply (level_columns_contiguous diamondNodes diamondEdges 8 diamondState (node 1) 1).
  - vm_compute. reflexivity.
  - intros d Hd. vm_compute in Hd. vm_compute. intuition (subst; auto).
  - left. reflexivity.
  - reflexivity.
  - vm_compute. split; discriminate.
Defined.

(** X6 - Nothing to start from: when every input node has an incoming
    edge the traversal dequeues nothing, and with distinct identifiers the
    nodes are laid out in one row y = 0 in input order, the first one in
    column 1; column 0 stays empty. *)
Theorem no_root_single_row (steps : list ProcessStep.t) (deps : list Dependency.t) :
  NoDup (ids steps) ->
  (forall s, In s steps -> 0 < indegree deps (ProcessStep.id s)) ->
  exists pos,
    buildLayout steps deps = Some pos /\
    (forall j s, nth_error steps j = Some s ->
       JsMap.get pos (ProcessStep.id s)
         = Some (mkPosition ((Z.of_nat j + 1) * (NODE_W + GAP_X)) 0)) /\
    (forall k p, JsMap.get pos k = Some p -> x p <> 0).
Proof.
  intros Hnd Hin.
  assert (Hseed : seedQueue (snd (buildMaps steps deps)) = []).
  { rewrite (seedQueue_roots _ _ Hnd). apply filter_none. intros a Ha.
    apply in_map_iff in Ha. destruct Ha as (s & <- & Hs).
    apply Z.eqb_neq. pose proof (Hin s Hs). lia. }
  assert (Ht : traverse 0 steps deps = Some (initState (snd (buildMaps steps deps)))).
  { unfold traverse, initState. rewrite Hseed. reflexivity. }
  exists (place steps (initState (snd (buildMaps steps deps)))).
  split; [eapply buildLayout_traverse; eauto|].
  assert (Hrow : forall j s, nth_error steps j = Some s ->
            JsMap.get (place steps (initState (snd (buildMaps steps deps))))
              (ProcessStep.id s)
            = Some (mkPosition ((Z.of_nat j + 1) * (NODE_W + GAP_X)) 0)).
  { intros j s Hj. destruct (nth_error_split _ _ Hj) as (pre & post & E & Hlen).
    assert (Hpre : ~ In (ProcessStep.id s) (ids pre)).
    { intros Hp. rewrite E in Hnd. unfold ids in Hnd. rewrite map_app in Hnd.
      apply (NoDup_app_disjoint _ _ _ Hnd Hp). left. reflexivity. }
    assert (Hndpre : NoDup (ids pre)).
    { rewrite E in Hnd. unfold ids in Hnd. rewrite map_app in Hnd.
      exact (NoDup_app_remove_r _ _ Hnd). }
    unfold place, initState; cbn [levelGroups]. rewrite E at 1.
    change (placeLevels JsMap.empty) with (@JsMap.empty Position).
    change (maxLevelOf JsMap.empty) with 0.
    rewrite (fallback_first 0 pre s post JsMap.empty Hpre eq_refl).
    unfold unplaced. rewrite filter_all by reflexivity.
    rewrite (nodup_fixed_point Z.eq_dec Hndpre).
    unfold ids. rewrite length_map, Hlen. do 2 f_equal. lia. }
  split; [exact Hrow|].
  intros k p Hk.
  destruct (in_dec Z.eq_dec k (ids steps)) as [Hi|Hi].
  - apply in_map_iff in Hi. destruct Hi as (s & <- & Hs).
    apply In_nth_error in Hs. destruct Hs as [j Hj].
    rewrite (Hrow j s Hj) in Hk. injection Hk as <-. cbn [x].
    unfold NODE_W, GAP_X. lia.
  - unfold place, initState in Hk; cbn [levelGroups] in Hk.
    rewrite fallback_other in Hk by exact Hi. discriminate.
Qed.

Lemma no_root_single_row_witness :
  exists pos,
    buildLayout (nodes [1; 2]) (edges [(1, 2); (2, 1)]) = Some pos /\
    (forall j s, nth_error (nodes [1; 2]) j = Some s ->
       JsMap.get pos (ProcessStep.id s)
         = Some (mkPosition ((Z.of_nat j + 1) * (NODE_W + GAP_X)) 0)) /\
    (forall k p, JsMap.get pos k = Some p -> x p <> 0).
Proof.
  apply (no_root_single_row (nodes [1; 2]) (edges [(1, 2); (2, 1)])).
  - vm_compute. repeat constructor; simpl; intuition discriminate.
  - intros s Hs. vm_compute in Hs. intuition (subst; vm_compute; reflexivity).
Defined.

(** X7 - The layout reads identifiers only: two inputs with the same
    step identifiers in the same order and the same (source, target) pairs
    in the same order get the same layout, whatever the names, durations,
    costs or dependency identifiers. *)
Theorem layout_reads_identifiers_only (steps steps' : list ProcessStep.t)
  (deps deps' : list Dependency.t) :
  ids steps = ids steps' ->
  map (fun d => (src d, tgt d)) deps = map (fun d => (src d, tgt d)) deps' ->
  buildLayout steps deps = buildLayout steps' deps'.
Proof.
  intros Hs Hd. unfold buildLayout, buildLayoutFuel, traverse.
  rewrite !buildMaps_reads, Hs, Hd.
  assert (El : (length steps + length deps = length steps' + length deps')%nat).
  { rewrite <- (length_map ProcessStep.id steps), <- (length_map ProcessStep.id steps').
    rewrite <- (length_map (fun d => (src d, tgt d)) deps).
    rewrite <- (length_map (fun d => (src d, tgt d)) deps').
    unfold ids in Hs. rewrite Hs, Hd. reflexivity. }
  rewrite El.
  destruct (while _ _ _) as [st|]; [|reflexivity].
  cbn [option_map]. rewrite !place_reads, Hs. reflexivity.
Qed.

Lemma layout_reads_identifiers_only_witness :
  buildLayout diamondNodes diamondEdges
  = buildLayout
      [ProcessStep.mk 1 7 "a" 10 2 1 (Some 5) 3; ProcessStep.mk 2 7 "b" 20 2 1 None 3;
       ProcessStep.mk 3 7 "c" 30 2 1 None 3; ProcessStep.mk 4 7 "d" 40 2 1 None 3]
      (diamondDeps 1 2 3 4 11 12 13 14).
Proof.
  apply (layout_reads_identifiers_only diamondNodes
           [ProcessStep.mk 1 7 "a" 10 2 1 (Some 5) 3; ProcessStep.mk 2 7 "b" 20 2 1 None 3;
            ProcessStep.mk 3 7 "c" 30 2 1 None 3; ProcessStep.mk 4 7 "d" 40 2 1 None 3]
           diamondEdges (diamondDeps 1 2 3 4 11 12 13 14)); reflexivity.
Defined.

(** X18 - What malformed edges leave alone: an edge whose source is not in
    the node list is left out of the adjacency lists; and every input node
    that the traversal of buildLayout(nodes, edges) dequeues is also dequeued,
    at the same level and in the same column, by the traversal of
    buildLayout(nodes, edges with malformed edges removed).  Nothing is said
    of the nodes the first traversal does not dequeue. *)
Theorem malformed_edges_keep_levels (steps : list ProcessStep.t)
  (deps : list Dependency.t) (fuel fuel' : nat) (st st' : LoopState) (v : Z) :
  traverse fuel steps deps = Some st ->
  traverse fuel' steps (restricted steps deps) = Some st' ->
  In v (ids steps) -> In v (queue st) ->
  (forall k,
     JsMap.get (fst (buildMaps steps deps)) k
       = JsMap.get (fst (buildMaps steps
                      (filter (fun d => mem (src d) (ids steps)) deps))) k) /\
  In v (queue st') /\ lev st' v = lev st v /\
  exists p p',
    buildLayout steps deps = Some (place steps st) /\
    buildLayout steps (restricted steps deps) = Some (place steps st') /\
    JsMap.get (place steps st) v = Some p /\
    JsMap.get (place steps st') v = Some p' /\
    x p = lev st v * (NODE_W + GAP_X) /\ x p' = x p.
Proof.
  intros Ht Ht' Hv Hq.
  destruct (traverse_inv _ _ _ _ Ht) as [HI Hend].
  destruct (traverse_inv _ _ _ _ Ht') as [HI' Hend'].
  destruct (level_without_malformed _ _ _ _ HI Hend HI' Hend' v Hv Hq) as [Hq' El].
  split; [apply adjOut_known_source|].
  split; [exact Hq'|]. split; [exact El|].
  destruct (place_dequeued steps _ _ HI Hend _ Hq) as (g & j & _ & _ & E).
  destruct (place_dequeued steps _ _ HI' Hend' _ Hq') as (g' & j' & _ & _ & E').
  eexists _, _.
  split; [eapply buildLayout_traverse; eauto|].
  split; [eapply buildLayout_traverse; eauto|].
  split; [exact E|]. split; [exact E'|].
  unfold bucketPos; cbn [x]. rewrite El. split; reflexivity.
Qed.

Lemma malformed_edges_keep_levels_witness :
  let steps := nodes [1; 2; 3] in
  let deps := edges [(1, 2); (7, 3); (2, 9)] in
  let st := mkLoopState [1; 2; 9] 3 [(1, 0); (2, 0); (3, 1); (9, 0)]
              [(2, 1); (9, 2)] [(0, [1]); (1, [2]); (2, [9])] in
  let st' := mkLoopState [1; 3; 2] 3 [(1, 0); (2, 0); (3, 0)]
               [(2, 1)] [(0, [1; 3]); (1, [2])] in
  (forall k,
     JsMap.get (fst (buildMaps steps deps)) k
       = JsMap.get (fst (buildMaps steps
                      (filter (fun d => mem (src d) (ids steps)) deps))) k) /\
  In 2 (queue st') /\ lev st' 2 = lev st 2 /\
  exists p p',
    buildLayout steps deps = Some (place steps st) /\
    buildLayout steps (restricted steps deps) = Some (place steps st') /\
    JsMap.get (place steps st) 2 = Some p /\
    JsMap.get (place steps st') 2 = Some p' /\
    x p = lev st 2 * (NODE_W + GAP_X) /\ x p' = x p.
Proof.
  apply (malformed_edges_keep_levels (nodes [1; 2; 3])
           (edges [(1, 2); (7, 3); (2, 9)]) 6 6
           (mkLoopState [1; 2; 9] 3 [(1, 0); (2, 0); (3, 1); (9, 0)]
              [(2, 1); (9, 2)] [(0, [1]); (1, [2]); (2, [9])])
           (mkLoopState [1; 3; 2] 3 [(1, 0); (2, 0); (3, 0)]
              [(2, 1)] [(0, [1; 3]); (1, [2])])
           2).
  - vm_compute. reflexivity.
  - vm_compute. reflexivity.
  - simpl. auto.
  - simpl. auto.
Defined.

(** * Properties of the rendered graph *)

(** X8 - Nodes follow the layout: the graph always renders, with one node
    per step in step order; the node of a step carries the printed step
    identifier and the position the layout holds for that step, so the
    origin default is never used. *)
Theorem graph_nodes_follow_layout (props : WorkflowGraphProps.t) :
  exists positions ns,
    buildLayout (Process.steps (WorkflowGraphProps.process props))
      (Process.dependencies (WorkflowGraphProps.process props)) = Some positions /\
    WorkflowGraph.nodes props = Some ns /\
    length ns = length (Process.steps (WorkflowGraphProps.process props)) /\
    forall i s,
      nth_error (Process.steps (WorkflowGraphProps.process props)) i = Some s ->
      exists n p,
        nth_error ns i = Some n /\
        FlowNode.id n = jsString (ProcessStep.id s) /\
        StepNodeData.name (FlowNode.data n) = ProcessStep.name s /\
        JsMap.get positions (ProcessStep.id s) = Some p /\
        FlowNode.position n = p.
Proof.
  destruct (traverse_total (Process.steps (WorkflowGraphProps.process props))
              (Process.dependencies (WorkflowGraphProps.process props)))
    as (st & Ht & _).
  exists (place (Process.steps (WorkflowGraphProps.process props)) st).
  eexists. split; [eapply buildLayout_traverse; eauto|].
  split; [exact (nodes_unfold props _ _ Ht)|].
  split; [apply length_map|].
  intros i s Hs.
  destruct (place_covers _ st s (nth_error_In _ _ Hs)) as [p Hp].
  eexists _, p. split; [apply map_nth_error; exact Hs|].
  split; [reflexivity|]. split; [reflexivity|]. split; [exact Hp|].
  unfold WorkflowGraph.toNode, WorkflowGraph.process; cbn [FlowNode.position].
  rewrite Hp. reflexivity.
Qed.

(** X9 - Distinct nodes: when the step identifiers are distinct, the
    rendered nodes have pairwise distinct identifiers and any two of them
    are a full node-and-gap apart horizontally or vertically. *)
Theorem graph_nodes_distinct_and_apart (props : WorkflowGraphProps.t)
  (ns : list FlowNode.t) :
  NoDup (ids (Process.steps (WorkflowGraphProps.process props))) ->
  WorkflowGraph.nodes props = Some ns ->
  NoDup (map FlowNode.id ns) /\
  forall i j n m,
    i <> j -> nth_error ns i = Some n -> nth_error ns j = Some m ->
    FlowNode.id n <> FlowNode.id m /\
    separated (FlowNode.position n) (FlowNode.position m).
Proof.
  intros Hnd Hns.
  destruct (traverse_total (Process.steps (WorkflowGraphProps.process props))
              (Process.dependencies (WorkflowGraphProps.process props)))
    as (st & Ht & HI & Hend).
  pose proof (buildLayout_traverse _ _ _ _ Ht) as Hb.
  assert (Hpair : forall i j n m,
            i <> j -> nth_error ns i = Some n -> nth_error ns j = Some m ->
            FlowNode.id n <> FlowNode.id m /\
            separated (FlowNode.position n) (FlowNode.position m)).
  { intros i j n m Hij Hi Hj.
    destruct (nodes_nth props _ _ _ Hns Hi) as (pos1 & s & p & E1 & Es & -> & Hp & Ep).
    destruct (nodes_nth props _ _ _ Hns Hj) as (pos2 & t & q & E2 & Et & -> & Hq & Eq).
    unfold WorkflowGraph.process in *.
    rewrite Hb in E1, E2. injection E1 as <-. injection E2 as <-.
    assert (Hne : ProcessStep.id s <> ProcessStep.id t).
    { intros E. apply Hij.
      apply (proj1 (NoDup_nth_error _) Hnd i j).
      - unfold ids. rewrite length_map. apply nth_error_Some. congruence.
      - unfold ids. rewrite !nth_error_map, Es, Et. cbn. congruence. }
    split.
    - cbn [WorkflowGraph.toNode FlowNode.id]. intros E. apply Hne, jsString_inj, E.
    - rewrite Ep, Eq. exact (place_separated _ _ _ HI Hend _ _ _ _ Hne Hp Hq). }
  split; [|exact Hpair].
  apply (proj2 (NoDup_nth_error _)). intros i j Hi E.
  rewrite length_map in Hi. rewrite !nth_error_map in E.
  destruct (nth_error ns i) as [n|] eqn:En; [|apply nth_error_None in En; lia].
  destruct (nth_error ns j) as [m|] eqn:Em; [|discriminate].
  destruct (Nat.eq_dec i j) as [|Hij]; [assumption|].
  destruct (Hpair i j n m Hij En Em) as [Hid _]. cbn in E. congruence.
Qed.

Lemma graph_nodes_distinct_and_apart_witness :
  NoDup (map FlowNode.id diamondGraphNodes) /\
  forall i j n m,
    i <> j ->
    nth_error diamondGraphNodes i = Some n ->
    nth_error diamondGraphNodes j = Some m ->
    FlowNode.id n <> FlowNode.id m /\
    separated (FlowNode.position n) (FlowNode.position m).
Proof.
  apply (graph_nodes_distinct_and_apart diamondProps diamondGraphNodes).
  - vm_compute. repeat constructor; simpl; intuition discriminate.
  - vm_compute. reflexivity.
Defined.

(** X10 - Edge identifiers: two rendered edges have the same identifier
    exactly when their dependencies join the same source to the same
    target, so parallel dependencies collide and no others do. *)
Theorem edge_id_identifies_endpoints (props props' : WorkflowGraphProps.t)
  (d d' : Dependency.t) :
  FlowEdge.id (WorkflowGraph.toEdge props d)
    = FlowEdge.id (WorkflowGraph.toEdge props' d')
  <-> src d = src d' /\ tgt d = tgt d'.
Proof.
  cbn [WorkflowGraph.toEdge FlowEdge.id]. split.
  - intros E. cbn [append] in E. injection E as E.
    apply jsString_dash_split in E. destruct E as [E1 E2].
    split; [exact E1 | apply jsString_inj; exact E2].
  - intros [-> ->]. reflexivity.
Qed.

(** X11 - Edge endpoints: the source (target) of a rendered edge names a
    rendered node exactly when the source (target) of its dependency is
    the identifier of a step; an edge with a dangling endpoint refers to a
    node that is not rendered. *)
Theorem edge_endpoints_resolve (props : WorkflowGraphProps.t)
  (ns : list FlowNode.t) (d : Dependency.t) :
  WorkflowGraph.nodes props = Some ns ->
  ((exists n, In n ns /\ FlowNode.id n = FlowEdge.source (WorkflowGraph.toEdge props d))
   <-> In (src d) (ids (Process.steps (WorkflowGraphProps.process props)))) /\
  ((exists n, In n ns /\ FlowNode.id n = FlowEdge.target (WorkflowGraph.toEdge props d))
   <-> In (tgt d) (ids (Process.steps (WorkflowGraphProps.process props)))).
Proof.
  intros Hns.
  assert (H : forall k,
            (exists n, In n ns /\ FlowNode.id n = jsString k)
            <-> In k (ids (Process.steps (WorkflowGraphProps.process props)))).
  { intros k. split.
    - intros (n & Hn & E).
      destruct (nodes_In props _ _ Hns Hn) as (pos & s & Hs & ->).
      cbn [WorkflowGraph.toNode FlowNode.id] in E. apply jsString_inj in E.
      subst k. apply in_map. exact Hs.
    - intros Hk. apply in_map_iff in Hk. destruct Hk as (s & <- & Hs).
      destruct (nodes_cover props _ _ Hns Hs) as [pos Hn].
      eexists. split; [exact Hn | reflexivity]. }
  split; apply H.
Qed.

Lemma edge_endpoints_resolve_witness :
  ((exists n, In n diamondGraphNodes /\
              FlowNode.id n = FlowEdge.source (WorkflowGraph.toEdge diamondProps (edge 2 9)))
   <-> In (src (edge 2 9)) (ids (Process.steps (WorkflowGraphProps.process diamondProps)))) /\
  ((exists n, In n diamondGraphNodes /\
              FlowNode.id n = FlowEdge.target (WorkflowGraph.toEdge diamondProps (edge 2 9)))
   <-> In (tgt (edge 2 9)) (ids (Process.steps (WorkflowGraphProps.process diamondProps)))).
Proof.
  apply (edge_endpoints_resolve diamondProps diamondGraphNodes (edge 2 9)).
  vm_compute. reflexivity.
Defined.

(** X12 - Edge highlighting: an edge is animated and drawn red and thick,
    with a red arrow head, exactly when the node it leaves is flagged as
    bottleneck (and shown red on the minimap); otherwise it is still, grey
    and thin. *)
Theorem edge_highlight_matches_source_node (props : WorkflowGraphProps.t)
  (ns : list FlowNode.t) (n : FlowNode.t) (e : FlowEdge.t) :
  WorkflowGraph.nodes props = Some ns ->
  In n ns -> In e (WorkflowGraph.edges props) ->
  FlowEdge.source e = FlowNode.id n ->
  StepNodeData.isBottleneck (FlowNode.data n) = Some (FlowEdge.animated e) /\
  (FlowEdge.animated e = true ->
     FlowEdge.stroke (FlowEdge.style e) = "#dc2626"%string /\
     FlowEdge.strokeWidth (FlowEdge.style e) = QArith_base.Qmake 5 2 /\
     FlowEdge.color (FlowEdge.markerEnd e) = "#dc2626"%string /\
     WorkflowGraph.nodeColor n = "#ef4444"%string) /\
  (FlowEdge.animated e = false ->
     FlowEdge.stroke (FlowEdge.style e) = "#94a3b8"%string /\
     FlowEdge.strokeWidth (FlowEdge.style e) = QArith_base.Qmake 3 2 /\
     FlowEdge.color (FlowEdge.markerEnd e) = "#94a3b8"%string /\
     WorkflowGraph.nodeColor n <> "#ef4444"%string).
Proof.
  intros Hns Hn He Hid.
  destruct (nodes_In props _ _ Hns Hn) as (pos & s & Hs & ->).
  unfold WorkflowGraph.edges in He. apply in_map_iff in He.
  destruct He as (d & <- & Hd).
  cbn [WorkflowGraph.toEdge WorkflowGraph.toNode FlowEdge.source FlowNode.id] in Hid.
  apply jsString_inj in Hid.
  unfold WorkflowGraph.nodeColor.
  cbn [WorkflowGraph.toEdge WorkflowGraph.toNode FlowEdge.animated FlowEdge.style
       FlowEdge.stroke FlowEdge.strokeWidth FlowEdge.markerEnd FlowEdge.color
       FlowNode.data StepNodeData.isBottleneck StepNodeData.isCritical truthy orElse].
  rewrite Hid.
  destruct (mem (ProcessStep.id s) (WorkflowGraph.bottleneckStepIds props)).
  - split; [reflexivity|]. split; [intros _; repeat split | discriminate].
  - split; [reflexivity|]. split; [discriminate|]. intros _. repeat split.
    destruct (hasString _ _); discriminate.
Qed.

Lemma edge_highlight_matches_source_node_witness :
  StepNodeData.isBottleneck
    (FlowNode.data (WorkflowGraph.toNode diamondProps diamondPositions (node 2)))
  = Some (FlowEdge.animated (WorkflowGraph.toEdge diamondProps (edge 2 4))) /\
  (FlowEdge.animated (WorkflowGraph.toEdge diamondProps (edge 2 4)) = true ->
     FlowEdge.stroke (FlowEdge.style (WorkflowGraph.toEdge diamondProps (edge 2 4)))
       = "#dc2626"%string /\
     FlowEdge.strokeWidth (FlowEdge.style (WorkflowGraph.toEdge diamondProps (edge 2 4)))
       = QArith_base.Qmake 5 2 /\
     FlowEdge.color (FlowEdge.markerEnd (WorkflowGraph.toEdge diamondProps (edge 2 4)))
       = "#dc2626"%string /\
     WorkflowGraph.nodeColor (WorkflowGraph.toNode diamondProps diamondPositions (node 2))
       = "#ef4444"%string) /\
  (FlowEdge.animated (WorkflowGraph.toEdge diamondProps (edge 2 4)) = false ->
     FlowEdge.stroke (FlowEdge.style (WorkflowGraph.toEdge diamondProps (edge 2 4)))
       = "#94a3b8"%string /\
     FlowEdge.strokeWidth (FlowEdge.style (WorkflowGraph.toEdge diamondProps (edge 2 4)))
       = QArith_base.Qmake 3 2 /\
     FlowEdge.color (FlowEdge.markerEnd (WorkflowGraph.toEdge diamondProps (edge 2 4)))
       = "#94a3b8"%string /\
     WorkflowGraph.nodeColor (WorkflowGraph.toNode diamondProps diamondPositions (node 2))
       <> "#ef4444"%string).
Proof.
  apply (edge_highlight_matches_source_node diamondProps diamondGraphNodes
           (WorkflowGraph.toNode diamondProps diamondPositions (node 2))
           (WorkflowGraph.toEdge diamondProps (edge 2 4))).
  - vm_compute. reflexivity.
  - right. left. reflexivity.
  - right. right. left. reflexivity.
  - reflexivity.
Defined.

(** X13 - Highlights come from the analysis: on the page, a node is shown
    as bottleneck exactly when the analysis lists a bottleneck with its
    step identifier, and as critical exactly when it is no bottleneck and
    the critical path names its step; without an analysis every node is
    shown as normal and no edge is animated. *)
Theorem highlights_come_from_analysis (selected : Process.t)
  (analysis : option AnalysisResult.t) (ns : list FlowNode.t) (n : FlowNode.t) :
  WorkflowGraph.nodes (graphProps selected analysis) = Some ns ->
  In n ns ->
  (WorkflowGraph.nodeColor n = "#ef4444"%string <->
     exists a b, analysis = Some a /\ In b (AnalysisResult.bottlenecks a) /\
                 jsString (BottleneckInfo.step_id b) = FlowNode.id n) /\
  (WorkflowGraph.nodeColor n = "#f59e0b"%string <->
     WorkflowGraph.nodeColor n <> "#ef4444"%string /\
     exists a, analysis = Some a /\
               In (StepNodeData.name (FlowNode.data n)) (AnalysisResult.critical_path a)) /\
  (analysis = None ->
     WorkflowGraph.nodeColor n = "#6366f1"%string /\
     StepNode.badges (FlowNode.data n) = [] /\
     forall e, In e (WorkflowGraph.edges (graphProps selected analysis)) ->
               FlowEdge.animated e = false).
Proof.
  intros Hns Hn.
  destruct (nodes_In _ _ _ Hns Hn) as (pos & s & Hs & ->).
  unfold WorkflowGraph.nodeColor, StepNode.badges.
  cbn [WorkflowGraph.toNode FlowNode.data FlowNode.id StepNodeData.isBottleneck
       StepNodeData.isCritical StepNodeData.name truthy orElse].
  unfold WorkflowGraph.bottleneckStepIds, WorkflowGraph.criticalPathSteps.
  cbn [graphProps WorkflowGraphProps.bottleneckStepIds
       WorkflowGraphProps.criticalPathSteps orElse].
  assert (Hb : mem (ProcessStep.id s) (bottleneckIds analysis) = true <->
               exists a b, analysis = Some a /\ In b (AnalysisResult.bottlenecks a) /\
                           jsString (BottleneckInfo.step_id b) = jsString (ProcessStep.id s)).
  { rewrite mem_In. unfold bottleneckIds. split.
    - destruct analysis as [a|]; cbn [option_map orElse]; [|intros []].
      intros H. apply in_map_iff in H. destruct H as (b & E & Hb).
      exists a, b. rewrite E. auto.
    - intros (a & b & -> & Hb & E). apply jsString_inj in E.
      cbn [option_map orElse]. rewrite <- E. apply in_map. exact Hb. }
  assert (Hc : hasString (criticalPathSet analysis) (ProcessStep.name s) = true <->
               exists a, analysis = Some a /\
                         In (ProcessStep.name s) (AnalysisResult.critical_path a)).
  { rewrite hasString_In. unfold criticalPathSet. split.
    - destruct analysis as [a|]; cbn [option_map orElse]; [eauto | intros []].
    - intros (a & -> & H). exact H. }
  destruct (mem (ProcessStep.id s) (bottleneckIds analysis)) eqn:Eb;
    destruct (hasString (criticalPathSet analysis) (ProcessStep.name s)) eqn:Ec.
  - split; [split; [intros _; apply Hb; reflexivity | reflexivity]|].
    split; [split; [discriminate | intros [H _]; congruence]|].
    intros ->. discriminate.
  - split; [split; [intros _; apply Hb; reflexivity | reflexivity]|].
    split; [split; [discriminate | intros [H _]; congruence]|].
    intros ->. discriminate.
  - split; [split; [discriminate | intros H; apply Hb in H; discriminate]|].
    split; [split; [intros _; split; [discriminate | apply Hc; reflexivity] | reflexivity]|].
    intros ->. discriminate.
  - split; [split; [discriminate | intros H; apply Hb in H; discriminate]|].
    split; [split; [discriminate | intros [_ H]; apply Hc in H; discriminate]|].
    intros ->. split; [reflexivity|]. split; [reflexivity|].
    intros e He. unfold WorkflowGraph.edges in He. apply in_map_iff in He.
    destruct He as (d & <- & _). reflexivity.
Qed.

Lemma highlights_come_from_analysis_witness :
  (WorkflowGraph.nodeColor (WorkflowGraph.toNode diamondProps diamondPositions (node 2))
     = "#ef4444"%string <->
     exists a b, Some diamondAnalysis = Some a /\ In b (AnalysisResult.bottlenecks a) /\
                 jsString (BottleneckInfo.step_id b)
                 = FlowNode.id (WorkflowGraph.toNode diamondProps diamondPositions (node 2))) /\
  (WorkflowGraph.nodeColor (WorkflowGraph.toNode diamondProps diamondPositions (node 2))
     = "#f59e0b"%string <->
     WorkflowGraph.nodeColor (WorkflowGraph.toNode diamondProps diamondPositions (node 2))
       <> "#ef4444"%string /\
     exists a, Some diamondAnalysis = Some a /\
               In (StepNodeData.name
                     (FlowNode.data (WorkflowGraph.toNode diamondProps diamondPositions (node 2))))
                  (AnalysisResult.critical_path a)) /\
  (Some diamondAnalysis = None ->
     WorkflowGraph.nodeColor (WorkflowGraph.toNode diamondProps diamondPositions (node 2))
       = "#6366f1"%string /\
     StepNode.badges
       (FlowNode.data (WorkflowGraph.toNode diamondProps diamondPositions (node 2))) = [] /\
     forall e, In e (WorkflowGraph.edges (graphProps diamondProcess (Some diamondAnalysis))) ->
               FlowEdge.animated e = false).
Proof.
  apply (highlights_come_from_analysis diamondProcess (Some diamondAnalysis)
           diamondGraphNodes
           (WorkflowGraph.toNode diamondProps diamondPositions (node 2))).
  - vm_compute. reflexivity.
  - right. left. reflexivity.
Defined.

(** X14 - One status per node: the minimap colour, the border and header
    of the card and the badge under the name always show the same status;
    a bottleneck is shown as bottleneck even when it is also critical, and
    a card never carries both badges. *)
Theorem node_shows_one_status (n : FlowNode.t) :
  (truthy (StepNodeData.isBottleneck (FlowNode.data n)) = true /\
   WorkflowGraph.nodeColor n = "#ef4444"%string /\
   StepNode.borderClass (FlowNode.data n)
     = "border-red-500 shadow-red-100 shadow-lg"%string /\
   StepNode.headerClass (FlowNode.data n) = "text-red-700 bg-red-50"%string /\
   StepNode.badges (FlowNode.data n) = ["Bottleneck"%string]) \/
  (truthy (StepNodeData.isBottleneck (FlowNode.data n)) = false /\
   truthy (StepNodeData.isCritical (FlowNode.data n)) = true /\
   WorkflowGraph.nodeColor n = "#f59e0b"%string /\
   StepNode.borderClass (FlowNode.data n)
     = "border-amber-400 shadow-amber-100 shadow-md"%string /\
   StepNode.headerClass (FlowNode.data n) = "text-amber-700 bg-amber-50"%string /\
   StepNode.badges (FlowNode.data n) = ["Critical Path"%string]) \/
  (truthy (StepNodeData.isBottleneck (FlowNode.data n)) = false /\
   truthy (StepNodeData.isCritical (FlowNode.data n)) = false /\
   WorkflowGraph.nodeColor n = "#6366f1"%string /\
   StepNode.borderClass (FlowNode.data n) = "border-slate-200 shadow-sm"%string /\
   StepNode.headerClass (FlowNode.data n) = "text-slate-800 bg-slate-50"%string /\
   StepNode.badges (FlowNode.data n) = []).
Proof.
  unfold WorkflowGraph.nodeColor, StepNode.borderClass, StepNode.headerClass,
    StepNode.badges.
  destruct (truthy (StepNodeData.isBottleneck (FlowNode.data n))),
    (truthy (StepNodeData.isCritical (FlowNode.data n))); cbn [andb negb app];
    [left | left | right; left | right; right]; repeat split.
Qed.

(** * Properties of the simulation form *)

(** X15 - Requests of a session: after any sequence of events the rendered
    form can emit, the request names the process and a step of it (0 only
    when the process has no step), carries the implementation cost and
    the revenue, and carries the parameters of its simulation type and of
    no other; a merge target is a step identifier, or 0 when the process
    has fewer than two steps. *)
Theorem session_request_is_well_formed (process : Process.t)
  (externalRev : option Z) (evs : list SimulationForm.Event) :
  SimulationForm.session process (SimulationForm.init process externalRev) evs ->
  let st := SimulationForm.run (SimulationForm.init process externalRev) evs in
  let call := snd (SimulationForm.runSimulation process st) in
  fst call = Process.id process /\
  (In (SimulationRequest.step_id (snd call)) (ids (Process.steps process)) \/
   Process.steps process = [] /\ SimulationRequest.step_id (snd call) = 0) /\
  (SimulationRequest.duration_reduction_percent (snd call) <> None <->
     SimulationRequest.simulation_type (snd call) = reduce_duration) /\
  (SimulationRequest.resources_to_add (snd call) <> None <->
     SimulationRequest.simulation_type (snd call) = add_resource) /\
  (SimulationRequest.new_duration_minutes (snd call) <> None <->
     SimulationRequest.simulation_type (snd call) = automate) /\
  (SimulationRequest.new_cost_per_execution (snd call) <> None <->
     SimulationRequest.simulation_type (snd call) = automate) /\
  (SimulationRequest.merge_target_step_id (snd call) <> None <->
     SimulationRequest.simulation_type (snd call) = merge_steps) /\
  (forall m, SimulationRequest.merge_target_step_id (snd call) = Some m ->
     In m (ids (Process.steps process)) \/
     (length (Process.steps process) < 2)%nat /\ m = 0) /\
  SimulationRequest.implementation_cost (snd call)
    = Some (SimulationForm.implCost st) /\
  SimulationRequest.revenue_per_unit (snd call)
    = Some (SimulationForm.revenuePerUnit st).
Proof.
  intros Hs st call.
  pose proof (selectionOK_run process evs _ (selectionOK_init process externalRev) Hs)
    as [H1 H2]. fold st in H1, H2.
  destruct (request_fields st) as (E0 & E1 & E2 & E3 & E4 & E5 & E6 & E7 & E8).
  unfold call, SimulationForm.runSimulation; cbn [fst snd].
  rewrite E0, E1, E2, E3, E4, E5, E6, E7, E8.
  split; [reflexivity|]. split; [exact H1|].
  destruct (SimulationForm.simType st); cbn;
    repeat (split; try reflexivity; try discriminate; try congruence);
    try (intros m [= <-]; exact H2).
Qed.

Lemma session_request_is_well_formed_witness :
  let st := SimulationForm.run (SimulationForm.init diamondProcess None)
              [SimulationForm.ClickType merge_steps;
               SimulationForm.ChangeMergeTarget 3] in
  let call := snd (SimulationForm.runSimulation diamondProcess st) in
  fst call = Process.id diamondProcess /\
  (In (SimulationRequest.step_id (snd call)) (ids (Process.steps diamondProcess)) \/
   Process.steps diamondProcess = [] /\ SimulationRequest.step_id (snd call) = 0) /\
  (SimulationRequest.duration_reduction_percent (snd call) <> None <->
     SimulationRequest.simulation_type (snd call) = reduce_duration) /\
  (SimulationRequest.resources_to_add (snd call) <> None <->
     SimulationRequest.simulation_type (snd call) = add_resource) /\
  (SimulationRequest.new_duration_minutes (snd call) <> None <->
     SimulationRequest.simulation_type (snd call) = automate) /\
  (SimulationRequest.new_cost_per_execution (snd call) <> None <->
     SimulationRequest.simulation_type (snd call) = automate) /\
  (SimulationRequest.merge_target_step_id (snd call) <> None <->
     SimulationRequest.simulation_type (snd call) = merge_steps) /\
  (forall m, SimulationRequest.merge_target_step_id (snd call) = Some m ->
     In m (ids (Process.steps diamondProcess)) \/
     (length (Process.steps diamondProcess) < 2)%nat /\ m = 0) /\
  SimulationRequest.implementation_cost (snd call)
    = Some (SimulationForm.implCost st) /\
  SimulationRequest.revenue_per_unit (snd call)
    = Some (SimulationForm.revenuePerUnit st).
Proof.
  apply (session_request_is_well_formed diamondProcess None
           [SimulationForm.ClickType merge_steps;
            SimulationForm.ChangeMergeTarget 3]).
  vm_compute. intuition.
Defined.

(** X16 - The selection splits the steps: with distinct step identifiers,
    when the selected identifier names a step, [selectedStep] is that step
    and [otherSteps] is all the other steps, one fewer, in order; when it
    names none, there is no selected step and [otherSteps] is every step. *)
Theorem selection_splits_steps (process : Process.t) (st : SimulationForm.State) :
  NoDup (ids (Process.steps process)) ->
  (In (SimulationForm.stepId st) (ids (Process.steps process)) ->
     exists s,
       SimulationForm.selectedStep process st = Some s /\
       ProcessStep.id s = SimulationForm.stepId st /\
       ~ In s (SimulationForm.otherSteps process st) /\
       Permutation (s :: SimulationForm.otherSteps process st) (Process.steps process) /\
       S (length (SimulationForm.otherSteps process st))
       = length (Process.steps process)) /\
  (~ In (SimulationForm.stepId st) (ids (Process.steps process)) ->
     SimulationForm.selectedStep process st = None /\
     SimulationForm.otherSteps process st = Process.steps process).
Proof.
  intros Hnd. unfold SimulationForm.selectedStep, SimulationForm.otherSteps. split.
  - intros Hk. destruct (find_filter_split _ _ Hnd Hk) as (s & Hf & Hs & Hp).
    exists s. split; [exact Hf|]. split; [exact Hs|]. split.
    + intros Hin. apply filter_In in Hin. destruct Hin as [_ Hin].
      apply negb_true_iff, Z.eqb_neq in Hin. contradiction.
    + split; [exact Hp|]. apply (Permutation_length Hp).
  - intros Hk. split.
    + destruct (find _ _) as [s|] eqn:Ef; [|reflexivity].
      apply find_some in Ef. destruct Ef as [Hs E]. apply Z.eqb_eq in E.
      exfalso. apply Hk. rewrite <- E. apply in_map. exact Hs.
    + apply filter_all. intros s Hs. apply negb_true_iff, Z.eqb_neq.
      intros E. apply Hk. rewrite <- E. apply in_map. exact Hs.
Qed.

Lemma selection_splits_steps_witness :
  (In (SimulationForm.stepId (SimulationForm.init diamondProcess None))
      (ids (Process.steps diamondProcess)) ->
     exists s,
       SimulationForm.selectedStep diamondProcess (SimulationForm.init diamondProcess None)
         = Some s /\
       ProcessStep.id s = SimulationForm.stepId (SimulationForm.init diamondProcess None) /\
       ~ In s (SimulationForm.otherSteps diamondProcess (SimulationForm.init diamondProcess None)) /\
       Permutation
         (s :: SimulationForm.otherSteps diamondProcess (SimulationForm.init diamondProcess None))
         (Process.steps diamondProcess) /\
       S (length (SimulationForm.otherSteps diamondProcess
                    (SimulationForm.init diamondProcess None)))
       = length (Process.steps diamondProcess)) /\
  (~ In (SimulationForm.stepId (SimulationForm.init diamondProcess None))
        (ids (Process.steps diamondProcess)) ->
     SimulationForm.selectedStep diamondProcess (SimulationForm.init diamondProcess None)
       = None /\
     SimulationForm.otherSteps diamondProcess (SimulationForm.init diamondProcess None)
       = Process.steps diamondProcess).
Proof.
  apply (selection_splits_steps diamondProcess (SimulationForm.init diamondProcess None)).
  vm_compute. repeat constructor; simpl; intuition discriminate.
Defined.

(** X17 - Stale merge target: in every process with at least two steps,
    choosing the second step as target step and then the merge simulation
    is a session of the form, and the request it sends asks to merge the
    step with itself, although the merge select offers no option for that
    step. *)
Theorem merge_target_can_be_the_step_itself (pid : Z) (name : string)
  (description : option string) (s0 s1 : ProcessStep.t)
  (rest : list ProcessStep.t) (deps : list Dependency.t) (externalRev : option Z) :
  let process := Process.mk pid name description (s0 :: s1 :: rest) deps in
  let evs := [SimulationForm.ChangeStep (ProcessStep.id s1);
              SimulationForm.ClickType merge_steps] in
  let st := SimulationForm.run (SimulationForm.init process externalRev) evs in
  let req := snd (snd (SimulationForm.runSimulation process st)) in
  SimulationForm.session process (SimulationForm.init process externalRev) evs /\
  SimulationRequest.simulation_type req = merge_steps /\
  SimulationRequest.step_id req = ProcessStep.id s1 /\
  SimulationRequest.merge_target_step_id req = Some (SimulationRequest.step_id req) /\
  ~ In (SimulationRequest.step_id req) (ids (SimulationForm.otherSteps process st)).
Proof.
  intros process evs st req. split.
  - cbn. split; [right; left; reflexivity|]. split; [|exact I].
    do 4 right. left. reflexivity.
  - split; [reflexivity|]. split; [reflexivity|]. split; [reflexivity|].
    cbn [req st evs SimulationForm.run fold_left SimulationForm.runSimulation snd
         SimulationForm.request SimulationForm.handle SimulationForm.simType
         SimulationForm.stepId SimulationForm.simType_eqb SimulationRequest.step_id].
    intros Hin. unfold ids in Hin. apply in_map_iff in Hin.
    destruct Hin as (s & E & Hs). apply filter_In in Hs. destruct Hs as [_ Hs].
    cbn [SimulationForm.stepId] in Hs.
    apply negb_true_iff, Z.eqb_neq in Hs. contradiction.
Qed.
